(** * switchTopology: connectivity grouping, colouring and grid rendering

    A shallow embedding of [switchTopology.py] and the properties of its
    group reducer, grid coordinate mapper, chart renderer, colour assigner
    and short analyser.

    Conventions of the embedding.
    - Python [str] values are [string]s of ASCII characters; the regular
      expressions of the source are written out as matchers on them.
    - Python [set]s of strings are [gset string]; iterating over a set is
      iterating over [elements].
    - Python integers are [Z] where they can be negative (row and column
      offsets), [nat] where they count loop iterations or list positions.
    - The module-level globals [GRID_PREFIXES] and [E2E_PINS] are section
      variables, so every function that reads them takes them as
      arguments once the section is closed. *)

From Stdlib Require Import ZArith NArith List Ascii Bool Lia Permutation Sorted.
From Stdlib Require String DecimalString DecimalNat DecimalFacts.
From stdpp Require Import base decidable option list sets gmap strings.

(** ** Characters and regular-expression fragments *)
Module Re.

Definition code (c : ascii) : nat := nat_of_ascii c.

(** [\d] on ASCII text. *)
Definition is_digit (c : ascii) : bool :=
  (48 <=? code c)%nat && (code c <=? 57)%nat.

(** [[A-Z]]. *)
Definition is_upper (c : ascii) : bool :=
  (65 <=? code c)%nat && (code c <=? 90)%nat.

(** [[a-z]]. *)
Definition is_lower (c : ascii) : bool :=
  (97 <=? code c)%nat && (code c <=? 122)%nat.

(** [[A-Z]] under [re.IGNORECASE]. *)
Definition is_letter (c : ascii) : bool := is_upper c || is_lower c.

(** The characters [str.strip()] removes: tab, line feed, vertical tab,
    form feed, carriage return, the four separators 0x1c-0x1f, space. *)
Definition is_space (c : ascii) : bool :=
  ((9 <=? code c)%nat && (code c <=? 13)%nat)
  || ((28 <=? code c)%nat && (code c <=? 32)%nat).

Definition upper_char (c : ascii) : ascii :=
  if is_lower c then ascii_of_nat (code c - 32) else c.

Definition lower_char (c : ascii) : ascii :=
  if is_upper c then ascii_of_nat (code c + 32) else c.

Fixpoint map_chars (f : ascii -> ascii) (s : string) : string :=
  match s with
  | EmptyString => EmptyString
  | String c r => String (f c) (map_chars f r)
  end.

(** [str.upper] and [str.lower]. *)
Definition upper : string -> string := map_chars upper_char.
Definition lower : string -> string := map_chars lower_char.

Fixpoint lstrip (s : string) : string :=
  match s with
  | String c r => if is_space c then lstrip r else s
  | EmptyString => EmptyString
  end.

Fixpoint rstrip (s : string) : string :=
  match s with
  | EmptyString => EmptyString
  | String c r =>
      match rstrip r with
      | EmptyString => if is_space c then EmptyString else String c EmptyString
      | r' => String c r'
      end
  end.

(** [str.strip()]. *)
Definition strip (s : string) : string := rstrip (lstrip s).

(** [s.startswith(p)]. *)
Definition startswith (p s : string) : bool := String.prefix p s.

(** The text left after the longest run of leading digits. *)
Fixpoint skip_digits (s : string) : string :=
  match s with
  | String c r => if is_digit c then skip_digits r else s
  | EmptyString => EmptyString
  end.

(** [\d+] at the head of [s]: the rest after the run, when the run is
    not empty.  The run is greedy, and no pattern of the source lets a
    digit follow it, so no backtracking is lost. *)
Definition digits1 (s : string) : option string :=
  match s with
  | String c r => if is_digit c then Some (skip_digits r) else None
  | EmptyString => None
  end.

Definition newline : string := String (ascii_of_nat 10) EmptyString.

(** [$] without [re.MULTILINE]: the end of the text, or the position
    just before a line feed that ends the text. *)
Definition at_end (s : string) : bool :=
  String.eqb s EmptyString || String.eqb s newline.

(** [^[A-Z]\d+$] (also [^([A-Z])(\d+)$]). *)
Definition match_pin (s : string) : bool :=
  match s with
  | String c r =>
      is_upper c && match digits1 r with Some t => at_end t | None => false end
  | EmptyString => false
  end.

(** [^P\d[+-]$]. *)
Definition match_p_element (s : string) : bool :=
  match s with
  | String p (String d (String sg t)) =>
      Ascii.eqb p "P" && is_digit d
      && (Ascii.eqb sg "+" || Ascii.eqb sg "-") && at_end t
  | _ => false
  end.

(** [^[A-Z]:\d+x\d+$] under [re.IGNORECASE]. *)
Definition match_grid_definition (s : string) : bool :=
  match s with
  | String c (String colon r) =>
      is_letter c && Ascii.eqb colon ":"
      && match digits1 r with
         | Some (String x r') =>
             (Ascii.eqb x "x" || Ascii.eqb x "X")
             && match digits1 r' with Some t => at_end t | None => false end
         | _ => false
         end
  | _ => false
  end.

(** [int(s)] on the texts the pin pattern allows after the prefix
    letter: a run of digits, possibly followed by a line feed (which
    [int] ignores as trailing white space). *)
Fixpoint int_acc (acc : N) (s : string) : N :=
  match s with
  | String c r =>
      if is_digit c then int_acc (10 * acc + N.of_nat (code c - 48)) r else acc
  | EmptyString => acc
  end.

Definition int (s : string) : N := int_acc 0 s.

(** [s[0]] as a one-character text and [s[1:]]. *)
Definition head (s : string) : string := String.substring 0 1 s.
Definition tail (s : string) : string :=
  match s with String _ r => r | EmptyString => EmptyString end.

End Re.

(** ** Identifier classifier *)
Section Classifier.

Variable GRID_PREFIXES : list string.
Variable E2E_PINS : list string.

Definition is_grid_definition (item : string) : bool :=
  Re.match_grid_definition (Re.strip item).

Definition is_e2e_pin_definition (item : string) : bool :=
  Re.startswith "e2epins:" (Re.lower (Re.strip item)).

Definition is_pin (item : string) : bool :=
  match GRID_PREFIXES with
  | [] => Re.match_pin item
  | _ => Re.match_pin item && bool_decide (Re.head item ∈ GRID_PREFIXES)
  end.

Definition is_p_element (item : string) : bool :=
  Re.match_p_element item && negb (bool_decide (item ∈ E2E_PINS)).

Definition is_external_element (item : string) : bool :=
  is_p_element item || bool_decide (item ∈ E2E_PINS).

End Classifier.

(** ** Python's stable [sorted] *)
Section Sorted.

Context {A K : Type}.
Variable key : A -> K.
(** [kle a b] is "not [b < a]" on keys, the only test a Python sort
    makes. *)
Variable kle : K -> K -> bool.

Fixpoint insert_sorted (x : A) (l : list A) : list A :=
  match l with
  | [] => [x]
  | y :: l' =>
      if kle (key x) (key y) then x :: l else y :: insert_sorted x l'
  end.

(** [sorted(l, key=key)]: each element goes in front of the first
    later element whose key is not smaller, so equal keys keep the
    order of [l]; a stable sort has one result, whatever the algorithm. *)
Definition sorted (l : list A) : list A := foldr insert_sorted [] l.

Definition key_le (a b : A) : Prop := kle (key a) (key b) = true.

End Sorted.

(** Orders on the keys the source sorts by. *)
Definition str_le : string -> string -> bool := String.leb.

(** Tuples [(str, int)] as [sorted] compares them: first components first. *)
Definition str_N_le (a b : string * N) : bool :=
  if String.eqb a.1 b.1 then (a.2 <=? b.2)%N else String.leb a.1 b.1.

Definition nat_str_le (a b : nat * string) : bool :=
  if (a.1 =? b.1)%nat then String.leb a.2 b.2 else (a.1 <=? b.1)%nat.

(** ** Group reducer *)
Section Reducer.

Variable GRID_PREFIXES : list string.
Variable E2E_PINS : list string.

(** *** The merge loops as a machine

    [Outer] is the head of [while working_groups:]; [Inner] is the head
    of [while i < len(working_groups):]; [Done] is the exit of the outer
    loop. *)
Inductive loop_state : Type :=
| Outer (working merged : list (gset string))
| Inner (current_group : gset string) (working : list (gset string))
        (i : nat) (merged : list (gset string))
| Done (merged : list (gset string)).

(** [current_group.intersection(working_groups[i])] is truthy. *)
Definition overlaps (a b : gset string) : bool := bool_decide (a ∩ b ≠ ∅).

Definition step (s : loop_state) : loop_state :=
  match s with
  | Outer [] merged => Done merged
  | Outer (g :: working) merged => Inner g working 0 merged
  | Inner current working i merged =>
      match working !! i with
      | Some g =>
          if overlaps current g
          then Inner (current ∪ g) (delete i working) 0 merged
          else Inner current working (S i) merged
      | None => Outer working (merged ++ [current])
      end
  | Done merged => Done merged
  end.

Definition merged_of (s : loop_state) : list (gset string) :=
  match s with
  | Outer _ m | Inner _ _ _ m | Done m => m
  end.

(** An upper bound on the number of loop heads visited from [s]. *)
Definition steps_bound (s : loop_state) : nat :=
  match s with
  | Outer w _ => (length w + 1) * (length w + 1)
  | Inner _ w i _ => (length w + 1) * (length w + 1) + 1 + (length w - i)
  | Done _ => 0
  end.

(** [working_groups = [set(g) for g in initial_groups if g]]. *)
Definition working_groups (initial_groups : list (list string))
  : list (gset string) :=
  list_to_set <$> filter (λ g, g ≠ []) initial_groups.

(** The loops, run from the first head of the outer loop to its exit:
    [steps_bound] heads are enough to get there. *)
Definition merge_groups (working : list (gset string)) : list (gset string) :=
  let s0 := Outer working [] in
  merged_of (Nat.iter (steps_bound s0) step s0).

(** *** Canonical member order *)

Definition pin_key (x : string) : string * N :=
  (Re.head x, Re.int (Re.tail x)).

(** The filter of the [external] comprehension. *)
Definition is_listed_external (item : string) : bool :=
  negb (is_pin GRID_PREFIXES item) && negb (is_grid_definition item)
  && negb (is_e2e_pin_definition item).

Definition canonical (group_set : gset string) : list string :=
  let pins :=
    sorted pin_key str_N_le (filter (is_pin GRID_PREFIXES) (elements group_set)) in
  let external :=
    sorted Re.upper str_le (filter is_listed_external (elements group_set)) in
  external ++ pins.

(** *** Order of the groups *)

Definition group_head (group : list string) : string :=
  match group with x :: _ => x | [] => "" end.

Definition sort_key (group : list string) : nat * string :=
  match group with
  | [] => (3, "z")
  | _ =>
      let external_count :=
        length (filter (λ item, negb (is_pin GRID_PREFIXES item)) group) in
      let has_e2e := existsb (λ item, bool_decide (item ∈ E2E_PINS)) group in
      if has_e2e then (0, group_head group)
      else if (0 <? external_count)%nat then (1, group_head group)
      else (2, group_head group)
  end.

Definition reduce_connection_groups (initial_groups : list (list string))
  : list (list string) :=
  match initial_groups with
  | [] => []
  | _ =>
      let merged_groups := merge_groups (working_groups initial_groups) in
      let final_reduced_groups := canonical <$> merged_groups in
      sorted sort_key nat_str_le final_reduced_groups
  end.

End Reducer.

(** ** Grid coordinate mapper *)
Section Grid.

Local Open Scope Z_scope.

(** [s * n]: no copy when [n] is zero or negative. *)
Definition str_repeat (s : string) (n : Z) : string :=
  String.concat "" (replicate (Z.to_nat n) s).

(** [str(n)] for a non-negative integer. *)
Definition str_of_nat (n : nat) : string :=
  DecimalString.NilEmpty.string_of_uint (Nat.to_uint n).

Definition len (s : string) : Z := Z.of_nat (String.length s).

(** [s.center(width)]: the text itself when it is at least [width]
    long; otherwise padded with spaces, the odd one going to the left
    when [width] is odd. *)
Definition center (s : string) (width : Z) : string :=
  let marg := width - len s in
  if marg <=? 0 then s
  else
    let left := marg / 2 + Z.land (Z.land marg width) 1 in
    str_repeat " " left +:+ s +:+ str_repeat " " (marg - left).

Record row_state : Type := RowState {
  row_str : string;
  coord_map : gmap string (Z * Z);
  dot_number : nat
}.

(** One pass of [for _ in range(C):]. *)
Definition cell_step (prefix : string) (cell_width line_index : Z)
    (st : row_state) : row_state :=
  let cell_name := prefix +:+ str_of_nat (dot_number st) in
  let closing_pipe_index := len (row_str st) + cell_width in
  {| row_str := row_str st +:+ center cell_name cell_width +:+ "|";
     coord_map := <[cell_name := (line_index, closing_pipe_index)]> (coord_map st);
     dot_number := S (dot_number st) |}.

Record grid_state : Type := GridState {
  grid_lines : list string;
  grid_coords : gmap string (Z * Z);
  grid_dot : nat
}.

(** One pass of [for i in range(R):]. *)
Definition row_step (prefix : string) (C R cell_width : Z)
    (border_line : string) (st : grid_state) (i : nat) : grid_state :=
  let line_index := 2 * Z.of_nat i + 1 in
  let row := Nat.iter (Z.to_nat C) (cell_step prefix cell_width line_index)
               {| row_str := "|"; coord_map := grid_coords st;
                  dot_number := grid_dot st |} in
  let lines := grid_lines st ++ [row_str row] in
  {| grid_lines := if Z.of_nat i <? R - 1 then lines ++ [border_line] else lines;
     grid_coords := coord_map row;
     grid_dot := dot_number row |}.

Definition generate_ascii_grid (prefix : string) (C R cell_width : Z)
  : list string * gmap string (Z * Z) :=
  let border_line := "+" +:+ str_repeat (str_repeat "-" cell_width +:+ "+") C in
  let st := foldl (row_step prefix C R cell_width border_line)
              {| grid_lines := [border_line]; grid_coords := ∅; grid_dot := 1 |}
              (seq 0 (Z.to_nat R)) in
  (grid_lines st ++ [border_line], grid_coords st).

End Grid.

(** ** Python lists and dictionaries *)
Section PyList.

Context {A : Type}.
Local Open Scope Z_scope.

(** The position [l[r]] reads or writes; [None] is [IndexError]. *)
Definition py_index (l : list A) (r : Z) : option nat :=
  let n := Z.of_nat (length l) in
  let r' := if r <? 0 then r + n else r in
  if (r' <? 0) || (n <=? r') then None else Some (Z.to_nat r').

(** [l.insert(i, x)]: a negative [i] counts from the end, and an [i]
    outside the list is clamped to its ends. *)
Definition py_insert (l : list A) (i : Z) (x : A) : list A :=
  let n := Z.of_nat (length l) in
  let i1 := if i <? 0 then i + n else i in
  let i2 := if i1 <? 0 then 0 else if n <? i1 then n else i1 in
  take (Z.to_nat i2) l ++ x :: drop (Z.to_nat i2) l.

End PyList.

(** A [dict] that is iterated: keys keep the order of their first
    insertion, and assigning to a present key replaces its value in place. *)
Section PyDict.

Context {K V : Type} `{EqDecision K}.

Fixpoint dict_get (d : list (K * V)) (k : K) : option V :=
  match d with
  | [] => None
  | (k', v) :: d' => if decide (k = k') then Some v else dict_get d' k
  end.

Fixpoint dict_set (d : list (K * V)) (k : K) (v : V) : list (K * V) :=
  match d with
  | [] => [(k, v)]
  | (k', v') :: d' =>
      if decide (k = k') then (k, v) :: d' else (k', v') :: dict_set d' k v
  end.

Definition dict_has (d : list (K * V)) (k : K) : bool :=
  bool_decide (is_Some (dict_get d k)).

End PyDict.

(** ** Chart renderer *)

(** *** The store of list objects

    [build_colored_grid_lines] is handed references to the shared base
    line lists and [apply_coloring] writes into the list it is given, so
    lists of lines live in a store and are passed by location. *)
Definition loc : Type := nat.

Inductive exn : Type := KeyError | IndexError.

Definition M (A : Type) : Type :=
  gmap loc (list string) -> (exn + A) * gmap loc (list string).

Definition ret {A} (a : A) : M A := λ h, (inr a, h).

Definition bind {A B} (m : M A) (k : A -> M B) : M B :=
  λ h, match m h with
       | (inl e, h') => (inl e, h')
       | (inr a, h') => k a h'
       end.

Definition raise {A} (e : exn) : M A := λ h, (inl e, h).

#[global] Instance M_ret : MRet M := @ret.
#[global] Instance M_bind : MBind M := λ A B k m, bind m k.

(** [list(content)]: a new list object. *)
Definition new_list (content : list string) : M loc :=
  λ h, let l := fresh (dom h) in (inr l, <[l := content]> h).

(** The lines of the list object at [l]. *)
Definition get_list (l : loc) : M (list string) :=
  λ h, (inr (default [] (h !! l)), h).

(** [lines[i] = v] for a position [i] of the list. *)
Definition set_item (l : loc) (i : nat) (v : string) : M unit :=
  λ h, (inr tt, alter (λ content, <[i := v]> content) l h).

Fixpoint for_each {A} (l : list A) (body : A -> M unit) : M unit :=
  match l with
  | [] => ret tt
  | a :: l' => body a;; for_each l' body
  end.

Fixpoint fold_each {A S} (l : list A) (body : S -> A -> M S) (s : S) : M S :=
  match l with
  | [] => ret s
  | a :: l' => s' ← body s a; fold_each l' body s'
  end.

Definition of_option {A} (e : exn) (o : option A) : M A :=
  match o with Some a => ret a | None => raise e end.

Section Renderer.

Variable GRID_PREFIXES : list string.

(** [list(s)]: the characters of [s], each a text of length one. *)
Definition chars (s : string) : list string :=
  (λ c, String c EmptyString) <$> String.list_ascii_of_string s.

(** [ops_by_line], filled in the order of [ops]. *)
Definition group_by_line (ops : list (Z * Z * string))
  : gmap Z (list (Z * string)) :=
  foldl (λ ops_by_line '(r, c_index, code),
           <[r := default [] (ops_by_line !! r) ++ [(c_index, code)]]> ops_by_line)
        ∅ ops.

Definition Z_ge (a b : Z) : bool := (b <=? a)%Z.

(** The body of [for r in sorted(ops_by_line.keys()):]. *)
Definition color_line (lines : loc) (ops_by_line : gmap Z (list (Z * string)))
    (r : Z) : M unit :=
  content ← get_list lines;
  i ← of_option IndexError (py_index content r);
  let line_list := chars (default "" (content !! i)) in
  let line_list :=
    foldl (λ ll '(c_index, code), py_insert ll c_index code) line_list
          (sorted fst Z_ge (default [] (ops_by_line !! r))) in
  set_item lines i (String.concat "" line_list).

Definition apply_coloring (lines : loc) (ops : list (Z * Z * string)) : M unit :=
  let ops_by_line := group_by_line ops in
  for_each (sorted id Z.leb (elements (dom ops_by_line)))
           (color_line lines ops_by_line).

(** One item of [{p: list(base_grid_lines[p]) for p in GRID_PREFIXES}]. *)
Definition clone_one (base_grid_lines : gmap string loc)
    (colored_lines : gmap string loc) (p : string) : M (gmap string loc) :=
  l ← of_option KeyError (base_grid_lines !! p);
  content ← get_list l;
  l' ← new_list content;
  ret (<[p := l']> colored_lines).

Definition clone_lines (base_grid_lines : gmap string loc) : M (gmap string loc) :=
  fold_each GRID_PREFIXES (clone_one base_grid_lines) ∅.

(** [ops_by_prefix]: its lists are created here and are reachable from
    nowhere else, so they are kept as values.  [None] is the
    [KeyError] of an operation whose prefix is no grid prefix. *)
Definition group_by_prefix (consolidated_ops : list (Z * Z * string * string))
  : option (gmap string (list (Z * Z * string))) :=
  foldl (λ acc '(r, c_index, code, prefix),
           ops_by_prefix ← acc;
           l ← ops_by_prefix !! prefix;
           Some (<[prefix := l ++ [(r, c_index, code)]]> ops_by_prefix))
        (Some (list_to_map ((λ p, (p, [])) <$> GRID_PREFIXES)))
        consolidated_ops.

(** The body of the last loop: [apply_coloring(colored_lines[prefix],
    ops_by_prefix[prefix])]. *)
Definition color_one (colored_lines : gmap string loc)
    (ops_by_prefix : gmap string (list (Z * Z * string))) (prefix : string) : M unit :=
  l ← of_option KeyError (colored_lines !! prefix);
  ops ← of_option KeyError (ops_by_prefix !! prefix);
  apply_coloring l ops.

Definition build_colored_grid_lines (base_grid_lines : gmap string loc)
    (consolidated_ops : list (Z * Z * string * string)) : M (gmap string loc) :=
  colored_lines ← clone_lines base_grid_lines;
  ops_by_prefix ← of_option KeyError (group_by_prefix consolidated_ops);
  for_each GRID_PREFIXES (color_one colored_lines ops_by_prefix);;
  ret colored_lines.

End Renderer.

(** ** Colour assigner *)

Definition ESC : string := String (ascii_of_nat 27) EmptyString.

Definition COLORS : list string :=
  (λ s, ESC +:+ s) <$>
  [ "[41m"; "[42m"; "[44m"; "[45m"; "[46m";
    "[48;5;208m"; "[48;5;52m"; "[48;5;22m"; "[48;5;129m"; "[48;5;177m";
    "[48;5;19m"; "[48;5;28m"; "[48;5;135m"; "[48;5;202m"; "[48;5;36m" ].

Definition TEXT_BOLD_ITALIC_STATE : string := ESC +:+ "[1m" +:+ ESC +:+ "[3m".
Definition PIN_TERMINATOR : string :=
  ESC +:+ "[22m" +:+ ESC +:+ "[23m" +:+ ESC +:+ "[49m".
Definition NEUTRAL_BACKGROUND : string := ESC +:+ "[40m".

Section Colors.

Variable GRID_PREFIXES : list string.
Variable E2E_PINS : list string.

(** [COLORS[i % len(COLORS)]]. *)
Definition palette (i : nat) : string :=
  default "" (COLORS !! (i mod length COLORS)%nat).

(** [group_to_color], keyed by [tuple(group)]: a group listed twice
    keeps the colour of its last position. *)
Definition group_to_color (groups : list (list string))
  : list (list string * string) :=
  foldl (λ d '(i, group), dict_set d group (palette i)) [] (imap pair groups).

Definition group_priority_key (group : list string) : nat :=
  let external_count :=
    length (filter (λ item, negb (is_pin GRID_PREFIXES item)) group) in
  let has_e2e := existsb (λ item, bool_decide (item ∈ E2E_PINS)) group in
  if has_e2e then 0
  else if (0 <? external_count)%nat then 1
  else 2.

Record color_maps : Type := ColorMaps {
  pin_color_map : list (string * string);
  external_color_map : list (string * string);
  all_unique_external_items : gset string
}.

(** The body of [for item in group:]. *)
Definition color_item (color : string) (maps : color_maps) (item : string)
  : color_maps :=
  if is_pin GRID_PREFIXES item then
    if dict_has (pin_color_map maps) item then maps
    else {| pin_color_map := dict_set (pin_color_map maps) item color;
            external_color_map := external_color_map maps;
            all_unique_external_items := all_unique_external_items maps |}
  else if negb (is_grid_definition item) && negb (is_e2e_pin_definition item) then
    {| pin_color_map := pin_color_map maps;
       external_color_map := dict_set (external_color_map maps) item color;
       all_unique_external_items := {[item]} ∪ all_unique_external_items maps |}
  else maps.

(** The body of [for group in sorted_groups:]. *)
Definition color_group (colors : list (list string * string))
    (maps : color_maps) (group : list string) : color_maps :=
  let color := default "" (dict_get colors group) in
  foldl (color_item color) maps group.

(** The body of [for item, color in pin_color_map.items():]. *)
Definition pin_ops (map_coords : gmap string (gmap string (Z * Z)))
    (state_pins_by_prefix : gmap string (gset string)) (cell_width : Z)
    (entry : string * string) : list (Z * Z * string * string) :=
  let '(item, color) := entry in
  let prefix := Re.head item in
  match map_coords !! prefix with
  | Some current_map =>
      let state_pins := default ∅ (state_pins_by_prefix !! prefix) in
      match current_map !! item with
      | Some (r, c_end) =>
          let c_start := (c_end - cell_width)%Z in
          let text_format_code :=
            if bool_decide (item ∈ state_pins) then TEXT_BOLD_ITALIC_STATE else "" in
          [ (r, c_end, PIN_TERMINATOR, prefix);
            (r, c_start, color +:+ text_format_code, prefix) ]
      | None => []
      end
  | None => []
  end.

Definition calculate_global_colors
    (globally_reduced_groups : list (list string))
    (map_coords : gmap string (gmap string (Z * Z)))
    (state_pins_by_prefix : gmap string (gset string)) (cell_width : Z)
  : list (string * string) * list (string * string)
    * list (Z * Z * string * string) * gset string :=
  let colors := group_to_color globally_reduced_groups in
  let sorted_groups := sorted group_priority_key Nat.leb globally_reduced_groups in
  let maps :=
    foldl (color_group colors)
          {| pin_color_map := []; external_color_map := [];
             all_unique_external_items := ∅ |}
          sorted_groups in
  let consolidated_pin_ops :=
    concat (pin_ops map_coords state_pins_by_prefix cell_width
              <$> pin_color_map maps) in
  (pin_color_map maps, external_color_map maps, consolidated_pin_ops,
   all_unique_external_items maps).

End Colors.

(** ** Short analyser *)
Section Shorts.

Variable GRID_PREFIXES : list string.
Variable E2E_PINS : list string.

Definition all_non_pin_items (group : list string) : gset string :=
  filter (λ item, negb (is_pin GRID_PREFIXES item) && negb (is_grid_definition item))
         (list_to_set group : gset string).

Definition p_elements_in_group (group : list string) : gset string :=
  filter (λ item, is_p_element E2E_PINS item) (all_non_pin_items group).

Definition present_e2e_pins (group : list string) : list string :=
  filter (λ pin, pin ∈ (list_to_set group : gset string)) E2E_PINS.

(** The body of [for item in all_non_pin_items:]. *)
Definition record_short (external_color_map : gmap string string)
    (e2e_pin : string) (e2e_shorts_map : gmap string (gmap string string))
    (item : string) : gmap string (gmap string string) :=
  if bool_decide (item ≠ e2e_pin) then
    let shorted_to := default ∅ (e2e_shorts_map !! e2e_pin) in
    if bool_decide (item ∈ dom shorted_to) then e2e_shorts_map
    else
      let color := default NEUTRAL_BACKGROUND (external_color_map !! item) in
      <[e2e_pin := <[item := color]> shorted_to]> e2e_shorts_map
  else e2e_shorts_map.

Record analysis : Type := Analysis {
  e2e_shorts_map : gmap string (gmap string string);
  isolated_p_groups : list (gset string)
}.

(** The body of [for group in globally_reduced_groups:]. *)
Definition analyse_group (external_color_map : gmap string string)
    (st : analysis) (group : list string) : analysis :=
  let items := all_non_pin_items group in
  let p_elements := p_elements_in_group group in
  let present := present_e2e_pins group in
  let shorts :=
    foldl (λ m e2e_pin,
             foldl (record_short external_color_map e2e_pin) m (elements items))
          (e2e_shorts_map st) present in
  let is_isolated_p_group :=
    (size p_elements =? size items)%nat && bool_decide (present = []) in
  {| e2e_shorts_map := shorts;
     isolated_p_groups :=
       if is_isolated_p_group && (1 <? size p_elements)%nat
       then isolated_p_groups st ++ [p_elements]
       else isolated_p_groups st |}.

(** [for target_map in e2e_shorts_map.values(): ...update(target_map.keys())]. *)
Definition all_e2e_targets (shorts : gmap string (gmap string string))
  : gset string :=
  foldl (λ targets target_map, targets ∪ dom target_map) ∅
        ((map_to_list shorts).*2).

Definition is_truly_isolated (targets : gset string) (group : gset string) : bool :=
  forallb (λ item, negb (bool_decide (item ∈ targets))) (elements group).

(** Part 4 of [process_and_output_charts], from the initialisation of
    [e2e_shorts_map] to the filling of [printable_isolated_groups]. *)
Definition short_analysis (globally_reduced_groups : list (list string))
    (external_color_map : gmap string string)
  : gmap string (gmap string string) * list (list string) :=
  let st :=
    foldl (analyse_group external_color_map)
          {| e2e_shorts_map := list_to_map ((λ pin, (pin, ∅)) <$> E2E_PINS);
             isolated_p_groups := [] |}
          globally_reduced_groups in
  let targets := all_e2e_targets (e2e_shorts_map st) in
  let printable_isolated_groups :=
    (λ group, sorted Re.upper str_le (elements group))
      <$> filter (λ group, is_truly_isolated targets group) (isolated_p_groups st) in
  (e2e_shorts_map st, printable_isolated_groups).

End Shorts.


(** * Further parts of [switchTopology.py] *)

(** ** Grids of one height

    The padding of [process_and_output_charts] (step 2): a grid lower
    than the highest one gets blank lines, as wide as its first line,
    up to the height [2 * max_R + 1]. *)
Definition pad_lines (lines : list string) (max_R : Z) : list string :=
  let current_height := Z.of_nat (length lines) in
  let expected_height := (2 * max_R + 1)%Z in
  if (current_height <? expected_height)%Z then
    let blank_line_len := match lines with l0 :: _ => len l0 | [] => 0%Z end in
    let blank_line := str_repeat " " blank_line_len in
    let padding_needed := (expected_height - current_height)%Z in
    lines ++ replicate (Z.to_nat padding_needed) blank_line
  else lines.

(** The body of [for prefix in GRID_PREFIXES:] of step 2, for a grid of
    dimensions [C] by [R]: the lines stored in [grid_lines[prefix]] and
    the map stored in [map_coords[prefix]]. *)
Definition padded_grid (prefix : string) (C R cell_width max_R : Z)
  : list string * gmap string (Z * Z) :=
  let '(lines, coords) := generate_ascii_grid prefix C R cell_width in
  (pad_lines lines max_R, coords).

(** ** Colours of the state files

    [calculate_state_only_colors], the function
    [process_and_output_charts] defines for its part 2.5: the loops of
    [calculate_global_colors], over the groups in the order given. *)
Definition calculate_state_only_colors (GRID_PREFIXES : list string)
    (groups : list (list string))
    (pin_coords_map : gmap string (gmap string (Z * Z)))
    (state_pins_map : gmap string (gset string)) (cell_width : Z)
  : list (string * string) * list (string * string)
    * list (Z * Z * string * string) * gset string :=
  let colors := group_to_color groups in
  let maps :=
    foldl (color_group GRID_PREFIXES colors)
          {| pin_color_map := []; external_color_map := [];
             all_unique_external_items := ∅ |}
          groups in
  let consolidated_pin_ops :=
    concat (pin_ops pin_coords_map state_pins_map cell_width
              <$> pin_color_map maps) in
  (pin_color_map maps, external_color_map maps, consolidated_pin_ops,
   all_unique_external_items maps).

(** ** Charts *)

Definition GRID_SEPARATOR : string := "  ".

Section Charts.

Variable GRID_PREFIXES : list string.
Variable GRID_DIMENSIONS : gmap string (Z * Z).

(** The body of [for prefix in GRID_PREFIXES:] of step 2 of
    [process_and_output_charts]: the padded lines become a list object
    of the store, entered in [grid_lines], and the coordinates are
    entered in [map_coords]. *)
Definition generate_grid (max_C max_R cell_width : Z)
    (grids : gmap string loc * gmap string (gmap string (Z * Z)))
    (prefix : string)
  : M (gmap string loc * gmap string (gmap string (Z * Z))) :=
  let '(grid_lines, map_coords) := grids in
  let '(C, R) := default (max_C, max_R) (GRID_DIMENSIONS !! prefix) in
  let '(lines, coords) := padded_grid prefix C R cell_width max_R in
  l ← new_list lines;
  ret (<[prefix := l]> grid_lines, <[prefix := coords]> map_coords).

Definition generate_grids (max_C max_R cell_width : Z)
  : M (gmap string loc * gmap string (gmap string (Z * Z))) :=
  fold_each GRID_PREFIXES (generate_grid max_C max_R cell_width) (∅, ∅).

(** [line_parts] of [render_switch_grids] for the row [i]:
    [final_lines[prefix][i]] for each prefix. *)
Fixpoint line_parts (final_lines : gmap string loc) (h : gmap loc (list string))
    (i : nat) (prefixes : list string) : exn + list string :=
  match prefixes with
  | [] => inr []
  | prefix :: rest =>
      match final_lines !! prefix with
      | None => inl KeyError
      | Some l =>
          match default [] (h !! l) !! i with
          | None => inl IndexError
          | Some line =>
              match line_parts final_lines h i rest with
              | inl e => inl e
              | inr parts => inr (line :: parts)
              end
          end
      end
  end.

(** [for i in range(grid_height):] of [render_switch_grids]: the lines
    printed, and the exception that ended the loop if there is one. *)
Fixpoint print_rows (final_lines : gmap string loc) (h : gmap loc (list string))
    (rows : list nat) : list string * (exn + unit) :=
  match rows with
  | [] => ([], inr tt)
  | i :: rest =>
      match line_parts final_lines h i GRID_PREFIXES with
      | inl e => ([], inl e)
      | inr parts =>
          let '(out, r) := print_rows final_lines h rest in
          (String.concat GRID_SEPARATOR parts :: out, r)
      end
  end.

(** [render_switch_grids]: what it prints, one text for each call of
    [print], and how it ends.  It reads the store and changes nothing. *)
Definition render_switch_grids (final_lines : gmap string loc)
    (grid_height : Z) (note_text : string) (h : gmap loc (list string))
  : list string * (exn + unit) :=
  let header_str :=
    String.concat GRID_SEPARATOR ((λ p, "SWITCH " +:+ p) <$> GRID_PREFIXES) in
  let '(out, r) := print_rows final_lines h (seq 0 (Z.to_nat grid_height)) in
  ((Re.newline +:+ header_str) :: note_text :: out, r).

End Charts.

(** ** External items of a chart *)

(** Tuples [(str, str)] as [sorted] compares them. *)
Definition str_str_le (a b : string * string) : bool :=
  if String.eqb a.1 b.1 then String.leb a.2 b.2 else String.leb a.1 b.1.

(** [prepare_external_items]; [items] is the iterable in the order of
    its iteration. *)
Definition prepare_external_items (items : list string)
    (color_map : list (string * string)) : list string :=
  let filtered_items :=
    filter (λ item, negb (is_grid_definition item)
                    && negb (is_e2e_pin_definition item)) items in
  sorted (λ x, (default NEUTRAL_BACKGROUND (dict_get color_map x), Re.upper x))
         str_str_le filtered_items.

(** ** The charts of the connection groups

    Part 1 of [process_and_output_charts]: one chart for each group of
    [charting_groups_part1], and with it the colour maps and the
    operations of part 2. *)

Definition RESET : string := ESC +:+ "[0m".

(** [s.ljust(width)]. *)
Definition ljust (s : string) (width : Z) : string :=
  s +:+ str_repeat " " (width - len s).

Definition of_sum {A} (r : exn + A) : M A :=
  match r with inl e => raise e | inr a => ret a end.

(** A computation that reads the store and leaves it as it is. *)
Definition read_store {A} (f : gmap loc (list string) -> exn + A) : M A :=
  λ h, (f h, h).

(** A loop whose body may raise. *)
Fixpoint fold_sum {A S} (body : S -> A -> exn + S) (l : list A) (s : S) : exn + S :=
  match l with
  | [] => inr s
  | a :: l' =>
      match body s a with
      | inl e => inl e
      | inr s' => fold_sum body l' s'
      end
  end.

(** What part 1 leaves to part 2. *)
Record chart_state : Type := ChartState {
  color_index : nat;
  pin_color_map_part2 : list (string * string);
  consolidated_pin_ops_part2 : list (Z * Z * string * string);
  external_color_map_part2 : list (string * string);
  all_unique_external_items_part2 : gset string
}.

(** The variables of one pass of [for line_data in
    charting_groups_part1:]. *)
Record items_state : Type := ItemsState {
  charts : chart_state;
  non_pin_items : list string;
  color_ops_by_prefix : gmap string (list (Z * Z * string))
}.

Section Part1.

Variable GRID_PREFIXES : list string.
Variable grid_lines : gmap string loc.
Variable map_coords : gmap string (gmap string (Z * Z)).
Variable state_pins_by_prefix : gmap string (gset string).
Variables cell_width grid_height grid_section_width : Z.

(** The body of [for item in line_data:]. *)
Definition chart_item (color : string) (st : items_state) (item : string)
  : exn + items_state :=
  if is_pin GRID_PREFIXES item then
    let prefix := Re.head item in
    match map_coords !! prefix with
    | None => inl KeyError
    | Some current_map =>
        let state_pins := default ∅ (state_pins_by_prefix !! prefix) in
        match current_map !! item with
        | Some (r, c_end) =>
            let c_start := (c_end - cell_width)%Z in
            let text_format_code :=
              if bool_decide (item ∈ state_pins) then TEXT_BOLD_ITALIC_STATE else "" in
            match color_ops_by_prefix st !! prefix with
            | None => inl KeyError
            | Some ops_list =>
                let ops :=
                  <[prefix := ops_list ++ [ (r, c_end, PIN_TERMINATOR);
                                            (r, c_start, color +:+ text_format_code) ]]>
                    (color_ops_by_prefix st) in
                let st2 := charts st in
                inr {| charts :=
                         if dict_has (pin_color_map_part2 st2) item then st2
                         else
                           {| color_index := color_index st2;
                              pin_color_map_part2 :=
                                dict_set (pin_color_map_part2 st2) item color;
                              consolidated_pin_ops_part2 :=
                                consolidated_pin_ops_part2 st2
                                  ++ [ (r, c_end, PIN_TERMINATOR, prefix);
                                       (r, c_start, color +:+ text_format_code, prefix) ];
                              external_color_map_part2 := external_color_map_part2 st2;
                              all_unique_external_items_part2 :=
                                all_unique_external_items_part2 st2 |};
                       non_pin_items := non_pin_items st;
                       color_ops_by_prefix := ops |}
            end
        | None => inr st
        end
    end
  else if negb (is_grid_definition item) && negb (is_e2e_pin_definition item) then
    let st2 := charts st in
    inr {| charts :=
             {| color_index := color_index st2;
                pin_color_map_part2 := pin_color_map_part2 st2;
                consolidated_pin_ops_part2 := consolidated_pin_ops_part2 st2;
                external_color_map_part2 :=
                  if dict_has (external_color_map_part2 st2) item
                  then external_color_map_part2 st2
                  else dict_set (external_color_map_part2 st2) item color;
                all_unique_external_items_part2 :=
                  {[item]} ∪ all_unique_external_items_part2 st2 |};
           non_pin_items := non_pin_items st ++ [item];
           color_ops_by_prefix := color_ops_by_prefix st |}
  else inr st.

(** [standalone_cells]: the column of external items of one chart. *)
Definition standalone_cells (color : string) (non_pin_items : list string)
  : list string :=
  let valid_external_items_for_part1 :=
    filter (λ item, negb (is_grid_definition item)
                    && negb (is_e2e_pin_definition item)) non_pin_items in
  let external_cell_width_total := cell_width in
  match valid_external_items_for_part1 with
  | [] => []
  | _ =>
      let border_line := "+" +:+ str_repeat "-" external_cell_width_total +:+ "+" in
      [color +:+ border_line +:+ RESET]
        ++ ((λ item, color +:+ "|" +:+ center item external_cell_width_total
                       +:+ "|" +:+ RESET)
              <$> valid_external_items_for_part1)
        ++ [color +:+ border_line +:+ RESET]
  end.

(** The body of the loop that fills [colored_lines_by_prefix]. *)
Definition color_copy (ops_by_prefix : gmap string (list (Z * Z * string)))
    (colored_lines_by_prefix : gmap string loc) (prefix : string)
  : M (gmap string loc) :=
  l ← of_option KeyError (grid_lines !! prefix);
  content ← get_list l;
  colored_lines ← new_list content;
  ops ← of_option KeyError (ops_by_prefix !! prefix);
  apply_coloring colored_lines ops;;
  ret (<[prefix := colored_lines]> colored_lines_by_prefix).

(** [for i in range(grid_height):] of a chart: the lines printed. *)
Fixpoint chart_rows (colored_lines_by_prefix : gmap string loc)
    (standalone_padded : list string) (h : gmap loc (list string))
    (rows : list nat) : exn + list string :=
  match rows with
  | [] => inr []
  | i :: rest =>
      match line_parts colored_lines_by_prefix h i GRID_PREFIXES with
      | inl e => inl e
      | inr parts =>
          match standalone_padded !! i with
          | None => inl IndexError
          | Some cell =>
              match chart_rows colored_lines_by_prefix standalone_padded h rest with
              | inl e => inl e
              | inr out =>
                  inr ((String.concat GRID_SEPARATOR parts +:+ GRID_SEPARATOR +:+ cell)
                         :: out)
              end
          end
      end
  end.

(** One pass of [for line_data in charting_groups_part1:]: the state
    left to the next pass and the texts printed, one for each call of
    [print]. *)
Definition chart_group (st : chart_state) (line_data : list string)
  : M (chart_state * list string) :=
  let is_only_grid_def := forallb is_grid_definition line_data in
  if is_only_grid_def && (0 <? length line_data)%nat then ret (st, [])
  else
    let line_string := String.concat "," line_data in
    let color := palette (color_index st) in
    let st1 :=
      {| color_index := S (color_index st);
         pin_color_map_part2 := pin_color_map_part2 st;
         consolidated_pin_ops_part2 := consolidated_pin_ops_part2 st;
         external_color_map_part2 := external_color_map_part2 st;
         all_unique_external_items_part2 := all_unique_external_items_part2 st |} in
    items ← of_sum
      (fold_sum (chart_item color) line_data
         {| charts := st1; non_pin_items := [];
            color_ops_by_prefix := list_to_map ((λ p, (p, [])) <$> GRID_PREFIXES) |});
    let cells := standalone_cells color (non_pin_items items) in
    colored_lines_by_prefix ←
      fold_each GRID_PREFIXES (color_copy (color_ops_by_prefix items)) ∅;
    let pad_cell_width :=
      match cells with c0 :: _ => len c0 | [] => (cell_width + 2)%Z end in
    let blank_pad_line := str_repeat " " pad_cell_width in
    let standalone_padded :=
      cells ++ replicate (Z.to_nat (grid_height - Z.of_nat (length cells)))
                         blank_pad_line in
    let header_str_template :=
      String.concat GRID_SEPARATOR ((λ p, "GROUP " +:+ p) <$> GRID_PREFIXES) in
    rows ← read_store (λ h, chart_rows colored_lines_by_prefix standalone_padded h
                              (seq 0 (Z.to_nat grid_height)));
    ret (charts items,
         [ Re.newline +:+ str_repeat "-" (grid_section_width + len GRID_SEPARATOR
                                           + pad_cell_width);
           "Group: " +:+ line_string +:+ " " +:+ color +:+ "(COLOR)" +:+ RESET
             +:+ " (Bold/Italic text = State Active)";
           ljust header_str_template grid_section_width +:+ GRID_SEPARATOR
             +:+ "EXTERNAL" ]
           ++ rows).

(** [for line_data in charting_groups_part1:], from the state part 1
    starts with. *)
Definition part1_charts (charting_groups_part1 : list (list string))
  : M (chart_state * list string) :=
  fold_each charting_groups_part1
    (λ '(st, out) line_data,
       '(st', out') ← chart_group st line_data;
       ret (st', out ++ out'))
    ({| color_index := 0; pin_color_map_part2 := [];
        consolidated_pin_ops_part2 := []; external_color_map_part2 := [];
        all_unique_external_items_part2 := ∅ |}, []).

End Part1.

(** * Specification vocabulary *)

(** Every two members of a list, taken in list order, are related. *)
Fixpoint pairwise {A : Type} (R : relation A) (l : list A) : Prop :=
  match l with
  | [] => True
  | a :: l' => Forall (R a) l' ∧ pairwise R l'
  end.

(** *** Invariant of the merge loops *)

(** The groups not yet emitted: the accumulator, if any, and the
    unprocessed list. *)
Definition pending (s : loop_state) : list (gset string) :=
  match s with
  | Outer w _ => w
  | Inner cur w _ _ => cur :: w
  | Done _ => []
  end.

Definition pool (s : loop_state) : list (gset string) :=
  merged_of s ++ pending s.

(** The accumulator shares nothing with the groups the scan has passed. *)
Definition scanned (s : loop_state) : Prop :=
  match s with
  | Inner cur w i _ => ∀ g, g ∈ take i w → cur ## g
  | _ => True
  end.

Record merge_inv (W0 : list (gset string)) (s : loop_state) : Prop := MergeInv {
  inv_cover : ∀ g0, g0 ∈ W0 → ∃ g, g ∈ pool s ∧ g0 ⊆ g;
  inv_sound : ∀ g, g ∈ pool s → g ⊆ ⋃ W0;
  inv_merged : pairwise (##) (merged_of s);
  inv_settled : ∀ m g, m ∈ merged_of s → g ∈ pending s → m ## g;
  inv_scanned : scanned s
}.

(** The sets the merge loops end with. *)
Definition reduced_sets (initial_groups : list (list string)) : list (gset string) :=
  merge_groups (working_groups initial_groups).

Definition lists_disjoint (a b : list string) : Prop := ∀ x, x ∈ a → x ∉ b.

(** *** Partitions *)
Section ReducerSpec.

Variable GRID_PREFIXES : list string.

(** The members a final group keeps: pins, and the other tokens that
    are formatted neither as a grid definition nor as an [e2epins:]
    definition. *)
Definition retained (x : string) : bool :=
  is_pin GRID_PREFIXES x || is_listed_external GRID_PREFIXES x.

Definition appears_in (groups : list (list string)) (x : string) : Prop :=
  ∃ g, g ∈ groups ∧ x ∈ g.

Definition in_exactly_one (groups : list (list string)) (x : string) : Prop :=
  ∃ i g, groups !! i = Some g ∧ x ∈ g
         ∧ ∀ j g', groups !! j = Some g' → x ∈ g' → j = i.

Definition groups_disjoint (groups : list (list string)) : Prop :=
  ∀ i j a b, i ≠ j → groups !! i = Some a → groups !! j = Some b →
             ∀ x, x ∈ a → x ∉ b.

(** Every element of every group is one a final group keeps: what the
    loader hands over, which removes definition tokens itself. *)
Definition well_formed_input (groups : list (list string)) : Prop :=
  ∀ g x, g ∈ groups → x ∈ g → retained x = true.

(** [out] is a partition of the elements [elems]. *)
Definition partitions (elems : string → Prop) (out : list (list string)) : Prop :=
  (∀ x, elems x → in_exactly_one out x)
  ∧ groups_disjoint out
  ∧ (∀ x, appears_in out x ↔ elems x).

Definition shares (g1 g2 : list string) : Prop := ∃ x, x ∈ g1 ∧ x ∈ g2.

(** Three groups chained by overlaps end in one group of [out], as far
    as the members selected by [keep] go. *)
Definition chains_merged (keep : string → Prop)
    (groups out : list (list string)) : Prop :=
  ∀ g1 g2 g3, g1 ∈ groups → g2 ∈ groups → g3 ∈ groups →
    shares g1 g2 → shares g2 g3 →
    ∃ r, r ∈ out ∧ ∀ x, x ∈ g1 ∨ x ∈ g2 ∨ x ∈ g3 → keep x → x ∈ r.

(** The same collection of groups, each with the same members, whatever
    the order of the groups and of the members. *)
Definition same_partition (l1 l2 : list (list string)) : Prop :=
  (list_to_set <$> l1 : list (gset string)) ≡ₚ (list_to_set <$> l2).

(** Canonical member order. *)
Definition canonical_order (g : list string) : Prop :=
  ∃ external pins,
    g = external ++ pins
    ∧ Forall (λ x, is_pin GRID_PREFIXES x = false) external
    ∧ Sorted (key_le Re.upper str_le) external
    ∧ Forall (λ x, is_pin GRID_PREFIXES x = true) pins
    ∧ Sorted (key_le pin_key str_N_le) pins.

End ReducerSpec.

(** *** Grid coordinates *)

(** No two keys of the coordinate map have the same coordinate. *)
Definition coord_injective (m : gmap string (Z * Z)) : Prop :=
  ∀ k1 k2 v, m !! k1 = Some v → m !! k2 = Some v → k1 = k2.

(** Every coordinate of [m] lies before [(line, col)], reading the grid
    line by line. *)
Definition coords_before (line col : Z) (m : gmap string (Z * Z)) : Prop :=
  ∀ k l c, m !! k = Some (l, c) → (l < line ∨ (l = line ∧ c < col))%Z.

(** Every coordinate of [m] lies on a line above [line]. *)
Definition lines_before (line : Z) (m : gmap string (Z * Z)) : Prop :=
  ∀ k l c, m !! k = Some (l, c) → (l < line)%Z.

(** *** Effects on the store *)

(** [m] changes no list object outside [L], and neither creates nor
    removes one. *)
Definition touches_only {A : Type} (L : loc → Prop) (m : M A) : Prop :=
  ∀ h, dom (m h).2 = dom h ∧ ∀ l, ¬ L l → (m h).2 !! l = h !! l.

(** Run on stores that hold the same list at [l1] and at [l2], [m1] and
    [m2] end alike and again leave the same list at [l1] and at [l2]. *)
Definition rel_at {A : Type} (l1 l2 : loc) (m1 m2 : M A) : Prop :=
  ∀ h1 h2, h1 !! l1 = h2 !! l2 →
    (m1 h1).1 = (m2 h2).1 ∧ (m1 h1).2 !! l1 = (m2 h2).2 !! l2.

(** Two dictionaries of references whose lists, prefix by prefix, are
    equal. *)
Definition same_contents (c1 c2 : gmap string loc)
    (h1 h2 : gmap loc (list string)) : Prop :=
  ∀ p l1 l2, c1 !! p = Some l1 → c2 !! p = Some l2 → h1 !! l1 = h2 !! l2.

(** Distinct keys refer to distinct list objects. *)
Definition dict_inj (c : gmap string loc) : Prop :=
  ∀ p q l, c !! p = Some l → c !! q = Some l → p = q.

(** The references of [base] point to list objects of the store. *)
Definition live_in (h : gmap loc (list string)) (base : gmap string loc) : Prop :=
  map_Forall (λ _ l, l ∈ dom h) base.

(** The references of [c] point to pairwise distinct list objects of
    [h], none of them in the store [h0] the copying started from, each a
    copy of the base list of its prefix as [h0] has it. *)
Definition clones_of (base : gmap string loc) (h0 : gmap loc (list string))
    (c : gmap string loc) (h : gmap loc (list string)) : Prop :=
  dict_inj c
  ∧ ∀ p l', c !! p = Some l' →
      l' ∈ dom h ∧ (l' ∉ dom h0)
      ∧ ∃ l, base !! p = Some l ∧ h !! l' = Some (default [] (h0 !! l)).

(** [h'] has every list object of [h], unchanged. *)
Definition preserves (h h' : gmap loc (list string)) : Prop :=
  ∀ l, l ∈ dom h → h' !! l = h !! l.

(** *** Isolated transient-element groups *)
Section ShortsSpec.

Variable GRID_PREFIXES : list string.
Variable E2E_PINS : list string.

(** The transient elements (P-elements) among the members of a group. *)
Definition transient_elements (group : list string) : gset string :=
  filter (λ x, is_p_element E2E_PINS x) (list_to_set group : gset string).

(** The elements recorded as shorted to some declared terminal. *)
Definition shorted_targets (groups : list (list string))
    (external_color_map : gmap string string) : gset string :=
  all_e2e_targets (short_analysis GRID_PREFIXES E2E_PINS groups external_color_map).1.

(** The transient elements of [group] are listed as an isolated group. *)
Definition reported_isolated (groups : list (list string))
    (external_color_map : gmap string string) (group : list string) : Prop :=
  sorted Re.upper str_le (elements (transient_elements group))
  ∈ (short_analysis GRID_PREFIXES E2E_PINS groups external_color_map).2.

(** What one group adds to the shorted targets. *)
Definition shorted_in (group : list string) (x : string) : Prop :=
  ∃ pin, pin ∈ present_e2e_pins E2E_PINS group
         ∧ x ∈ all_non_pin_items GRID_PREFIXES group ∧ x ≠ pin.

(** The test that appends to [isolated_p_groups]. *)
Definition is_isolated_candidate (group : list string) : bool :=
  (size (p_elements_in_group GRID_PREFIXES E2E_PINS group)
   =? size (all_non_pin_items GRID_PREFIXES group))%nat
  && bool_decide (present_e2e_pins E2E_PINS group = [])
  && (1 <? size (p_elements_in_group GRID_PREFIXES E2E_PINS group))%nat.

End ShortsSpec.

(** *** Colours by order of writing *)

(** The colour of the first group of [groups] that has [x] as a member. *)
Fixpoint first_color (colors : list (list string * string))
    (groups : list (list string)) (x : string) : option string :=
  match groups with
  | [] => None
  | g :: groups' =>
      if bool_decide (x ∈ g) then Some (default "" (dict_get colors g))
      else first_color colors groups' x
  end.

(** The colour of the last group of [groups] that has [x] as a member. *)
Definition last_color (colors : list (list string * string))
    (groups : list (list string)) (x : string) : option string :=
  first_color colors (reverse groups) x.


(** * Further specification vocabulary *)

(** *** Connected components *)

(** [x] and [y] are listed together in one of the groups. *)
Definition linked (groups : list (list string)) (x y : string) : Prop :=
  ∃ g, g ∈ groups ∧ x ∈ g ∧ y ∈ g.

Definition linked_sets (W : list (gset string)) (x y : string) : Prop :=
  ∃ s, s ∈ W ∧ x ∈ s ∧ y ∈ s.

(** A chain of groups, each sharing an element with the next, leads from
    [x] to [y]. *)
Definition connected (groups : list (list string)) : relation string :=
  rtc (linked groups).

(** Every group of the machine state holds elements that are chained
    to one another by the initial groups. *)
Definition pool_connected (W0 : list (gset string)) (s : loop_state) : Prop :=
  ∀ g x y, g ∈ pool s → x ∈ g → y ∈ g → rtc (linked_sets W0) x y.

(** The priority class of a group of the final list: the number
    [sort_key] puts first. *)
Definition priority_class (GRID_PREFIXES E2E_PINS : list string)
    (group : list string) : nat :=
  (sort_key GRID_PREFIXES E2E_PINS group).1.

(** *** Grid layout *)

(** The label of the [n]-th cell. *)
Definition cell_name (prefix : string) (n : nat) : string :=
  prefix +:+ str_of_nat n.

(** Every label of a [C] by [R] grid is at most [cell_width] long. *)
Definition names_fit (prefix : string) (C R cell_width : Z) : Prop :=
  ∀ n, (1 ≤ n ≤ Z.to_nat C * Z.to_nat R)%nat →
       (len (cell_name prefix n) ≤ cell_width)%Z.

(** Line and closing column of the [n]-th cell, the cells numbered from 1
    row by row. *)
Definition cell_coord (C cell_width : Z) (n : nat) : Z * Z :=
  ((2 * Z.of_nat ((n - 1) / Z.to_nat C) + 1)%Z,
   ((Z.of_nat ((n - 1) mod Z.to_nat C) + 1) * (cell_width + 1))%Z).

(** [row] shows the centred label [name] in the [cell_width] columns
    before column [c_end], and the closing border at [c_end]. *)
Definition cell_at (cell_width : Z) (row : string) (c_end : Z) (name : string) : Prop :=
  ∃ pre post,
    row = pre +:+ center name cell_width +:+ "|" +:+ post
    ∧ (len pre + cell_width = c_end)%Z.

(** *** Shorts of one terminal *)

(** The targets recorded for the terminal [pin], none if the map has no
    entry for it. *)
Definition shorted_to_of (shorts : gmap string (gmap string string))
    (pin : string) : gmap string string :=
  default ∅ (shorts !! pin).

(** [x] is a member of a group of [groups] that has [pin], and is
    neither a switch pin nor a grid definition. *)
Definition grouped_with (GRID_PREFIXES : list string)
    (groups : list (list string)) (pin x : string) : Prop :=
  ∃ g, g ∈ groups ∧ pin ∈ g ∧ x ∈ g
       ∧ is_pin GRID_PREFIXES x = false ∧ is_grid_definition x = false.

(** *** Coloured tokens *)

(** The non-pin tokens that get a colour and a place in the table of
    external connections. *)
Definition listed_external (GRID_PREFIXES : list string) (x : string) : Prop :=
  is_pin GRID_PREFIXES x = false
  ∧ is_grid_definition x = false ∧ is_e2e_pin_definition x = false.

(** The colour maps record pins in the pin map only, listed externals
    in the external map only, and the set of external items is the set
    of keys of the external map. *)
Record maps_classified (GRID_PREFIXES : list string) (maps : color_maps) : Prop :=
  MapsClassified {
    pins_only : ∀ x, is_Some (dict_get (pin_color_map maps) x) →
                     is_pin GRID_PREFIXES x = true;
    externals_only : ∀ x, is_Some (dict_get (external_color_map maps) x) →
                          listed_external GRID_PREFIXES x;
    items_are_keys : ∀ x, x ∈ all_unique_external_items maps
                          ↔ is_Some (dict_get (external_color_map maps) x)
  }.

(** *** Coloured lines *)

(** The lines of the list object at [l], none if there is no such
    object. *)
Definition content_of (h : gmap loc (list string)) (l : loc) : list string :=
  default [] (h !! l).

(** The operations of [ops] on line [r], in the order of [ops]. *)
Definition ops_of_line (ops : list (Z * Z * string)) (r : Z) : list (Z * string) :=
  omap (λ '(r', c_index, code),
          if decide (r' = r) then Some (c_index, code) else None) ops.

(** The text a line becomes when the operations [ops] are applied to it
    the way [apply_coloring] does. *)
Definition colored_text (line : string) (ops : list (Z * string)) : string :=
  String.concat ""
    (foldl (λ ll '(c_index, code), py_insert ll c_index code) (chars line)
           (sorted fst Z_ge ops)).

(** The lines after the rows [rows] have been coloured, one after the
    other. *)
Definition lines_after (m : gmap Z (list (Z * string))) (rows : list Z)
    (content : list string) : list string :=
  foldl (λ content r,
           match py_index content r with
           | Some i => <[i := colored_text (default "" (content !! i))
                                           (default [] (m !! r))]> content
           | None => content
           end) content rows.

(** [l] with the texts of [ops] put in at their offsets, which are
    offsets into [l] and ascend from [pos]; [l] is what is left of the
    line from offset [pos] on. *)
Fixpoint splice_from {A : Type} (pos : nat) (l : list A) (ops : list (Z * A))
  : list A :=
  match ops with
  | [] => l
  | (c, x) :: ops' =>
      take (Z.to_nat c - pos) l
        ++ x :: splice_from (Z.to_nat c) (drop (Z.to_nat c - pos) l) ops'
  end.

(** The operations on line [i], lowest offset first; of two operations
    at one offset the later of [ops] comes first. *)
Definition ascending_ops (ops : list (Z * Z * string)) (i : nat)
  : list (Z * string) :=
  reverse (sorted fst Z_ge (ops_of_line ops (Z.of_nat i))).

Definition spliced (line : string) (ops : list (Z * string)) : string :=
  String.concat "" (splice_from 0 (chars line) ops).

(** The operations of [ops] for the grid [p], in the order of [ops]. *)
Definition ops_of_prefix (ops : list (Z * Z * string * string)) (p : string)
  : list (Z * Z * string) :=
  omap (λ '(r, c_index, code, prefix),
          if decide (prefix = p) then Some (r, c_index, code) else None) ops.

(** The three things [build_colored_grid_lines] relies on. *)
Definition prefixes_in_base (GRID_PREFIXES : list string)
    (base : gmap string loc) : Prop :=
  Forall (λ p, is_Some (base !! p)) GRID_PREFIXES.

Definition prefixes_known (GRID_PREFIXES : list string)
    (ops : list (Z * Z * string * string)) : Prop :=
  Forall (λ op, op.2 ∈ GRID_PREFIXES) ops.

Definition rows_valid (base : gmap string loc) (h : gmap loc (list string))
    (ops : list (Z * Z * string * string)) : Prop :=
  Forall (λ op, ∀ l, base !! op.2 = Some l →
                     is_Some (py_index (content_of h l) op.1.1.1)) ops.

(** Every list of [c] has as many lines as the base list of its
    prefix in [h0]. *)
Definition same_heights (base c : gmap string loc)
    (h0 h : gmap loc (list string)) : Prop :=
  ∀ p l', c !! p = Some l' →
    ∃ l, base !! p = Some l
         ∧ length (content_of h l') = length (content_of h0 l).

(** Every operation names a row, counted from 0, of the base list of
    its grid, and an offset of the line on that row. *)
Definition ops_fit (base : gmap string loc) (h : gmap loc (list string))
    (ops : list (Z * Z * string * string)) : Prop :=
  Forall (λ op, ∀ l, base !! op.2 = Some l →
            (0 ≤ op.1.1.1)%Z
            ∧ ∃ line, content_of h l !! Z.to_nat op.1.1.1 = Some line
                      ∧ (0 ≤ op.1.1.2 ≤ len line)%Z) ops.

(** The lines of the grid [p] with the codes of [ops] put in. *)
Definition spliced_lines (ops : list (Z * Z * string * string)) (p : string)
    (content : list string) : list string :=
  imap (λ i line, spliced line (ascending_ops (ops_of_prefix ops p) i)) content.

(** *** Charts *)

(** The grid of [prefix] as step 2 makes it: the padded lines and the
    coordinates. *)
Definition grid_of (GRID_DIMENSIONS : gmap string (Z * Z))
    (max_C max_R cell_width : Z) (prefix : string)
  : list string * gmap string (Z * Z) :=
  let '(C, R) := default (max_C, max_R) (GRID_DIMENSIONS !! prefix) in
  padded_grid prefix C R cell_width max_R.

(** [grid_lines] and [map_coords] hold, for each of their prefixes, the
    grid of the prefix. *)
Definition grids_made (GRID_DIMENSIONS : gmap string (Z * Z))
    (max_C max_R cell_width : Z)
    (grids : gmap string loc * gmap string (gmap string (Z * Z)))
    (h : gmap loc (list string)) : Prop :=
  dom grids.2 = dom grids.1
  ∧ ∀ p l, grids.1 !! p = Some l →
      h !! l = Some (grid_of GRID_DIMENSIONS max_C max_R cell_width p).1
      ∧ grids.2 !! p = Some (grid_of GRID_DIMENSIONS max_C max_R cell_width p).2.

(** No grid has more rows than [max_R]. *)
Definition rows_bounded (GRID_DIMENSIONS : gmap string (Z * Z)) (max_R : Z) : Prop :=
  ∀ p C R, GRID_DIMENSIONS !! p = Some (C, R) → (R ≤ max_R)%Z.

(** *** The table of external connections *)

(** The key [prepare_external_items] sorts by. *)
Definition table_key (color_map : list (string * string)) (x : string)
  : string * string :=
  (default NEUTRAL_BACKGROUND (dict_get color_map x), Re.upper x).

(** The items of the table: no grid definition, no [e2epins:]
    definition. *)
Definition table_item (x : string) : Prop :=
  is_grid_definition x = false ∧ is_e2e_pin_definition x = false.

(** *** Part 1 and part 3 *)

(** The pin [entry] has a coordinate in the grid of its first
    character. *)
Definition has_coords (map_coords : gmap string (gmap string (Z * Z)))
    (entry : string * string) : bool :=
  match map_coords !! Re.head entry.1 with
  | Some current_map => bool_decide (is_Some (current_map !! entry.1))
  | None => false
  end.

(** The state part 1 has after a group, as far as no exception is
    raised by the loop over its members. *)
Definition chart_state_after (GRID_PREFIXES : list string)
    (map_coords : gmap string (gmap string (Z * Z)))
    (state_pins_by_prefix : gmap string (gset string)) (cell_width : Z)
    (st : chart_state) (line_data : list string) : exn + chart_state :=
  if forallb is_grid_definition line_data && (0 <? length line_data)%nat then inr st
  else
    match fold_sum
            (chart_item GRID_PREFIXES map_coords state_pins_by_prefix cell_width
               (palette (color_index st)))
            line_data
            {| charts :=
                 {| color_index := S (color_index st);
                    pin_color_map_part2 := pin_color_map_part2 st;
                    consolidated_pin_ops_part2 := consolidated_pin_ops_part2 st;
                    external_color_map_part2 := external_color_map_part2 st;
                    all_unique_external_items_part2 :=
                      all_unique_external_items_part2 st |};
               non_pin_items := [];
               color_ops_by_prefix :=
                 list_to_map ((λ p, (p, [])) <$> GRID_PREFIXES) |}
    with
    | inl e => inl e
    | inr items => inr (charts items)
    end.

(** The state of part 1 and the maps of the colour assigner tell the
    same: the same external map and items, the pins that have a
    coordinate, and the operations of these pins. *)
Record charts_agree (map_coords : gmap string (gmap string (Z * Z)))
    (state_pins_by_prefix : gmap string (gset string)) (cell_width : Z)
    (st : chart_state) (maps : color_maps) : Prop := ChartsAgree {
  agree_external : external_color_map_part2 st = external_color_map maps;
  agree_items : all_unique_external_items_part2 st = all_unique_external_items maps;
  agree_pins : pin_color_map_part2 st
               = filter (has_coords map_coords) (pin_color_map maps);
  agree_ops : consolidated_pin_ops_part2 st
              = concat (pin_ops map_coords state_pins_by_prefix cell_width
                          <$> pin_color_map maps)
}.

(** Every operation collected for a grid names the row of a cell of
    that grid. *)
Definition ops_from_coords (map_coords : gmap string (gmap string (Z * Z)))
    (ops_by_prefix : gmap string (list (Z * Z * string))) : Prop :=
  ∀ p ops op, ops_by_prefix !! p = Some ops → op ∈ ops →
    ∃ current_map item c_end,
      map_coords !! p = Some current_map
      ∧ current_map !! item = Some (op.1.1, c_end).

(** The base lists are in the store, as step 2 made them. *)
Definition base_kept (GRID_DIMENSIONS : gmap string (Z * Z))
    (max_C max_R cell_width : Z) (grid_lines : gmap string loc)
    (h : gmap loc (list string)) : Prop :=
  ∀ p l, grid_lines !! p = Some l →
    h !! l = Some (grid_of GRID_DIMENSIONS max_C max_R cell_width p).1.

(** The lists of [c] are in the store and have [n] lines each. *)
Definition all_of_height (n : nat) (c : gmap string loc)
    (h : gmap loc (list string)) : Prop :=
  ∀ p l, c !! p = Some l → l ∈ dom h ∧ length (content_of h l) = n.

(** *** The colour maps by priority *)




(** No member that is not a pin is in two different groups.  The groups
    the program passes to [calculate_global_colors] come from
    [reduce_connection_groups] and share no member at all. *)
Definition non_pins_unshared (GRID_PREFIXES : list string)
    (groups : list (list string)) : Prop :=
  ∀ g g' x, g ∈ groups → g' ∈ groups → x ∈ g → x ∈ g' →
            is_pin GRID_PREFIXES x = false → g = g'.




(** * Properties *)

(** ** Facts about [sorted] *)
Section SortedFacts.

Context {A K : Type} (key : A -> K) (kle : K -> K -> bool).

Lemma insert_sorted_Permutation (x : A) (l : list A) :
  insert_sorted key kle x l ≡ₚ x :: l.
Proof.
  induction l as [|y l IH]; simpl; [done|].
  destruct (kle (key x) (key y)); [done|].
  rewrite IH. apply perm_swap.
Qed.

Lemma sorted_Permutation (l : list A) : sorted key kle l ≡ₚ l.
Proof.
  induction l as [|x l IH]; simpl; [done|].
  rewrite insert_sorted_Permutation. by f_equiv.
Qed.

Lemma elem_of_sorted (x : A) (l : list A) : x ∈ sorted key kle l ↔ x ∈ l.
Proof. by rewrite sorted_Permutation. Qed.

Lemma sorted_nil_inv (l : list A) : sorted key kle l = [] → l = [].
Proof.
  intros H. apply Permutation_nil. rewrite <- H.
  apply sorted_Permutation.
Qed.

Hypothesis kle_total : ∀ a b, kle a b = false → kle b a = true.

Lemma insert_sorted_HdRel (x a : A) (l : list A) :
  key_le key kle a x → HdRel (key_le key kle) a l →
  HdRel (key_le key kle) a (insert_sorted key kle x l).
Proof.
  intros Hax Hal. destruct l as [|y l]; simpl.
  - by constructor.
  - destruct (kle (key x) (key y)); constructor; [done|].
    by inversion Hal.
Qed.

Lemma insert_sorted_Sorted (x : A) (l : list A) :
  Sorted (key_le key kle) l → Sorted (key_le key kle) (insert_sorted key kle x l).
Proof.
  induction 1 as [|y l Hl IH Hy]; simpl.
  - repeat constructor.
  - destruct (kle (key x) (key y)) eqn:E.
    + constructor; [by constructor|]. by constructor.
    + constructor; [done|].
      apply insert_sorted_HdRel; [|done]. by apply kle_total.
Qed.

Lemma sorted_Sorted (l : list A) : Sorted (key_le key kle) (sorted key kle l).
Proof.
  induction l as [|x l IH]; simpl; [constructor|].
  by apply insert_sorted_Sorted.
Qed.

End SortedFacts.

Lemma str_le_total (a b : string) : str_le a b = false → str_le b a = true.
Proof.
  intros H. destruct (String.leb_total a b) as [H'|H']; [|done].
  unfold str_le in H. congruence.
Qed.

Lemma str_N_le_total (a b : string * N) :
  str_N_le a b = false → str_N_le b a = true.
Proof.
  unfold str_N_le. rewrite (String.eqb_sym b.1 a.1).
  destruct (String.eqb a.1 b.1).
  - rewrite !N.leb_gt, N.leb_le. lia.
  - apply str_le_total.
Qed.

(** ** Termination of the merge loops *)
Section Termination.

Lemma step_decreases (s : loop_state) :
  (∀ m, s ≠ Done m) → steps_bound (step s) < steps_bound s.
Proof.
  intros Hs. destruct s as [[|g w] m|cur w i m|m]; simpl.
  - lia.
  - rewrite Nat.sub_0_r. lia.
  - destruct (w !! i) as [g|] eqn:Hi.
    + apply lookup_lt_Some in Hi.
      destruct (overlaps cur g); simpl.
      * rewrite length_delete by eauto using lookup_lt_is_Some_2.
        destruct (length w) as [|n]; [lia|]. simpl. nia.
      * lia.
    + simpl. lia.
  - by destruct (Hs m).
Qed.

Lemma iter_step_Done (n : nat) (m : list (gset string)) :
  Nat.iter n step (Done m) = Done m.
Proof. induction n as [|n IH]; simpl; [done|]. by rewrite IH. Qed.

Lemma iter_step_terminates (n : nat) (s : loop_state) :
  steps_bound s ≤ n → ∃ m, Nat.iter n step s = Done m.
Proof.
  revert s. induction n as [|n IH]; intros s Hn.
  - destruct s as [w m|cur w i m|m]; simpl in *; [lia|lia|by exists m].
  - rewrite Nat.iter_succ_r.
    assert (Hcase : (∃ m, s = Done m) ∨ ∀ m, s ≠ Done m).
    { destruct s; [right; discriminate|right; discriminate|left; eauto]. }
    destruct Hcase as [[m ->]|Hnd].
    + exists m. apply (iter_step_Done n).
    + apply IH. pose proof (step_decreases s Hnd). lia.
Qed.

End Termination.

(** ** Facts about [pairwise] *)
Section PairwiseFacts.

Context {A : Type} (R : relation A).

Lemma pairwise_app (l1 l2 : list A) :
  pairwise R (l1 ++ l2)
  ↔ pairwise R l1 ∧ pairwise R l2 ∧ ∀ a b, a ∈ l1 → b ∈ l2 → R a b.
Proof.
  induction l1 as [|x l1 IH]; simpl.
  - split; [intros H; repeat split; [done|]|tauto].
    intros a b Ha. by apply elem_of_nil in Ha.
  - rewrite Forall_app, IH. rewrite !Forall_forall. split.
    + intros [[H1 H2] (H3 & H4 & H5)]. repeat split; try done.
      intros a b [->|Ha]%elem_of_cons Hb; eauto.
    + intros [[H1 H2] [H3 H4]]. repeat split; try done.
      * intros b Hb. apply H4; [left|done].
      * intros a b Ha Hb. apply H4; [by right|done].
Qed.

Context `{!Symmetric R}.

Lemma pairwise_Permutation (l l' : list A) :
  l ≡ₚ l' → pairwise R l → pairwise R l'.
Proof.
  induction 1 as [|x l l' Hp IH|x y l|l l' l'' _ IH1 _ IH2]; simpl.
  - done.
  - intros [H1 H2]. split; [by rewrite <- Hp|by apply IH].
  - intros [[Hyx Hy]%Forall_cons [Hx Hl]]. repeat split; try done.
    constructor; [by symmetry|done].
  - eauto.
Qed.

Lemma pairwise_elem_of (l : list A) (i j : nat) (a b : A) :
  pairwise R l → i ≠ j → l !! i = Some a → l !! j = Some b → R a b.
Proof.
  revert i j. induction l as [|x l IH]; intros i j Hl Hij Hi Hj; [done|].
  destruct Hl as [Hx Hl]. rewrite Forall_forall in Hx.
  destruct i as [|i], j as [|j]; simpl in *; simplify_eq.
  - apply Hx. by eapply list_elem_of_lookup_2.
  - symmetry. apply Hx. by eapply list_elem_of_lookup_2.
  - eapply (IH i j); eauto.
Qed.

End PairwiseFacts.

Lemma pairwise_fmap {A B : Type} (f : A → B) (R : relation B) (l : list A) :
  pairwise R (f <$> l) ↔ pairwise (λ a b, R (f a) (f b)) l.
Proof.
  induction l as [|x l IH]; simpl; [done|].
  by rewrite Forall_fmap, IH.
Qed.

Lemma pairwise_impl {A : Type} (R R' : relation A) (l : list A) :
  (∀ a b, a ∈ l → b ∈ l → R a b → R' a b) → pairwise R l → pairwise R' l.
Proof.
  induction l as [|x l IH]; simpl; [done|].
  intros HR [Hx Hl]. split.
  - rewrite Forall_forall in *. intros b Hb.
    apply HR; [left|by right|by apply Hx].
  - apply IH; [|done]. intros a b Ha Hb. apply HR; by right.
Qed.

(** ** The invariant of the merge loops *)
Section MergeInvariant.

Variable W0 : list (gset string).

Lemma overlaps_false (a b : gset string) : overlaps a b = false → a ## b.
Proof.
  unfold overlaps. intros H%bool_decide_eq_false.
  apply disjoint_intersection_L. by apply dec_stable.
Qed.

Lemma overlaps_true (a b : gset string) :
  overlaps a b = true → ∃ x, x ∈ a ∧ x ∈ b.
Proof.
  unfold overlaps. intros H%bool_decide_eq_true.
  apply set_choose_L in H as [x Hx]. exists x. set_solver.
Qed.

Lemma merge_inv_init : merge_inv W0 (Outer W0 []).
Proof.
  split; simpl; unfold pool; simpl.
  - intros g0 Hg0. by exists g0.
  - intros g Hg x Hx. apply elem_of_union_list. eauto.
  - done.
  - intros m g Hm. by apply elem_of_nil in Hm.
  - done.
Qed.

Lemma merge_inv_step (s : loop_state) : merge_inv W0 s → merge_inv W0 (step s).
Proof.
  intros [Hcov Hsnd Hmer Hset Hscan].
  destruct s as [[|g w] m|cur w i m|m]; simpl in *; unfold pool in *; simpl in *.
  - constructor; unfold pool; simpl.
    + intros g0 Hg0. destruct (Hcov g0 Hg0) as (g & Hg & Hsub).
      rewrite app_nil_r in Hg. rewrite app_nil_r. eauto.
    + intros g Hg. apply Hsnd. by rewrite app_nil_r in Hg |- *.
    + done.
    + intros m' g _ Hg. by apply elem_of_nil in Hg.
    + done.
  - constructor; unfold pool; simpl; [done..|].
    intros g' Hg'. by apply elem_of_nil in Hg'.
  - destruct (w !! i) as [g|] eqn:Hi.
    + pose proof (delete_Permutation w i g Hi) as Hperm.
      assert (Hgw : g ∈ w) by (by eapply list_elem_of_lookup_2).
      assert (Hdel : ∀ g', g' ∈ delete i w → g' ∈ w).
      { intros g' Hg'. rewrite Hperm. by right. }
      destruct (overlaps cur g) eqn:Hov.
      * constructor; unfold pool; simpl.
        -- intros g0 Hg0. destruct (Hcov g0 Hg0) as (g' & Hg' & Hsub).
           apply elem_of_app in Hg' as [Hg'|Hg'].
           { exists g'. split; [|done]. apply elem_of_app. by left. }
           apply elem_of_cons in Hg' as [->|Hg'].
           { exists (cur ∪ g). split; [|set_solver].
             apply elem_of_app. right. left. }
           rewrite Hperm in Hg'. apply elem_of_cons in Hg' as [->|Hg'].
           { exists (cur ∪ g). split; [|set_solver].
             apply elem_of_app. right. left. }
           exists g'. split; [|done]. apply elem_of_app. right. by right.
        -- intros g' Hg'. apply elem_of_app in Hg' as [Hg'|Hg'].
           { apply Hsnd. apply elem_of_app. by left. }
           apply elem_of_cons in Hg' as [->|Hg'].
           { apply union_subseteq. split; apply Hsnd; apply elem_of_app; right.
             - left.
             - by right. }
           apply Hsnd. apply elem_of_app. right. right. by apply Hdel.
        -- done.
        -- intros m' g' Hm' Hg'. apply elem_of_cons in Hg' as [->|Hg'].
           { apply disjoint_union_r. split; apply (Hset m'); try done.
             - left.
             - by right. }
           apply (Hset m'); [done|]. right. by apply Hdel.
        -- intros g' Hg'. by apply elem_of_nil in Hg'.
      * constructor; unfold pool; simpl; [done..|].
        intros g' Hg'. rewrite (take_S_r _ _ _ Hi) in Hg'.
        apply elem_of_app in Hg' as [Hg'|Hg']; [by apply Hscan|].
        apply list_elem_of_singleton in Hg' as ->. by apply overlaps_false.
    + apply lookup_ge_None in Hi.
      constructor; unfold pool; simpl.
      * intros g0 Hg0. destruct (Hcov g0 Hg0) as (g' & Hg' & Hsub).
        exists g'. split; [|done]. by rewrite <- app_assoc.
      * intros g' Hg'. apply Hsnd. by rewrite <- app_assoc in Hg'.
      * apply pairwise_app. repeat split; try done.
        intros a b Ha Hb. apply list_elem_of_singleton in Hb as ->.
        apply Hset; [done|left].
      * intros m' g' Hm' Hg'. apply elem_of_app in Hm' as [Hm'|Hm'].
        { apply Hset; [done|by right]. }
        apply list_elem_of_singleton in Hm' as ->.
        apply Hscan. by rewrite take_ge.
      * done.
  - by constructor.
Qed.

Lemma merge_inv_iter (n : nat) (s : loop_state) :
  merge_inv W0 s → merge_inv W0 (Nat.iter n step s).
Proof.
  intros Hs. induction n as [|n IH]; simpl; [done|]. by apply merge_inv_step.
Qed.

Lemma merge_groups_Done :
  Nat.iter (steps_bound (Outer W0 [])) step (Outer W0 []) = Done (merge_groups W0).
Proof.
  unfold merge_groups.
  destruct (iter_step_terminates _ (Outer W0 []) (le_n _)) as [m Hm].
  by rewrite Hm.
Qed.

Lemma merge_groups_inv : merge_inv W0 (Done (merge_groups W0)).
Proof. rewrite <- merge_groups_Done. apply merge_inv_iter, merge_inv_init. Qed.

Lemma merge_groups_disjoint : pairwise (##) (merge_groups W0).
Proof. apply (inv_merged _ _ merge_groups_inv). Qed.

Lemma merge_groups_cover (g0 : gset string) :
  g0 ∈ W0 → ∃ g, g ∈ merge_groups W0 ∧ g0 ⊆ g.
Proof.
  intros Hg0. destruct (inv_cover _ _ merge_groups_inv g0 Hg0) as (g & Hg & Hsub).
  unfold pool in Hg. simpl in Hg. rewrite app_nil_r in Hg. eauto.
Qed.

Lemma merge_groups_sound (g : gset string) (x : string) :
  g ∈ merge_groups W0 → x ∈ g → ∃ g0, g0 ∈ W0 ∧ x ∈ g0.
Proof.
  intros Hg Hx. apply elem_of_union_list.
  apply (inv_sound _ _ merge_groups_inv g); [|done].
  unfold pool. simpl. by rewrite app_nil_r.
Qed.

Lemma merge_nonempty_step (s : loop_state) :
  Forall (λ g, g ≠ ∅) (pool s) → Forall (λ g, g ≠ ∅) (pool (step s)).
Proof.
  rewrite !Forall_forall. intros Hne.
  destruct s as [[|g w] m|cur w i m|m]; simpl; unfold pool in *; simpl in *.
  - done.
  - done.
  - destruct (w !! i) as [g|] eqn:Hi.
    + destruct (overlaps cur g); [|done]. unfold pool; simpl.
      intros g' [Hg'|[->|Hg']%elem_of_cons]%elem_of_app.
      * apply Hne, elem_of_app. by left.
      * assert (cur ≠ ∅) by (apply Hne, elem_of_app; right; left). set_solver.
      * apply Hne, elem_of_app. right. right.
        rewrite (delete_Permutation w i g Hi). by right.
    + unfold pool; simpl. intros g' Hg'. apply Hne. by rewrite <- app_assoc in Hg'.
  - done.
Qed.

Lemma merge_groups_nonempty :
  Forall (λ g, g ≠ ∅) W0 → Forall (λ g, g ≠ ∅) (merge_groups W0).
Proof.
  intros HW.
  assert (H : ∀ n, Forall (λ g, g ≠ ∅) (pool (Nat.iter n step (Outer W0 [])))).
  { induction n as [|n IH]; [exact HW|]. simpl. by apply merge_nonempty_step. }
  specialize (H (steps_bound (Outer W0 []))). rewrite merge_groups_Done in H.
  unfold pool in H. simpl in H. by rewrite app_nil_r in H.
Qed.

End MergeInvariant.

(** Pairwise disjoint groups are left as they are by the merge loops. *)
Section DisjointInput.

Lemma iter_step_unique (W : list (gset string)) (k : nat) (m : list (gset string)) :
  Nat.iter k step (Outer W []) = Done m → merge_groups W = m.
Proof.
  intros Hk. pose proof (merge_groups_Done W) as Hb.
  set (b := steps_bound (Outer W [])) in *.
  assert (H1 : Nat.iter (k + b) step (Outer W []) = Done (merge_groups W)).
  { by rewrite Nat.iter_add, Hb, iter_step_Done. }
  assert (H2 : Nat.iter (b + k) step (Outer W []) = Done m).
  { by rewrite Nat.iter_add, Hk, iter_step_Done. }
  rewrite Nat.add_comm in H1. congruence.
Qed.

Lemma scan_disjoint (cur : gset string) (w m : list (gset string)) (d i : nat) :
  (∀ g, g ∈ w → cur ## g) → i + d = length w →
  Nat.iter (S d) step (Inner cur w i m) = Outer w (m ++ [cur]).
Proof.
  intros Hdisj. revert i. induction d as [|d IH]; intros i Hi.
  - simpl. rewrite lookup_ge_None_2; [done|lia].
  - rewrite Nat.iter_succ_r.
    destruct (lookup_lt_is_Some_2 w i) as [g Hg]; [lia|].
    assert (Hov : overlaps cur g = false).
    { unfold overlaps. apply bool_decide_eq_false. intros Hne. apply Hne.
      apply disjoint_intersection_L, Hdisj. by eapply list_elem_of_lookup_2. }
    replace (step (Inner cur w i m)) with (Inner cur w (S i) m)
      by (simpl; by rewrite Hg, Hov).
    apply IH. lia.
Qed.

Lemma run_disjoint (w m : list (gset string)) :
  pairwise (##) w → ∃ k, Nat.iter k step (Outer w m) = Done (m ++ w).
Proof.
  revert m. induction w as [|g w IH]; intros m Hw.
  - exists 1. simpl. by rewrite app_nil_r.
  - destruct Hw as [Hg Hw]. rewrite Forall_forall in Hg.
    destruct (IH (m ++ [g]) Hw) as [k Hk].
    exists (k + (S (length w) + 1)).
    rewrite Nat.iter_add, Nat.iter_add. simpl Nat.iter at 3.
    rewrite (scan_disjoint g w m (length w) 0) by (done || lia).
    by rewrite Hk, <- app_assoc.
Qed.

Lemma merge_groups_disjoint_id (W : list (gset string)) :
  pairwise (##) W → merge_groups W = W.
Proof.
  intros HW. destruct (run_disjoint W [] HW) as [k Hk].
  by apply (iter_step_unique W k).
Qed.

End DisjointInput.

(** ** Canonical member order and the final list *)
Section ReducerFacts.

Variable GRID_PREFIXES : list string.
Variable E2E_PINS : list string.

Lemma elem_of_canonical (s : gset string) (x : string) :
  x ∈ canonical GRID_PREFIXES s ↔ x ∈ s ∧ retained GRID_PREFIXES x = true.
Proof.
  unfold canonical, retained.
  rewrite elem_of_app, !elem_of_sorted, !list_elem_of_filter, !elem_of_elements.
  destruct (is_pin GRID_PREFIXES x) eqn:Hp; simpl.
  - unfold is_listed_external. rewrite Hp. simpl.
    split; [intros [[[] _]|[_ Hx]]|intros [Hx _]]; auto.
  - destruct (is_listed_external GRID_PREFIXES x); simpl.
    + split; [intros [[_ Hx]|[[] _]]|intros [Hx _]]; auto.
    + split; [intros [[[] _]|[[] _]]|intros [_ Hx]]; done.
Qed.

Lemma NoDup_canonical (s : gset string) : NoDup (canonical GRID_PREFIXES s).
Proof.
  unfold canonical. apply NoDup_app. repeat split.
  - rewrite sorted_Permutation. apply NoDup_filter, NoDup_elements.
  - intros x. rewrite !elem_of_sorted, !list_elem_of_filter.
    unfold is_listed_external. intros [H1 _] [H2 _].
    destruct (is_pin GRID_PREFIXES x); simpl in *; done.
  - rewrite sorted_Permutation. apply NoDup_filter, NoDup_elements.
Qed.

Lemma canonical_canonical_order (s : gset string) :
  canonical_order GRID_PREFIXES (canonical GRID_PREFIXES s).
Proof.
  eexists _, _. split; [reflexivity|]. repeat split.
  - apply Forall_forall. intros x.
    rewrite elem_of_sorted, list_elem_of_filter. unfold is_listed_external.
    intros [H _]. destruct (is_pin GRID_PREFIXES x); simpl in *; done.
  - apply sorted_Sorted, str_le_total.
  - apply Forall_forall. intros x.
    rewrite elem_of_sorted, list_elem_of_filter.
    intros [H _]. by destruct (is_pin GRID_PREFIXES x).
  - apply sorted_Sorted, str_N_le_total.
Qed.

Lemma merge_groups_nil : merge_groups [] = [].
Proof. reflexivity. Qed.

Lemma reduce_Permutation (initial_groups : list (list string)) :
  reduce_connection_groups GRID_PREFIXES E2E_PINS initial_groups
  ≡ₚ canonical GRID_PREFIXES <$> reduced_sets initial_groups.
Proof.
  unfold reduce_connection_groups, reduced_sets.
  destruct initial_groups as [|g gs]; [done|].
  apply sorted_Permutation.
Qed.

Lemma elem_of_working_groups (gs : list (list string)) (s : gset string) :
  s ∈ working_groups gs ↔ ∃ g, g ∈ gs ∧ g ≠ [] ∧ s = list_to_set g.
Proof.
  unfold working_groups. rewrite list_elem_of_fmap.
  setoid_rewrite list_elem_of_filter.
  split; [intros (g & -> & Hne & Hg)|intros (g & Hg & Hne & ->)]; eauto.
Qed.

Lemma reduced_sets_cover (gs : list (list string)) (g : list string) :
  g ∈ gs → g ≠ [] →
  ∃ s, s ∈ reduced_sets gs ∧ ∀ x, x ∈ g → x ∈ s.
Proof.
  intros Hg Hne.
  destruct (merge_groups_cover (working_groups gs) (list_to_set g)) as (s & Hs & Hsub).
  { apply elem_of_working_groups. eauto. }
  exists s. split; [done|]. intros x Hx. apply Hsub. by apply elem_of_list_to_set.
Qed.

Lemma reduced_sets_sound (gs : list (list string)) (s : gset string) (x : string) :
  s ∈ reduced_sets gs → x ∈ s → appears_in gs x.
Proof.
  intros Hs Hx.
  destruct (merge_groups_sound _ _ _ Hs Hx) as (s0 & Hs0 & Hx0).
  apply elem_of_working_groups in Hs0 as (g & Hg & _ & ->).
  exists g. split; [done|]. by apply elem_of_list_to_set in Hx0.
Qed.

Lemma reduced_sets_same (gs : list (list string)) (a b : gset string) (x : string) :
  a ∈ reduced_sets gs → b ∈ reduced_sets gs → x ∈ a → x ∈ b → a = b.
Proof.
  intros [i Hi]%list_elem_of_lookup_1 [j Hj]%list_elem_of_lookup_1 Ha Hb.
  destruct (decide (i = j)) as [->|Hij]; [congruence|].
  pose proof (pairwise_elem_of (##) _ i j a b
                (merge_groups_disjoint (working_groups gs)) Hij Hi Hj) as Hd.
  by destruct (proj1 (elem_of_disjoint a b) Hd x).
Qed.

#[local] Instance lists_disjoint_sym : Symmetric lists_disjoint.
Proof. intros a b H x Hb Ha. by apply (H x). Qed.

Lemma reduce_pairwise (gs : list (list string)) :
  pairwise lists_disjoint (reduce_connection_groups GRID_PREFIXES E2E_PINS gs).
Proof.
  eapply (pairwise_Permutation lists_disjoint); [symmetry; apply reduce_Permutation|].
  apply pairwise_fmap.
  eapply pairwise_impl; [|apply merge_groups_disjoint].
  intros a b _ _ Hab x [Ha _]%elem_of_canonical [Hb _]%elem_of_canonical.
  set_solver.
Qed.

Lemma reduce_groups_disjoint (gs : list (list string)) :
  groups_disjoint (reduce_connection_groups GRID_PREFIXES E2E_PINS gs).
Proof.
  intros i j a b Hij Hi Hj.
  apply (pairwise_elem_of lists_disjoint _ i j a b (reduce_pairwise gs) Hij Hi Hj).
Qed.

Lemma elem_of_reduce (gs : list (list string)) (g : list string) :
  g ∈ reduce_connection_groups GRID_PREFIXES E2E_PINS gs
  ↔ ∃ s, s ∈ reduced_sets gs ∧ g = canonical GRID_PREFIXES s.
Proof.
  rewrite reduce_Permutation, list_elem_of_fmap.
  split; intros (s & H1 & H2); eauto.
Qed.

Lemma appears_in_reduce (gs : list (list string)) (x : string) :
  appears_in (reduce_connection_groups GRID_PREFIXES E2E_PINS gs) x
  ↔ appears_in gs x ∧ retained GRID_PREFIXES x = true.
Proof.
  split.
  - intros (g & (s & Hs & ->)%elem_of_reduce & [Hx Hr]%elem_of_canonical).
    split; [|done]. by eapply reduced_sets_sound.
  - intros [(g & Hg & Hx) Hr].
    destruct (reduced_sets_cover gs g Hg) as (s & Hs & Hsub).
    { intros ->. by apply elem_of_nil in Hx. }
    exists (canonical GRID_PREFIXES s). split.
    + apply elem_of_reduce. eauto.
    + apply elem_of_canonical. eauto.
Qed.

End ReducerFacts.

(** ** The group reducer: partition, transitivity, order, idempotence *)
Section ReducerTheorems.

Variable GRID_PREFIXES : list string.
Variable E2E_PINS : list string.

Local Abbreviation reduce := (reduce_connection_groups GRID_PREFIXES E2E_PINS).

(** C1 (amended).  For every input list of groups, the output of
    [reduce_connection_groups] is a partition of the input elements it
    retains, that is of the pins and of the other tokens that are
    formatted neither as a grid definition nor as an [e2epins:]
    definition: each of them is in exactly one output group, no two
    output groups share an element, and the output groups together hold
    exactly these elements. *)
Theorem reduce_partitions_retained (initial_groups : list (list string)) :
  partitions (λ x, appears_in initial_groups x ∧ retained GRID_PREFIXES x = true)
             (reduce initial_groups).
Proof.
  assert (Hdisj := reduce_groups_disjoint GRID_PREFIXES E2E_PINS initial_groups).
  assert (Happ := appears_in_reduce GRID_PREFIXES E2E_PINS initial_groups).
  split; [|split; [done|apply Happ]].
  intros x Hx. apply Happ in Hx as (g & [i Hi]%list_elem_of_lookup_1 & Hxg).
  exists i, g. repeat split; [done..|].
  intros j g' Hj Hxg'. destruct (decide (j = i)) as [|Hne]; [done|].
  by destruct (Hdisj j i g' g Hne Hj Hi x).
Qed.

(** Within an output group no member is listed twice. *)
Lemma reduce_NoDup (initial_groups : list (list string)) :
  Forall NoDup (reduce initial_groups).
Proof.
  apply Forall_forall. intros g (s & _ & ->)%elem_of_reduce.
  apply NoDup_canonical.
Qed.

(** C2 (amended).  If [g1] shares an element with [g2] and [g2] shares
    one with [g3], then one single output group holds every retained
    element of the three groups, whether or not [g1] and [g3] share
    anything. *)
Theorem reduce_transitive (initial_groups : list (list string))
    (g1 g2 g3 : list string) :
  g1 ∈ initial_groups → g2 ∈ initial_groups → g3 ∈ initial_groups →
  shares g1 g2 → shares g2 g3 →
  ∃ r, r ∈ reduce initial_groups
       ∧ ∀ x, x ∈ g1 ∨ x ∈ g2 ∨ x ∈ g3 → retained GRID_PREFIXES x = true → x ∈ r.
Proof.
  intros H1 H2 H3 (a & Ha1 & Ha2) (b & Hb2 & Hb3).
  destruct (reduced_sets_cover initial_groups g1 H1) as (s1 & Hs1 & Hsub1).
  { intros ->. by apply elem_of_nil in Ha1. }
  destruct (reduced_sets_cover initial_groups g2 H2) as (s2 & Hs2 & Hsub2).
  { intros ->. by apply elem_of_nil in Ha2. }
  destruct (reduced_sets_cover initial_groups g3 H3) as (s3 & Hs3 & Hsub3).
  { intros ->. by apply elem_of_nil in Hb3. }
  assert (s1 = s2) as <- by (apply (reduced_sets_same initial_groups _ _ a); auto).
  assert (s1 = s3) as <- by (apply (reduced_sets_same initial_groups _ _ b); auto).
  exists (canonical GRID_PREFIXES s1). split.
  - apply elem_of_reduce. eauto.
  - intros x Hx Hr. apply elem_of_canonical. split; [|done].
    destruct Hx as [Hx|[Hx|Hx]]; auto.
Qed.

(** C6.  Every group returned by [reduce_connection_groups] lists its
    non-pin members first, in the order of their upper-cased names, and
    then its pins, ordered by prefix letter and then by number. *)
Theorem reduce_canonical_order (initial_groups : list (list string)) :
  Forall (canonical_order GRID_PREFIXES) (reduce initial_groups).
Proof.
  apply Forall_forall. intros g (s & _ & ->)%elem_of_reduce.
  apply canonical_canonical_order.
Qed.

Lemma pairwise_filter {A : Type} (R : relation A) (P : A → Prop)
    `{!∀ x, Decision (P x)} (l : list A) :
  pairwise R l → pairwise R (filter P l).
Proof.
  induction l as [|x l IH]; [done|]. intros [Hx Hl].
  rewrite filter_cons. destruct (decide (P x)); simpl; [|by apply IH].
  split; [|by apply IH].
  rewrite Forall_forall in *. intros y [_ Hy]%list_elem_of_filter. by apply Hx.
Qed.

Lemma list_to_set_canonical_retained (g : list string) :
  (∀ x, x ∈ g → retained GRID_PREFIXES x = true) →
  list_to_set (canonical GRID_PREFIXES (list_to_set g)) =@{gset string} list_to_set g.
Proof.
  intros Hg. apply set_eq. intros x.
  rewrite elem_of_list_to_set, elem_of_canonical, elem_of_list_to_set.
  split; [by intros [? _]|]. intros Hx. split; [done|by apply Hg].
Qed.

Lemma fmap_canonical_retained (l : list (list string)) :
  (∀ g, g ∈ l → ∀ x, x ∈ g → retained GRID_PREFIXES x = true) →
  list_to_set <$> (canonical GRID_PREFIXES <$> (list_to_set <$> l))
  =@{list (gset string)} list_to_set <$> l.
Proof.
  induction l as [|g l IH]; intros Hl; [done|]. simpl. f_equal.
  - apply list_to_set_canonical_retained, Hl. left.
  - apply IH. intros g' Hg'. apply Hl. by right.
Qed.

(** C7 (amended).  Reducing the output of a reduction returns the same
    groups with the same members, up to the order of groups and of
    members, except that the second pass discards an empty group, which
    the first pass emits when every member of a merged group was a
    dropped definition token. *)
Theorem reduce_idempotent_nonempty (initial_groups : list (list string)) :
  same_partition (reduce (reduce initial_groups))
                 (filter (λ g, g ≠ []) (reduce initial_groups)).
Proof.
  unfold same_partition.
  set (out := reduce initial_groups).
  rewrite (reduce_Permutation GRID_PREFIXES E2E_PINS out).
  unfold reduced_sets.
  assert (Hpw : pairwise (##) (working_groups out)).
  { unfold working_groups. apply pairwise_fmap, pairwise_filter.
    eapply pairwise_impl; [|apply (reduce_pairwise GRID_PREFIXES E2E_PINS)].
    intros a b _ _ Hab. apply elem_of_disjoint. intros x Ha Hb.
    apply elem_of_list_to_set in Ha, Hb. by apply (Hab x). }
  rewrite (merge_groups_disjoint_id _ Hpw). unfold working_groups.
  rewrite fmap_canonical_retained; [done|].
  intros g [_ Hg]%list_elem_of_filter x Hx.
  apply elem_of_reduce in Hg as (s & _ & ->).
  by apply elem_of_canonical in Hx as [_ ?].
Qed.

(** When the first pass emits no empty group, the second pass returns
    the same partition. *)
Corollary reduce_idempotent (initial_groups : list (list string)) :
  [] ∉ reduce initial_groups →
  same_partition (reduce (reduce initial_groups)) (reduce initial_groups).
Proof.
  intros Hne. pose proof (reduce_idempotent_nonempty initial_groups) as H.
  replace (filter (λ g, g ≠ []) (reduce initial_groups))
    with (reduce initial_groups) in H; [done|].
  clear H. induction (reduce initial_groups) as [|g l IH]; [done|].
  rewrite filter_cons. apply not_elem_of_cons in Hne as [Hg Hl].
  destruct (decide (g ≠ [])) as [_|Hg']; [by rewrite <- IH|].
  destruct Hg'. by intros ->.
Qed.

(** *** On well-formed input

    The loader removes grid and [e2epins:] definitions before it hands
    the groups over; on such input nothing is dropped and the three
    properties hold without the restriction to retained elements. *)

Lemma reduce_no_empty_group (initial_groups : list (list string)) :
  well_formed_input GRID_PREFIXES initial_groups → [] ∉ reduce initial_groups.
Proof.
  intros Hwf (s & Hs & Hnil)%elem_of_reduce.
  assert (Hne : s ≠ ∅).
  { assert (H : Forall (λ g : gset string, g ≠ ∅) (reduced_sets initial_groups)).
    { apply merge_groups_nonempty, Forall_forall.
      intros s' (g & _ & Hg & ->)%elem_of_working_groups.
      destruct g as [|x g]; [done|]. set_solver. }
    rewrite Forall_forall in H. by apply H. }
  apply set_choose_L in Hne as [x Hx].
  destruct (reduced_sets_sound initial_groups s x Hs Hx) as (g & Hg & Hxg).
  assert (Hin : x ∈ canonical GRID_PREFIXES s).
  { apply elem_of_canonical. split; [done|]. by apply (Hwf g). }
  rewrite <- Hnil in Hin. by apply elem_of_nil in Hin.
Qed.

Corollary reduce_partitions_well_formed (initial_groups : list (list string)) :
  well_formed_input GRID_PREFIXES initial_groups →
  partitions (appears_in initial_groups) (reduce initial_groups).
Proof.
  intros Hwf.
  destruct (reduce_partitions_retained initial_groups) as (Hone & Hdisj & Hall).
  assert (Hret : ∀ x, appears_in initial_groups x → retained GRID_PREFIXES x = true).
  { intros x (g & Hg & Hx). by apply (Hwf g). }
  split; [|split; [done|]].
  - intros x Hx. apply Hone. auto.
  - intros x. rewrite Hall. split; [by intros [? _]|auto].
Qed.

Corollary reduce_transitive_well_formed (initial_groups : list (list string))
    (g1 g2 g3 : list string) :
  well_formed_input GRID_PREFIXES initial_groups →
  g1 ∈ initial_groups → g2 ∈ initial_groups → g3 ∈ initial_groups →
  shares g1 g2 → shares g2 g3 →
  ∃ r, r ∈ reduce initial_groups ∧ ∀ x, x ∈ g1 ∨ x ∈ g2 ∨ x ∈ g3 → x ∈ r.
Proof.
  intros Hwf H1 H2 H3 H12 H23.
  destruct (reduce_transitive initial_groups g1 g2 g3 H1 H2 H3 H12 H23)
    as (r & Hr & Hall).
  exists r. split; [done|]. intros x Hx. apply Hall; [done|].
  destruct Hx as [Hx|[Hx|Hx]]; eauto.
Qed.

Corollary reduce_idempotent_well_formed (initial_groups : list (list string)) :
  well_formed_input GRID_PREFIXES initial_groups →
  same_partition (reduce (reduce initial_groups)) (reduce initial_groups).
Proof. intros Hwf. by apply reduce_idempotent, reduce_no_empty_group. Qed.

(** C10.  The merge loops end on every input: started on the sets of
    the non-empty input groups they reach the exit of the outer loop
    within [(n+1)²] loop heads, [n] the number of these sets, and the
    function returns the groups collected there; every visit of a loop
    head lowers the bound; and the scan index goes back to [0] only in
    a step that merges [working_groups[i]] into the accumulator and
    removes it, leaving one unprocessed group less. *)
Theorem reduce_terminates (initial_groups : list (list string)) :
  let s0 := Outer (working_groups initial_groups) [] in
  (∃ merged,
      (∀ n, steps_bound s0 ≤ n → Nat.iter n step s0 = Done merged)
      ∧ reduce initial_groups
        = sorted (sort_key GRID_PREFIXES E2E_PINS) nat_str_le
                 (canonical GRID_PREFIXES <$> merged))
  ∧ (∀ s, (∀ m, s ≠ Done m) → steps_bound (step s) < steps_bound s)
  ∧ (∀ cur w i m cur' w' m',
       step (Inner cur w i m) = Inner cur' w' 0 m' →
       ∃ g, w !! i = Some g ∧ overlaps cur g = true
            ∧ cur' = cur ∪ g ∧ w' = delete i w ∧ S (length w') = length w).
Proof.
  intros s0. split; [|split].
  - exists (merge_groups (working_groups initial_groups)). split.
    + intros n Hn. destruct (iter_step_terminates n s0 Hn) as [m Hm].
      rewrite Hm. f_equal. symmetry. by apply (iter_step_unique _ n).
    + by destruct initial_groups.
  - apply step_decreases.
  - intros cur w i m cur' w' m'. simpl.
    destruct (w !! i) as [g|] eqn:Hi; [|done].
    destruct (overlaps cur g) eqn:Hov; [|done].
    intros [= Hcur Hw Hm]. exists g. repeat split; [done..|].
    rewrite <- Hw, length_delete by eauto. apply lookup_lt_Some in Hi. lia.
Qed.

End ReducerTheorems.

(** *** The reducer on concrete inputs *)

(** Refutes a decidable closed proposition by evaluating its decision. *)
Ltac refute_by_compute :=
  lazymatch goal with
  | |- ?P → False => apply (bool_decide_eq_false_1 P); vm_compute; reflexivity
  end.

Example reduce_scenario_1 :
  reduce_connection_groups ["A"] ["G"] [["A1"; "P1+"]; ["P1+"; "G"]]
  = [["G"; "P1+"; "A1"]].
Proof. vm_compute. reflexivity. Qed.

Example reduce_scenario_3 :
  reduce_connection_groups [] ["G"; "T"] [["B1"; "B2"]; ["B2"; "B3"]; ["B4"]]
  = [["B1"; "B2"; "B3"]; ["B4"]].
Proof. vm_compute. reflexivity. Qed.

Example reduce_scenario_4 : reduce_connection_groups [] ["G"; "T"] [] = [].
Proof. reflexivity. Qed.

(** A merge that a single pass without restart would miss: [A9] is
    passed over before [A4; A9; x] is absorbed. *)
Example reduce_multi_hop :
  reduce_connection_groups [] []
    [["A1"; "A2"]; ["A9"]; ["A3"; "A4"]; ["A2"; "A3"]; ["A4"; "A9"; "x"]]
  = [["x"; "A1"; "A2"; "A3"; "A4"; "A9"]].
Proof. vm_compute. reflexivity. Qed.

(** Pins are ordered by number, not by text. *)
Example reduce_pin_order :
  reduce_connection_groups [] [] [["A10"; "b"; "A9"; "B2"; "a"; "A2"]]
  = [["a"; "b"; "A2"; "A9"; "A10"; "B2"]].
Proof. vm_compute. reflexivity. Qed.

Example reduce_drops_grid_definition :
  reduce_connection_groups ["A"] ["G"; "T"] [["A:3x4"; "A1"]] = [["A1"]].
Proof. vm_compute. reflexivity. Qed.

Example reduce_chain_with_definition :
  reduce_connection_groups ["A"] ["G"; "T"]
    [["A:3x4"; "A1"]; ["A1"; "A2"]; ["A2"; "A3"]]
  = [["A1"; "A2"; "A3"]].
Proof. vm_compute. reflexivity. Qed.

Example reduce_only_definition :
  reduce_connection_groups ["A"] ["G"; "T"] [["A:3x4"]] = [[]]
  ∧ reduce_connection_groups ["A"] ["G"; "T"] [[]] = [].
Proof. vm_compute. done. Qed.

(** Counterexample to C1 as stated: the token [A:3x4] is an element of
    an input group and of no output group. *)
Lemma reduce_partition_counterexample :
  ¬ partitions (appears_in [["A:3x4"; "A1"]])
               (reduce_connection_groups ["A"] ["G"; "T"] [["A:3x4"; "A1"]]).
Proof.
  intros [Hone _]. rewrite reduce_drops_grid_definition in Hone.
  destruct (Hone "A:3x4") as (i & g & Hi & Hx & _).
  { exists ["A:3x4"; "A1"]. split; repeat constructor. }
  destruct i as [|i]; [|done]. injection Hi as <-.
  revert Hx. refute_by_compute.
Qed.

(** Counterexample to C2 as stated: the three groups are chained by
    [A1] and [A2], yet [A:3x4], an element of the first, is in no output
    group. *)
Lemma reduce_transitive_counterexample :
  ¬ chains_merged (λ _, True)
      [["A:3x4"; "A1"]; ["A1"; "A2"]; ["A2"; "A3"]]
      (reduce_connection_groups ["A"] ["G"; "T"]
         [["A:3x4"; "A1"]; ["A1"; "A2"]; ["A2"; "A3"]]).
Proof.
  intros H. rewrite reduce_chain_with_definition in H.
  destruct (H ["A:3x4"; "A1"] ["A1"; "A2"] ["A2"; "A3"]) as (r & Hr & Hall).
  - repeat constructor.
  - repeat constructor.
  - repeat constructor.
  - exists "A1". split; repeat constructor.
  - exists "A2". split; repeat constructor.
  - apply list_elem_of_singleton in Hr as ->.
    specialize (Hall "A:3x4" (or_introl (list_elem_of_here _ _)) I).
    revert Hall. refute_by_compute.
Qed.

Lemma reduce_transitive_witness :
  ∃ r, r ∈ reduce_connection_groups ["B"] ["G"; "T"]
             [["B1"; "B2"]; ["B2"; "B3"]; ["B3"; "B4"]]
       ∧ ∀ x, x ∈ ["B1"; "B2"] ∨ x ∈ ["B2"; "B3"] ∨ x ∈ ["B3"; "B4"] →
              retained ["B"] x = true → x ∈ r.
Proof.
  apply (reduce_transitive ["B"] ["G"; "T"]
           [["B1"; "B2"]; ["B2"; "B3"]; ["B3"; "B4"]]
           ["B1"; "B2"] ["B2"; "B3"] ["B3"; "B4"]).
  - apply list_elem_of_here.
  - apply list_elem_of_further, list_elem_of_here.
  - apply list_elem_of_further, list_elem_of_further, list_elem_of_here.
  - exists "B2". split; [apply list_elem_of_further|]; apply list_elem_of_here.
  - exists "B3". split; [apply list_elem_of_further|]; apply list_elem_of_here.
Defined.

(** Counterexample to C7 as stated: the first pass turns the group
    [A:3x4] into an empty group, and the second pass drops it. *)
Lemma reduce_idempotent_counterexample :
  ¬ same_partition
      (reduce_connection_groups ["A"] ["G"; "T"]
         (reduce_connection_groups ["A"] ["G"; "T"] [["A:3x4"]]))
      (reduce_connection_groups ["A"] ["G"; "T"] [["A:3x4"]]).
Proof.
  destruct reduce_only_definition as [-> ->]. unfold same_partition. simpl.
  intros H%Permutation_length. discriminate.
Qed.

(** ** The grid coordinate mapper *)
Section GridFacts.

Local Open Scope Z_scope.

Lemma len_append (s t : string) : len (s +:+ t) = len s + len t.
Proof.
  unfold len. induction s as [|c s IH]; simpl String.length; [done|].
  rewrite !Nat2Z.inj_succ. lia.
Qed.

Lemma len_nonneg (s : string) : 0 ≤ len s.
Proof. unfold len. lia. Qed.

Lemma coord_insert_fresh (m : gmap string (Z * Z)) (name : string) (line col : Z) :
  coord_injective m → coords_before line col m →
  coord_injective (<[name := (line, col)]> m).
Proof.
  intros Hinj Hbefore k1 k2 v.
  destruct (decide (name = k1)) as [<-|H1], (decide (name = k2)) as [<-|H2];
    rewrite ?lookup_insert_eq, ?lookup_insert_ne by done.
  - done.
  - intros [= <-] H. apply Hbefore in H. lia.
  - intros H [= <-]. apply Hbefore in H. lia.
  - apply Hinj.
Qed.

(** The cells of one grid line: the map stays injective and every
    coordinate stays before the closing border of the next cell. *)
Lemma cell_step_inv (prefix : string) (cell_width line : Z) (st : row_state) :
  coord_injective (coord_map st) →
  coords_before line (len (row_str st) + cell_width) (coord_map st) →
  let st' := cell_step prefix cell_width line st in
  coord_injective (coord_map st')
  ∧ coords_before line (len (row_str st') + cell_width) (coord_map st').
Proof.
  intros Hinj Hbefore. simpl. split.
  - by apply coord_insert_fresh.
  - unfold coords_before. rewrite !len_append.
    pose proof (len_nonneg (center (prefix +:+ str_of_nat (dot_number st)) cell_width)).
    change (len "|") with 1.
    intros k l c. unfold coords_before in Hbefore.
    destruct (decide (prefix +:+ str_of_nat (dot_number st) = k)) as [<-|Hk].
    + rewrite lookup_insert_eq. intros [= <- <-]. lia.
    + rewrite lookup_insert_ne by done. intros H'. apply Hbefore in H'. lia.
Qed.

Lemma cells_inv (prefix : string) (cell_width line : Z) (n : nat) (st : row_state) :
  coord_injective (coord_map st) →
  coords_before line (len (row_str st) + cell_width) (coord_map st) →
  let st' := Nat.iter n (cell_step prefix cell_width line) st in
  coord_injective (coord_map st')
  ∧ coords_before line (len (row_str st') + cell_width) (coord_map st').
Proof.
  intros Hinj Hbefore. induction n as [|n [IH1 IH2]]; simpl; [done|].
  by apply cell_step_inv.
Qed.

Lemma row_step_inv (prefix : string) (C R cell_width : Z) (border : string)
    (st : grid_state) (i : nat) :
  coord_injective (grid_coords st) →
  lines_before (2 * Z.of_nat i + 1) (grid_coords st) →
  let st' := row_step prefix C R cell_width border st i in
  coord_injective (grid_coords st')
  ∧ lines_before (2 * Z.of_nat (S i) + 1) (grid_coords st').
Proof.
  intros Hinj Hbefore. unfold row_step. cbv zeta.
  match goal with
  | |- context [Nat.iter ?n ?f ?st0] =>
      destruct (cells_inv prefix cell_width (2 * Z.of_nat i + 1) n st0) as [H1 H2]
  end.
  - done.
  - intros k l c Hk. apply Hbefore in Hk. lia.
  - simpl. split; [done|].
    intros k l c Hk. apply H2 in Hk. lia.
Qed.

Lemma rows_inv (prefix : string) (C R cell_width : Z) (border : string)
    (st : grid_state) (n : nat) :
  coord_injective (grid_coords st) →
  lines_before 1 (grid_coords st) →
  let st' := foldl (row_step prefix C R cell_width border) st (seq 0 n) in
  coord_injective (grid_coords st')
  ∧ lines_before (2 * Z.of_nat n + 1) (grid_coords st').
Proof.
  intros Hinj Hbefore. cbv zeta. induction n as [|n [IH1 IH2]]; [done|].
  rewrite seq_S, foldl_app. cbn [foldl Nat.add].
  apply (row_step_inv prefix C R cell_width border _ n IH1 IH2).
Qed.

(** C8.  For every prefix, column count, row count and cell width (the
    positive ones in particular), the coordinate map returned by
    [generate_ascii_grid] sends distinct pin identifiers to distinct
    (line, column) coordinates. *)
Theorem generate_ascii_grid_injective (prefix : string) (C R cell_width : Z) :
  coord_injective (generate_ascii_grid prefix C R cell_width).2.
Proof.
  unfold generate_ascii_grid. cbv zeta. simpl snd.
  apply rows_inv; simpl.
  - intros k1 k2 v H. by rewrite lookup_empty in H.
  - intros k l c H. by rewrite lookup_empty in H.
Qed.

End GridFacts.

(** ** The chart renderer *)
Section RendererFacts.

Local Open Scope Z_scope.

Lemma sorted_two_desc (a b : Z * string) :
  a.1 ≠ b.1 → sorted fst Z_ge [a; b] = sorted fst Z_ge [b; a].
Proof.
  intros Hne. simpl. unfold Z_ge.
  destruct (Z.leb_spec b.1 a.1), (Z.leb_spec a.1 b.1); (done || lia).
Qed.

Lemma group_by_line_same_row (r c1 c2 : Z) (code1 code2 : string) :
  group_by_line [(r, c1, code1); (r, c2, code2)]
  = {[ r := [(c1, code1); (c2, code2)] ]}.
Proof.
  unfold group_by_line. simpl.
  rewrite lookup_empty, lookup_insert_eq. simpl.
  by rewrite insert_insert_eq, insert_empty.
Qed.

Example apply_coloring_two_markers :
  (apply_coloring 0%nat [(1, 1, "["); (1, 3, "]")] {[ 0%nat := ["+--+"; "|ab|"] ]}).2
  !! 0%nat = Some ["+--+"; "|[ab]|"].
Proof. vm_compute. reflexivity. Qed.

(** Why the higher column goes first: the two markers end at the
    offsets they were given, measured on the line before any insertion. *)
Lemma py_insert_descending {A : Type} (l : list A) (c1 c2 : Z) (x y : A) :
  0 ≤ c2 → c2 < c1 → c1 ≤ Z.of_nat (length l) →
  py_insert (py_insert l c1 x) c2 y
  = take (Z.to_nat c2) l ++ y :: drop (Z.to_nat c2) (take (Z.to_nat c1) l)
    ++ x :: drop (Z.to_nat c1) l.
Proof.
  intros H2 H12 H1.
  assert (E1 : py_insert l c1 x = take (Z.to_nat c1) l ++ x :: drop (Z.to_nat c1) l).
  { unfold py_insert.
    destruct (Z.ltb_spec c1 0); [lia|]. destruct (Z.ltb_spec c1 0); [lia|].
    by destruct (Z.ltb_spec (Z.of_nat (length l)) c1); [lia|]. }
  rewrite E1. unfold py_insert.
  destruct (Z.ltb_spec c2 0); [lia|]. destruct (Z.ltb_spec c2 0); [lia|].
  rewrite length_app, length_take. simpl. rewrite length_drop.
  destruct (Z.ltb_spec (Z.of_nat (Z.to_nat c1 `min` length l
                                   + S (length l - Z.to_nat c1))) c2); [lia|].
  assert (Hlen : (Z.to_nat c2 ≤ length (take (Z.to_nat c1) l))%nat)
    by (rewrite length_take; lia).
  rewrite take_app_le, drop_app_le by done.
  rewrite take_take.
  by replace (Z.to_nat c2 `min` Z.to_nat c1)%nat with (Z.to_nat c2) by lia.
Qed.

(** Applied the other way round, the first marker shifts the second. *)
Example ascending_order_shifts :
  String.concat "" (py_insert (py_insert (chars "|ab|") 1 "<<") 3 ">>") = "|<<a>>b|"
  ∧ String.concat "" (py_insert (py_insert (chars "|ab|") 3 ">>") 1 "<<") = "|<<ab>>|".
Proof. vm_compute. done. Qed.

(** *** Frame and locality of the store operations *)

Lemma bind_run {A B : Type} (m : M A) (k : A → M B) (h : gmap loc (list string)) :
  (m ≫= k) h = match m h with
               | (inl e, h') => (inl e, h')
               | (inr a, h') => k a h'
               end.
Proof. reflexivity. Qed.

Lemma touches_ret {A : Type} (L : loc → Prop) (a : A) : touches_only L (ret a).
Proof. by intros h. Qed.

Lemma touches_of_option {A : Type} (L : loc → Prop) (e : exn) (o : option A) :
  touches_only L (of_option e o).
Proof. intros h. by destruct o. Qed.

Lemma touches_bind {A B : Type} (L : loc → Prop) (m : M A) (k : A → M B) :
  touches_only L m → (∀ a, touches_only L (k a)) → touches_only L (m ≫= k).
Proof.
  intros Hm Hk h. rewrite bind_run. destruct (Hm h) as [Hd Hf].
  destruct (m h) as [[e|a] h']; simpl in *; [done|].
  destruct (Hk a h') as [Hd' Hf']. split; [congruence|].
  intros l Hl. by rewrite Hf', Hf.
Qed.

Lemma touches_for_each {A : Type} (L : loc → Prop) (l : list A) (body : A → M unit) :
  (∀ a, touches_only L (body a)) → touches_only L (for_each l body).
Proof.
  intros Hb. induction l as [|a l IH]; simpl; [apply touches_ret|].
  apply touches_bind; [done|]. by intros _.
Qed.

Lemma touches_color_line (lines : loc) (m : gmap Z (list (Z * string))) (r : Z) :
  touches_only (λ l, l = lines) (color_line lines m r).
Proof.
  unfold color_line. apply touches_bind; [by intros h|]. intros content.
  apply touches_bind; [apply touches_of_option|]. intros i h.
  unfold set_item. simpl. split.
  - apply dom_alter_L.
  - intros l Hl. apply lookup_alter_ne. congruence.
Qed.

Lemma touches_apply_coloring (lines : loc) (ops : list (Z * Z * string)) :
  touches_only (λ l, l = lines) (apply_coloring lines ops).
Proof. apply touches_for_each. intros r. apply touches_color_line. Qed.

Lemma rel_for_each {A : Type} (l1 l2 : loc) (l : list A) (b1 b2 : A → M unit) :
  (∀ a, rel_at l1 l2 (b1 a) (b2 a)) → rel_at l1 l2 (for_each l b1) (for_each l b2).
Proof.
  intros Hb. induction l as [|a l IH]; intros h1 h2 Hh; simpl; [done|].
  rewrite !bind_run. destruct (Hb a h1 h2 Hh) as [Hres Hh'].
  destruct (b1 a h1) as [[e1|[]] h1'], (b2 a h2) as [[e2|[]] h2'];
    simpl in *; try done.
  by apply IH.
Qed.

Lemma rel_color_line (l1 l2 : loc) (m : gmap Z (list (Z * string))) (r : Z) :
  rel_at l1 l2 (color_line l1 m r) (color_line l2 m r).
Proof.
  intros h1 h2 Hh. unfold color_line. rewrite !bind_run.
  unfold get_list. rewrite Hh.
  destruct (py_index (default [] (h2 !! l2)) r) as [i|]; simpl; [|done].
  split; [done|]. by rewrite !lookup_alter_eq, Hh.
Qed.

Lemma rel_apply_coloring (l1 l2 : loc) (ops : list (Z * Z * string)) :
  rel_at l1 l2 (apply_coloring l1 ops) (apply_coloring l2 ops).
Proof. apply rel_for_each. intros r. apply rel_color_line. Qed.

(** *** Copying the base lists *)

Lemma preserves_dom (h h' : gmap loc (list string)) :
  preserves h h' → dom h ⊆ dom h'.
Proof.
  intros Hp l Hl. apply elem_of_dom. rewrite (Hp l Hl). by apply elem_of_dom.
Qed.

Lemma clone_one_spec (base : gmap string loc) (h0 h : gmap loc (list string))
    (acc : gmap string loc) (p : string) :
  live_in h0 base → preserves h0 h → clones_of base h0 acc h →
  match clone_one base acc p h with
  | (inr c, h') =>
      is_Some (base !! p) ∧ preserves h0 h' ∧ clones_of base h0 c h'
      ∧ dom c = {[p]} ∪ dom acc
  | (inl e, h') => base !! p = None ∧ e = KeyError ∧ h' = h
  end.
Proof.
  intros Hlive Hpres [Hinj Hacc]. unfold clone_one. rewrite bind_run.
  destruct (base !! p) as [l|] eqn:Hl; simpl; [|done].
  pose proof (is_fresh (dom h)) as Hfresh.
  set (l' := fresh (dom h)) in *.
  assert (Hl0 : l ∈ dom h0) by (by apply (Hlive p l)).
  assert (Hl'0 : l' ∉ dom h0).
  { intros H'. by apply Hfresh, (preserves_dom h0 h). }
  split; [by eexists|]. split; [|split; [split|]].
  - intros k Hk. rewrite lookup_insert_ne; [by apply Hpres|]. by intros ->.
  - intros q1 q2 k.
    destruct (decide (p = q1)) as [<-|H1], (decide (p = q2)) as [<-|H2];
      rewrite ?lookup_insert_eq, ?lookup_insert_ne by done; try done.
    + intros [= <-] H'. by destruct (Hacc _ _ H') as [? _].
    + intros H' [= <-]. by destruct (Hacc _ _ H') as [? _].
    + apply Hinj.
  - intros q k. destruct (decide (p = q)) as [<-|Hq].
    + rewrite lookup_insert_eq. intros [= <-]. repeat split.
      * apply elem_of_dom. rewrite lookup_insert_eq. by eexists.
      * done.
      * exists l. split; [done|]. by rewrite lookup_insert_eq, (Hpres l Hl0).
    + rewrite lookup_insert_ne by done. intros H'.
      destruct (Hacc _ _ H') as (Hk & Hk0 & l2 & Hl2 & Hc). repeat split.
      * apply elem_of_dom. rewrite lookup_insert_ne by (by intros ->).
        by apply elem_of_dom.
      * done.
      * exists l2. split; [done|]. by rewrite lookup_insert_ne by (by intros ->).
  - apply dom_insert_L.
Qed.

Lemma clone_fold_spec (base : gmap string loc) (h0 : gmap loc (list string))
    (ps : list string) (acc : gmap string loc) (h : gmap loc (list string)) :
  live_in h0 base → preserves h0 h → clones_of base h0 acc h →
  match fold_each ps (clone_one base) acc h with
  | (inr c, h') =>
      Forall (λ p, is_Some (base !! p)) ps ∧ preserves h0 h'
      ∧ clones_of base h0 c h' ∧ dom c = list_to_set ps ∪ dom acc
  | (inl e, h') =>
      ¬ Forall (λ p, is_Some (base !! p)) ps ∧ e = KeyError ∧ preserves h0 h'
  end.
Proof.
  intros Hlive. revert acc h. induction ps as [|p ps IH]; intros acc h Hpres Hacc.
  - simpl. split; [constructor|]. split; [done|]. split; [done|].
    by rewrite union_empty_l_L.
  - simpl. rewrite bind_run.
    pose proof (clone_one_spec base h0 h acc p Hlive Hpres Hacc) as H1.
    destruct (clone_one base acc p h) as [[e|c] h1].
    + destruct H1 as (Hnone & -> & ->). split; [|done].
      intros [[x Hx] _]%Forall_cons. congruence.
    + destruct H1 as (Hsome & Hpres1 & Hc & Hdom).
      specialize (IH c h1 Hpres1 Hc).
      destruct (fold_each ps (clone_one base) c h1) as [[e|c'] h2].
      * destruct IH as (Hnot & -> & Hpres2). split; [|done].
        intros [_ ?]%Forall_cons. by apply Hnot.
      * destruct IH as (Hall & Hpres2 & Hc' & Hdom').
        split; [by constructor|]. split; [done|]. split; [done|].
        rewrite Hdom', Hdom.
        by rewrite (assoc_L (∪)), (comm_L (∪) (list_to_set ps) {[p]}).
Qed.

Lemma clones_of_empty (base : gmap string loc) (h : gmap loc (list string)) :
  clones_of base h ∅ h.
Proof.
  split.
  - intros p q l H. by rewrite lookup_empty in H.
  - intros p l H. by rewrite lookup_empty in H.
Qed.

(** *** Colouring the copies *)

Lemma touches_weaken {A : Type} (L L' : loc → Prop) (m : M A) :
  (∀ l, L l → L' l) → touches_only L m → touches_only L' m.
Proof.
  intros HL Hm h. destruct (Hm h) as [Hd Hf]. split; [done|].
  intros l Hl. apply Hf. intros H'. by apply Hl, HL.
Qed.

Lemma touches_color_one (c : gmap string loc)
    (om : gmap string (list (Z * Z * string))) (p : string) :
  touches_only (λ l, c !! p = Some l) (color_one c om p).
Proof.
  intros h. unfold color_one. rewrite bind_run.
  destruct (c !! p) as [l|]; simpl; [|done].
  rewrite bind_run. destruct (om !! p) as [ops|]; simpl; [|done].
  destruct (touches_apply_coloring l ops h) as [Hd Hf]. split; [done|].
  intros l' Hl'. apply Hf. congruence.
Qed.

Lemma touches_color_phase (c : gmap string loc)
    (om : gmap string (list (Z * Z * string))) (ps : list string) :
  touches_only (λ l, ∃ p, c !! p = Some l) (for_each ps (color_one c om)).
Proof.
  apply touches_for_each. intros p.
  eapply touches_weaken; [|apply touches_color_one].
  intros l Hl. by exists p.
Qed.

Lemma color_one_rel (c1 c2 : gmap string loc)
    (om : gmap string (list (Z * Z * string))) (p : string)
    (h1 h2 : gmap loc (list string)) :
  dict_inj c1 → dict_inj c2 → dom c1 = dom c2 → same_contents c1 c2 h1 h2 →
  (color_one c1 om p h1).1 = (color_one c2 om p h2).1
  ∧ same_contents c1 c2 (color_one c1 om p h1).2 (color_one c2 om p h2).2.
Proof.
  intros Hinj1 Hinj2 Hdom Hsame. unfold color_one. rewrite !bind_run.
  destruct (c1 !! p) as [l1|] eqn:E1, (c2 !! p) as [l2|] eqn:E2; simpl.
  - rewrite !bind_run. destruct (om !! p) as [ops|]; simpl; [|done].
    destruct (rel_apply_coloring l1 l2 ops h1 h2 (Hsame p l1 l2 E1 E2)) as [Hres Hat].
    destruct (touches_apply_coloring l1 ops h1) as [_ Hf1].
    destruct (touches_apply_coloring l2 ops h2) as [_ Hf2].
    split; [done|]. intros q k1 k2 Hk1 Hk2.
    destruct (decide (q = p)) as [->|Hq].
    + by simplify_eq.
    + rewrite Hf1, Hf2; [by eapply Hsame|..].
      * intros ->. by apply Hq, (Hinj2 q p l2).
      * intros ->. by apply Hq, (Hinj1 q p l1).
  - assert (p ∈ dom c2) as [? ?]%elem_of_dom; [|congruence].
    rewrite <- Hdom. apply elem_of_dom. by eexists.
  - assert (p ∈ dom c1) as [? ?]%elem_of_dom; [|congruence].
    rewrite Hdom. apply elem_of_dom. by eexists.
  - done.
Qed.

Lemma color_phase_rel (c1 c2 : gmap string loc)
    (om : gmap string (list (Z * Z * string))) (ps : list string)
    (h1 h2 : gmap loc (list string)) :
  dict_inj c1 → dict_inj c2 → dom c1 = dom c2 → same_contents c1 c2 h1 h2 →
  (for_each ps (color_one c1 om) h1).1 = (for_each ps (color_one c2 om) h2).1
  ∧ same_contents c1 c2 (for_each ps (color_one c1 om) h1).2
                        (for_each ps (color_one c2 om) h2).2.
Proof.
  intros Hinj1 Hinj2 Hdom. revert h1 h2.
  induction ps as [|p ps IH]; intros h1 h2 Hsame; simpl; [done|].
  rewrite !bind_run.
  destruct (color_one_rel c1 c2 om p h1 h2 Hinj1 Hinj2 Hdom Hsame) as [Hres Hsame'].
  destruct (color_one c1 om p h1) as [[e1|[]] h1'],
           (color_one c2 om p h2) as [[e2|[]] h2']; simpl in *; try done.
  by apply IH.
Qed.

(** *** One invocation, and two *)

Lemma build_run (GRID_PREFIXES : list string) (base : gmap string loc)
    (ops : list (Z * Z * string * string)) (h : gmap loc (list string)) :
  build_colored_grid_lines GRID_PREFIXES base ops h
  = match clone_lines GRID_PREFIXES base h with
    | (inl e, h1) => (inl e, h1)
    | (inr c, h1) =>
        match group_by_prefix GRID_PREFIXES ops with
        | None => (inl KeyError, h1)
        | Some om =>
            match for_each GRID_PREFIXES (color_one c om) h1 with
            | (inl e, h2) => (inl e, h2)
            | (inr _, h2) => (inr c, h2)
            end
        end
    end.
Proof.
  unfold build_colored_grid_lines. rewrite bind_run.
  destruct (clone_lines GRID_PREFIXES base h) as [[e|c] h1]; [done|].
  rewrite bind_run. destruct (group_by_prefix GRID_PREFIXES ops) as [om|]; [|done].
  simpl. rewrite bind_run.
  by destruct (for_each GRID_PREFIXES (color_one c om) h1) as [[e|[]] h2].
Qed.

Lemma build_single (GRID_PREFIXES : list string) (base : gmap string loc)
    (ops : list (Z * Z * string * string)) (h : gmap loc (list string)) :
  live_in h base →
  preserves h (build_colored_grid_lines GRID_PREFIXES base ops h).2
  ∧ ∀ c, (build_colored_grid_lines GRID_PREFIXES base ops h).1 = inr c →
         dom c = list_to_set GRID_PREFIXES
         ∧ ∀ p l, c !! p = Some l →
             (l ∉ dom h)
             ∧ l ∈ dom (build_colored_grid_lines GRID_PREFIXES base ops h).2.
Proof.
  intros Hlive. rewrite build_run. unfold clone_lines.
  pose proof (clone_fold_spec base h GRID_PREFIXES ∅ h Hlive
                (λ l _, eq_refl) (clones_of_empty base h)) as Hclone.
  destruct (fold_each GRID_PREFIXES (clone_one base) ∅ h) as [[e|c] h1].
  { destruct Hclone as (_ & _ & Hp). by split. }
  destruct Hclone as (_ & Hp & [Hinj Hc] & Hdom).
  destruct (group_by_prefix GRID_PREFIXES ops) as [om|]; [|by split].
  destruct (touches_color_phase c om GRID_PREFIXES h1) as [Hd Hf].
  assert (Hp2 : preserves h (for_each GRID_PREFIXES (color_one c om) h1).2).
  { intros l Hl. rewrite Hf; [by apply Hp|].
    intros [p Hpl]. by destruct (Hc p l Hpl) as (_ & ? & _). }
  destruct (for_each GRID_PREFIXES (color_one c om) h1) as [[e|[]] h2];
    simpl in *; [by split|].
  split; [done|]. intros c' [= <-].
  split; [by rewrite Hdom, dom_empty_L, union_empty_r_L|].
  intros p l Hpl. destruct (Hc p l Hpl) as (? & ? & _). by rewrite Hd.
Qed.

Lemma build_twice (GRID_PREFIXES : list string) (base : gmap string loc)
    (ops : list (Z * Z * string * string)) (h h' : gmap loc (list string)) :
  live_in h base → live_in h' base →
  (∀ p l, base !! p = Some l → h !! l = h' !! l) →
  match (build_colored_grid_lines GRID_PREFIXES base ops h).1,
        (build_colored_grid_lines GRID_PREFIXES base ops h').1 with
  | inr c, inr c' =>
      same_contents c c' (build_colored_grid_lines GRID_PREFIXES base ops h).2
                         (build_colored_grid_lines GRID_PREFIXES base ops h').2
  | inl e, inl e' => e = e'
  | _, _ => False
  end.
Proof.
  intros Hlive Hlive' Hbase. rewrite !build_run. unfold clone_lines.
  pose proof (clone_fold_spec base h GRID_PREFIXES ∅ h Hlive
                (λ l _, eq_refl) (clones_of_empty base h)) as H1.
  pose proof (clone_fold_spec base h' GRID_PREFIXES ∅ h' Hlive'
                (λ l _, eq_refl) (clones_of_empty base h')) as H2.
  destruct (fold_each GRID_PREFIXES (clone_one base) ∅ h) as [[e1|c1] h1],
           (fold_each GRID_PREFIXES (clone_one base) ∅ h') as [[e2|c2] h2]; simpl.
  - destruct H1 as (_ & -> & _), H2 as (_ & -> & _). done.
  - destruct H1 as (Hn & _), H2 as (Hall & _). by destruct Hn.
  - destruct H1 as (Hall & _), H2 as (Hn & _). by destruct Hn.
  - destruct H1 as (_ & _ & [Hinj1 Hc1] & Hdom1), H2 as (_ & _ & [Hinj2 Hc2] & Hdom2).
    destruct (group_by_prefix GRID_PREFIXES ops) as [om|]; simpl; [|done].
    assert (Hsame : same_contents c1 c2 h1 h2).
    { intros p l1 l2 Hl1 Hl2.
      destruct (Hc1 p l1 Hl1) as (_ & _ & k1 & Hk1 & ->).
      destruct (Hc2 p l2 Hl2) as (_ & _ & k2 & Hk2 & ->).
      assert (k1 = k2) as <- by congruence. by rewrite (Hbase p k1). }
    destruct (color_phase_rel c1 c2 om GRID_PREFIXES h1 h2 Hinj1 Hinj2
                ltac:(congruence) Hsame) as [Hres Hsame'].
    destruct (for_each GRID_PREFIXES (color_one c1 om) h1) as [[e1|[]] h1'],
             (for_each GRID_PREFIXES (color_one c2 om) h2) as [[e2|[]] h2'];
      simpl in *; by simplify_eq.
Qed.

(** C9.  [build_colored_grid_lines] changes no list object of the store
    it is run in, the base line lists among them; the lists it returns
    are new objects; and a second invocation on the same base with the
    same operations leaves the first copies as they are, ends like the
    first, and returns further new lists, prefix by prefix equal to the
    first copies. *)
Theorem build_colored_grid_lines_frame (GRID_PREFIXES : list string)
    (base : gmap string loc) (ops : list (Z * Z * string * string))
    (h : gmap loc (list string)) :
  live_in h base →
  let r1 := build_colored_grid_lines GRID_PREFIXES base ops h in
  let r2 := build_colored_grid_lines GRID_PREFIXES base ops r1.2 in
  (∀ p l, base !! p = Some l → r1.2 !! l = h !! l ∧ r2.2 !! l = h !! l)
  ∧ preserves h r1.2
  ∧ preserves r1.2 r2.2
  ∧ match r1.1, r2.1 with
    | inr c1, inr c2 =>
        dom c1 = list_to_set GRID_PREFIXES ∧ dom c2 = list_to_set GRID_PREFIXES
        ∧ ∀ p l1 l2, c1 !! p = Some l1 → c2 !! p = Some l2 →
            (l1 ∉ dom h) ∧ (l2 ∉ dom h) ∧ l1 ≠ l2
            ∧ r2.2 !! l1 = r1.2 !! l1
            ∧ r2.2 !! l2 = r2.2 !! l1
            ∧ is_Some (r2.2 !! l2)
    | inl e1, inl e2 => e1 = e2
    | _, _ => False
    end.
Proof.
  intros Hlive r1 r2.
  destruct (build_single GRID_PREFIXES base ops h Hlive) as [Hp1 Hnew1].
  fold r1 in Hp1, Hnew1.
  assert (Hlive1 : live_in r1.2 base).
  { intros p l Hl. apply (preserves_dom h r1.2 Hp1). by apply (Hlive p l). }
  destruct (build_single GRID_PREFIXES base ops r1.2 Hlive1) as [Hp2 Hnew2].
  fold r2 in Hp2, Hnew2.
  assert (Hbase : ∀ p l, base !! p = Some l → h !! l = r1.2 !! l).
  { intros p l Hl. symmetry. apply Hp1. by apply (Hlive p l). }
  pose proof (build_twice GRID_PREFIXES base ops h r1.2 Hlive Hlive1 Hbase) as Hrel.
  fold r1 r2 in Hrel.
  split; [|split; [done|split; [done|]]].
  - intros p l Hl. rewrite <- (Hbase p l Hl). split; [done|].
    rewrite Hp2; [by rewrite <- (Hbase p l Hl)|].
    apply (preserves_dom h r1.2 Hp1). by apply (Hlive p l).
  - destruct r1.1 as [e1|c1], r2.1 as [e2|c2]; try done.
    destruct (Hnew1 c1 eq_refl) as [Hd1 Hf1], (Hnew2 c2 eq_refl) as [Hd2 Hf2].
    split; [done|]. split; [done|]. intros p l1 l2 Hl1 Hl2.
    destruct (Hf1 p l1 Hl1) as [Hl1h Hl1r], (Hf2 p l2 Hl2) as [Hl2h Hl2r].
    assert (Heq : r2.2 !! l1 = r1.2 !! l1) by (by apply Hp2).
    split; [done|]. split.
    { intros H'. by apply Hl2h, (preserves_dom h r1.2 Hp1). }
    split; [by intros ->|]. split; [done|]. split.
    + rewrite Heq. symmetry. by apply (Hrel p).
    + by apply elem_of_dom.
Qed.

End RendererFacts.

(** ** The short analyser *)
Section ClassifierFacts.

Lemma match_p_element_inv (s : string) :
  Re.match_p_element s = true →
  ∃ d sg t, s = String "P" (String d (String sg t))
            ∧ Re.is_digit d = true ∧ (sg = "+" ∨ sg = "-")%char
            ∧ (t = EmptyString ∨ t = Re.newline).
Proof.
  destruct s as [|p [|d [|sg t]]]; simpl; try done.
  intros (((Hp%Ascii.eqb_eq & Hd)%andb_prop & Hsg)%andb_prop & Ht)%andb_prop.
  exists d, sg, t. subst p. repeat split; [done|..].
  - apply orb_prop in Hsg as [H%Ascii.eqb_eq|H%Ascii.eqb_eq]; auto.
  - unfold Re.at_end in Ht.
    apply orb_prop in Ht as [H%String.eqb_eq|H%String.eqb_eq]; auto.
Qed.

(** No P-element has the shape of a pin. *)
Lemma p_element_not_pin (GRID_PREFIXES E2E_PINS : list string) (s : string) :
  is_p_element E2E_PINS s = true → is_pin GRID_PREFIXES s = false.
Proof.
  unfold is_p_element. intros [Hm _]%andb_prop.
  apply match_p_element_inv in Hm as (d & sg & t & -> & Hd & Hsg & Ht).
  assert (Hpin : Re.match_pin (String "P" (String d (String sg t))) = false).
  { simpl. rewrite Hd. by destruct Hsg as [->| ->], Ht as [->| ->]. }
  unfold is_pin. rewrite Hpin. by destruct GRID_PREFIXES.
Qed.

(** No P-element has the shape of a grid definition. *)
Lemma p_element_not_grid_definition (E2E_PINS : list string) (s : string) :
  is_p_element E2E_PINS s = true → is_grid_definition s = false.
Proof.
  unfold is_p_element. intros [Hm _]%andb_prop.
  apply match_p_element_inv in Hm as (d & sg & t & -> & Hd & Hsg & Ht).
  unfold is_grid_definition.
  assert (Hstrip : Re.strip (String "P" (String d (String sg t)))
                   = String "P" (String d (String sg EmptyString))).
  { by destruct Hsg as [->| ->], Ht as [->| ->]. }
  rewrite Hstrip. simpl.
  destruct (Ascii.eqb_spec d ":") as [->|_]; [done|reflexivity].
Qed.

End ClassifierFacts.

Section ShortsFacts.

Variable GRID_PREFIXES : list string.
Variable E2E_PINS : list string.
Variable external_color_map : gmap string string.

Local Abbreviation items := (all_non_pin_items GRID_PREFIXES).
Local Abbreviation p_elements := (p_elements_in_group GRID_PREFIXES E2E_PINS).
Local Abbreviation present := (present_e2e_pins E2E_PINS).
Local Abbreviation analyse :=
  (analyse_group GRID_PREFIXES E2E_PINS external_color_map).

Lemma elem_of_foldl_union_dom (vs : list (gmap string string)) (t0 : gset string)
    (x : string) :
  x ∈ foldl (λ targets target_map, targets ∪ dom target_map) t0 vs
  ↔ x ∈ t0 ∨ ∃ v, v ∈ vs ∧ x ∈ dom v.
Proof.
  revert t0. induction vs as [|v vs IH]; intros t0; simpl.
  - split; [by left|]. intros [?|(v & Hv & _)]; [done|]. by apply elem_of_nil in Hv.
  - rewrite IH, elem_of_union. split.
    + intros [[?|?]|(v' & Hv' & Hx)]; [by left|right..].
      * exists v. split; [left|done].
      * exists v'. split; [by right|done].
    + intros [?|(v' & [->|Hv']%elem_of_cons & Hx)].
      * left. by left.
      * left. by right.
      * right. by exists v'.
Qed.

Lemma elem_of_all_e2e_targets (m : gmap string (gmap string string)) (x : string) :
  x ∈ all_e2e_targets m ↔ ∃ k v, m !! k = Some v ∧ x ∈ dom v.
Proof.
  unfold all_e2e_targets. rewrite elem_of_foldl_union_dom. split.
  - intros [H|(v & Hv & Hx)]; [by apply not_elem_of_empty in H|].
    apply list_elem_of_fmap in Hv as ([k v'] & -> & Hkv).
    apply elem_of_map_to_list in Hkv. by exists k, v'.
  - intros (k & v & Hk & Hx). right. exists v. split; [|done].
    apply list_elem_of_fmap. exists (k, v). split; [done|].
    by apply elem_of_map_to_list.
Qed.

Lemma targets_record_short (e2e_pin : string) (m : gmap string (gmap string string))
    (item x : string) :
  x ∈ all_e2e_targets (record_short external_color_map e2e_pin m item)
  ↔ x ∈ all_e2e_targets m ∨ (x = item ∧ item ≠ e2e_pin).
Proof.
  unfold record_short. case_bool_decide as Hne.
  2:{ split; [by left|]. by intros [?|[_ ?]]. }
  case_bool_decide as Hin.
  - split; [by left|]. intros [?|[-> _]]; [done|].
    apply elem_of_all_e2e_targets.
    destruct (m !! e2e_pin) as [v|] eqn:Hv; simpl in Hin.
    + by exists e2e_pin, v.
    + by rewrite dom_empty_L in Hin.
  - rewrite !elem_of_all_e2e_targets. split.
    + intros (k & v & Hk & Hx). destruct (decide (e2e_pin = k)) as [<-|Hk'].
      * rewrite lookup_insert_eq in Hk. injection Hk as <-.
        rewrite dom_insert_L in Hx. apply elem_of_union in Hx as [Hx|Hx].
        { right. by apply elem_of_singleton in Hx. }
        left. destruct (m !! e2e_pin) as [v|] eqn:Hv; simpl in Hx.
        -- by exists e2e_pin, v.
        -- by rewrite dom_empty_L in Hx.
      * rewrite lookup_insert_ne in Hk by done. left. by exists k, v.
    + intros [(k & v & Hk & Hx)|[-> _]].
      * destruct (decide (e2e_pin = k)) as [<-|Hk'].
        -- eexists e2e_pin, _. rewrite lookup_insert_eq. split; [done|].
           rewrite Hk. simpl. rewrite dom_insert_L. apply elem_of_union. by right.
        -- exists k, v. by rewrite lookup_insert_ne.
      * eexists e2e_pin, _. rewrite lookup_insert_eq. split; [done|].
        rewrite dom_insert_L. apply elem_of_union. left. by apply elem_of_singleton.
Qed.

Lemma targets_record_all (e2e_pin : string) (l : list string)
    (m : gmap string (gmap string string)) (x : string) :
  x ∈ all_e2e_targets (foldl (record_short external_color_map e2e_pin) m l)
  ↔ x ∈ all_e2e_targets m ∨ (x ∈ l ∧ x ≠ e2e_pin).
Proof.
  revert m. induction l as [|item l IH]; intros m; simpl.
  - split; [by left|]. intros [?|[H _]]; [done|]. by apply elem_of_nil in H.
  - rewrite IH, targets_record_short, elem_of_cons. split.
    + intros [[?|[-> ?]]|[? ?]]; auto.
    + intros [?|[[->|?] ?]]; auto.
Qed.

Lemma targets_record_pins (pins l : list string)
    (m : gmap string (gmap string string)) (x : string) :
  x ∈ all_e2e_targets
        (foldl (λ m e2e_pin, foldl (record_short external_color_map e2e_pin) m l)
               m pins)
  ↔ x ∈ all_e2e_targets m ∨ ∃ pin, pin ∈ pins ∧ x ∈ l ∧ x ≠ pin.
Proof.
  revert m. induction pins as [|pin pins IH]; intros m; simpl.
  - split; [by left|]. intros [?|(pin & H & _)]; [done|]. by apply elem_of_nil in H.
  - rewrite IH, targets_record_all. split.
    + intros [[?|[? ?]]|(pin' & ? & ? & ?)]; [by left|right..].
      * exists pin. split; [left|done].
      * exists pin'. split; [by right|done].
    + intros [?|(pin' & [->|?]%elem_of_cons & ? & ?)].
      * left. by left.
      * left. by right.
      * right. by exists pin'.
Qed.

Local Abbreviation shorted_in := (shorted_in GRID_PREFIXES E2E_PINS).

Lemma targets_analyse (st : analysis) (group : list string) (x : string) :
  x ∈ all_e2e_targets (e2e_shorts_map (analyse st group))
  ↔ x ∈ all_e2e_targets (e2e_shorts_map st) ∨ shorted_in group x.
Proof.
  unfold analyse_group. cbn [e2e_shorts_map]. rewrite targets_record_pins.
  unfold shorted_in. by setoid_rewrite elem_of_elements.
Qed.

Lemma targets_analyse_all (groups : list (list string)) (st : analysis) (x : string) :
  x ∈ all_e2e_targets (e2e_shorts_map (foldl analyse st groups))
  ↔ x ∈ all_e2e_targets (e2e_shorts_map st) ∨ ∃ g, g ∈ groups ∧ shorted_in g x.
Proof.
  revert st. induction groups as [|g groups IH]; intros st; simpl.
  - split; [by left|]. intros [?|(g & H & _)]; [done|]. by apply elem_of_nil in H.
  - rewrite IH, targets_analyse. split.
    + intros [[?|?]|(g' & ? & ?)]; [by left|right..].
      * exists g. split; [left|done].
      * exists g'. split; [by right|done].
    + intros [?|(g' & [->|?]%elem_of_cons & ?)].
      * left. by left.
      * left. by right.
      * right. by exists g'.
Qed.

Lemma isolated_analyse_all (groups : list (list string)) (st : analysis) :
  isolated_p_groups (foldl analyse st groups)
  = isolated_p_groups st
    ++ (p_elements <$> filter (λ g, is_isolated_candidate GRID_PREFIXES E2E_PINS g) groups).
Proof.
  revert st. induction groups as [|g groups IH]; intros st; simpl.
  - by rewrite app_nil_r.
  - rewrite IH, filter_cons.
    assert (Hg : isolated_p_groups (analyse st g)
                 = if is_isolated_candidate GRID_PREFIXES E2E_PINS g
                   then isolated_p_groups st ++ [p_elements g]
                   else isolated_p_groups st) by reflexivity.
    rewrite Hg.
    destruct (decide (is_isolated_candidate GRID_PREFIXES E2E_PINS g)) as [Hd|Hd];
      destruct (is_isolated_candidate GRID_PREFIXES E2E_PINS g); simpl in *;
      try done.
    by rewrite <- app_assoc.
Qed.

Lemma targets_init :
  all_e2e_targets (list_to_map ((λ pin, (pin, ∅)) <$> E2E_PINS)) = ∅.
Proof.
  apply set_eq. intros x. rewrite elem_of_all_e2e_targets. split.
  - intros (k & v & Hk & Hx).
    apply elem_of_list_to_map_2, list_elem_of_fmap in Hk as (pin & [= -> ->] & _).
    by rewrite dom_empty_L in Hx.
  - intros H. by apply not_elem_of_empty in H.
Qed.

Lemma elem_of_shorted_targets (groups : list (list string)) (x : string) :
  x ∈ shorted_targets GRID_PREFIXES E2E_PINS groups external_color_map
  ↔ ∃ g, g ∈ groups ∧ shorted_in g x.
Proof.
  unfold shorted_targets, short_analysis. cbn [fst].
  rewrite targets_analyse_all. cbn [e2e_shorts_map]. rewrite targets_init.
  split; [|by right]. intros [H|?]; [|done]. by apply not_elem_of_empty in H.
Qed.

Lemma elem_of_all_non_pin_items (group : list string) (x : string) :
  x ∈ items group
  ↔ x ∈ group ∧ is_pin GRID_PREFIXES x = false ∧ is_grid_definition x = false.
Proof.
  unfold all_non_pin_items.
  rewrite elem_of_filter, elem_of_list_to_set, Is_true_true, andb_true_iff,
    !negb_true_iff.
  tauto.
Qed.

Lemma elem_of_transient_elements (group : list string) (x : string) :
  x ∈ transient_elements E2E_PINS group
  ↔ x ∈ group ∧ is_p_element E2E_PINS x = true.
Proof.
  unfold transient_elements. rewrite elem_of_filter, elem_of_list_to_set.
  rewrite Is_true_true. tauto.
Qed.

Lemma elem_of_p_elements_in_group (group : list string) (x : string) :
  x ∈ p_elements group ↔ x ∈ items group ∧ is_p_element E2E_PINS x = true.
Proof.
  unfold p_elements_in_group. rewrite elem_of_filter, Is_true_true. tauto.
Qed.

Lemma elem_of_present_e2e_pins (group : list string) (pin : string) :
  pin ∈ present group ↔ pin ∈ E2E_PINS ∧ pin ∈ group.
Proof.
  unfold present_e2e_pins. rewrite list_elem_of_filter, elem_of_list_to_set. tauto.
Qed.

(** In a group whose non-pin members are all P-elements, the two sets
    the source computes are both the set of its P-elements. *)
Lemma transient_only_sets (group : list string) :
  Forall (λ x, is_pin GRID_PREFIXES x = false → is_p_element E2E_PINS x = true) group →
  items group = transient_elements E2E_PINS group
  ∧ p_elements group = transient_elements E2E_PINS group.
Proof.
  rewrite Forall_forall. intros Hall.
  assert (H1 : items group = transient_elements E2E_PINS group).
  { apply set_eq. intros x.
    rewrite elem_of_all_non_pin_items, elem_of_transient_elements. split.
    - intros (Hx & Hp & _). auto.
    - intros [Hx Hp]. split; [done|].
      eauto using p_element_not_pin, p_element_not_grid_definition. }
  split; [done|]. apply set_eq. intros x.
  rewrite elem_of_p_elements_in_group, H1, elem_of_transient_elements. tauto.
Qed.

Lemma is_truly_isolated_spec (targets group : gset string) :
  is_truly_isolated targets group = true ↔ ∀ x, x ∈ group → x ∉ targets.
Proof.
  unfold is_truly_isolated. rewrite forallb_forall. split.
  - intros H x Hx Ht. specialize (H x).
    rewrite <- list_elem_of_In, elem_of_elements in H. specialize (H Hx).
    by rewrite bool_decide_eq_true_2 in H.
  - intros H x Hx. rewrite <- list_elem_of_In, elem_of_elements in Hx.
    rewrite bool_decide_eq_false_2; [done|]. by apply H.
Qed.

Lemma sorted_elements_inj (X Y : gset string) :
  sorted Re.upper str_le (elements X) = sorted Re.upper str_le (elements Y) → X = Y.
Proof.
  intros H. apply set_eq. intros x.
  rewrite <- !elem_of_elements.
  rewrite <- (elem_of_sorted Re.upper str_le x (elements X)), H.
  apply elem_of_sorted.
Qed.

Lemma elem_of_printable (groups : list (list string)) (l : list string) :
  l ∈ (short_analysis GRID_PREFIXES E2E_PINS groups external_color_map).2
  ↔ ∃ g, g ∈ groups
         ∧ is_isolated_candidate GRID_PREFIXES E2E_PINS g = true
         ∧ (∀ x, x ∈ p_elements g →
                 x ∉ shorted_targets GRID_PREFIXES E2E_PINS groups external_color_map)
         ∧ l = sorted Re.upper str_le (elements (p_elements g)).
Proof.
  unfold shorted_targets, short_analysis. cbn [fst snd].
  rewrite isolated_analyse_all. cbn [isolated_p_groups app].
  rewrite list_elem_of_fmap. setoid_rewrite list_elem_of_filter.
  setoid_rewrite list_elem_of_fmap. setoid_rewrite list_elem_of_filter.
  setoid_rewrite Is_true_true. setoid_rewrite is_truly_isolated_spec. split.
  - intros (S & -> & Hiso & g & -> & Hc & Hg). by exists g.
  - intros (g & Hg & Hc & Hiso & ->). exists (p_elements g).
    split; [done|]. split; [done|]. by exists g.
Qed.

End ShortsFacts.

Section ShortsTheorems.

Variable GRID_PREFIXES : list string.
Variable E2E_PINS : list string.

(** C3.  Take a group of the analysed list whose non-pin members are all
    transient elements (P-elements) and which has more than one of them.
    Its transient elements are reported as an isolated group if and only
    if no declared terminal is a member of the group and no member of the
    group is recorded, anywhere in the shorted-to mapping, as shorted to
    a declared terminal. *)
Theorem isolated_group_reported (external_color_map : gmap string string)
    (groups : list (list string)) (group : list string) :
  group ∈ groups →
  Forall (λ x, is_pin GRID_PREFIXES x = false → is_p_element E2E_PINS x = true) group →
  1 < size (transient_elements E2E_PINS group) →
  reported_isolated GRID_PREFIXES E2E_PINS groups external_color_map group
  ↔ (∀ pin, pin ∈ E2E_PINS → pin ∉ group)
    ∧ (∀ x, x ∈ group →
            x ∉ shorted_targets GRID_PREFIXES E2E_PINS groups external_color_map).
Proof.
  intros Hin Hall Hsize.
  destruct (transient_only_sets GRID_PREFIXES E2E_PINS group Hall) as [Hitems Hp].
  unfold reported_isolated. rewrite elem_of_printable. split.
  - intros (g' & Hg' & Hc & Hiso & Heq%sorted_elements_inj).
    rewrite <- Heq in Hiso.
    assert (Hfree : ∀ x, x ∈ group →
              x ∉ shorted_targets GRID_PREFIXES E2E_PINS groups external_color_map).
    { intros x Hx Ht. pose proof Ht as Ht'.
      apply elem_of_shorted_targets in Ht' as (g2 & _ & pin & _ & Hx2 & _).
      apply elem_of_all_non_pin_items in Hx2 as (_ & Hnp & _).
      apply (Hiso x); [|done]. apply elem_of_transient_elements.
      split; [done|]. rewrite Forall_forall in Hall. by apply Hall. }
    split; [|done]. intros pin Hpin Hpg.
    destruct (size_pos_elem_of (transient_elements E2E_PINS group)) as [x Hx]; [lia|].
    apply (Hiso x Hx). apply elem_of_shorted_targets. exists group. split; [done|].
    exists pin. split; [by apply elem_of_present_e2e_pins|]. split; [by rewrite Hitems|].
    apply elem_of_transient_elements in Hx as [_ Hx]. unfold is_p_element in Hx.
    apply andb_prop in Hx as [_ Hx%negb_true_iff%bool_decide_eq_false].
    by intros ->.
  - intros [Hno Hfree]. exists group. split; [done|]. split; [|split].
    + unfold is_isolated_candidate. rewrite Hp, Hitems, Nat.eqb_refl. simpl.
      rewrite bool_decide_eq_true_2.
      * simpl. apply Nat.ltb_lt. lia.
      * apply elem_of_nil_inv. intros pin [Hpin Hpg]%elem_of_present_e2e_pins.
        by apply (Hno pin).
    + intros x Hx. apply Hfree. rewrite Hp in Hx.
      by apply elem_of_transient_elements in Hx as [? _].
    + by rewrite Hp.
Qed.

End ShortsTheorems.

(** ** The colour assigner *)
Section DictFacts.

Context {K V : Type} `{EqDecision K}.

Lemma dict_get_set (d : list (K * V)) (k k' : K) (v : V) :
  dict_get (dict_set d k v) k' = if decide (k' = k) then Some v else dict_get d k'.
Proof.
  induction d as [|[k0 v0] d IH]; simpl.
  - by destruct (decide (k' = k)).
  - destruct (decide (k = k0)) as [->|Hk]; simpl.
    + by destruct (decide (k' = k0)).
    + rewrite IH. destruct (decide (k' = k0)) as [->|]; [|done].
      by rewrite decide_False by done.
Qed.

Lemma dict_has_spec (d : list (K * V)) (k : K) :
  dict_has d k = true ↔ is_Some (dict_get d k).
Proof. unfold dict_has. apply bool_decide_eq_true. Qed.

End DictFacts.

Section ColorFacts.

Variable GRID_PREFIXES : list string.
Variable E2E_PINS : list string.

Local Abbreviation listed x :=
  (negb (is_grid_definition x) && negb (is_e2e_pin_definition x)).

Lemma color_item_pin (color : string) (maps : color_maps) (item x : string) :
  dict_get (pin_color_map (color_item GRID_PREFIXES color maps item)) x
  = match dict_get (pin_color_map maps) x with
    | Some c => Some c
    | None => if bool_decide (x = item) && is_pin GRID_PREFIXES item
              then Some color else None
    end.
Proof.
  unfold color_item. destruct (is_pin GRID_PREFIXES item); simpl.
  - destruct (dict_has (pin_color_map maps) item) eqn:Hhas; simpl.
    + apply dict_has_spec in Hhas as [c Hc].
      destruct (dict_get (pin_color_map maps) x) eqn:Hx; [done|].
      rewrite bool_decide_eq_false_2; [done|]. intros ->. congruence.
    + rewrite dict_get_set. rewrite andb_true_r.
      destruct (decide (x = item)) as [->|Hne].
      * rewrite bool_decide_eq_true_2 by done.
        destruct (dict_get (pin_color_map maps) item) eqn:Hx; [|done].
        assert (dict_has (pin_color_map maps) item = true); [|congruence].
        apply dict_has_spec. by rewrite Hx.
      * rewrite bool_decide_eq_false_2 by done.
        by destruct (dict_get (pin_color_map maps) x).
  - rewrite andb_false_r.
    destruct (listed item); simpl; by destruct (dict_get (pin_color_map maps) x).
Qed.

Lemma color_item_external (color : string) (maps : color_maps) (item x : string) :
  dict_get (external_color_map (color_item GRID_PREFIXES color maps item)) x
  = if bool_decide (x = item) && negb (is_pin GRID_PREFIXES item) && listed item
    then Some color
    else dict_get (external_color_map maps) x.
Proof.
  unfold color_item. destruct (is_pin GRID_PREFIXES item); simpl.
  - rewrite andb_false_r. simpl. by destruct (dict_has _ _).
  - rewrite andb_true_r. destruct (listed item); simpl.
    + rewrite dict_get_set. by destruct (decide (x = item)), (bool_decide_reflect (x = item)).
    + by rewrite andb_false_r.
Qed.

Lemma color_group_pin (colors : list (list string * string))
    (maps : color_maps) (group : list string) (x : string) :
  is_pin GRID_PREFIXES x = true →
  dict_get (pin_color_map (color_group GRID_PREFIXES colors maps group)) x
  = match dict_get (pin_color_map maps) x with
    | Some c => Some c
    | None => if bool_decide (x ∈ group)
              then Some (default "" (dict_get colors group)) else None
    end.
Proof.
  intros Hpin. unfold color_group.
  generalize (default "" (dict_get colors group)). intros color.
  revert maps. induction group as [|item group IH]; intros maps; simpl.
  - by destruct (dict_get _ _).
  - rewrite IH, color_item_pin.
    destruct (dict_get (pin_color_map maps) x) as [c|]; [done|].
    destruct (bool_decide_reflect (x = item)) as [<-|Hne]; simpl.
    + rewrite Hpin. rewrite bool_decide_eq_true_2; [done|left].
    + destruct (bool_decide_reflect (x ∈ group)) as [Hx|Hx].
      * rewrite bool_decide_eq_true_2; [done|by right].
      * rewrite bool_decide_eq_false_2; [done|].
        by intros [?|?]%elem_of_cons.
Qed.

Lemma color_group_external (colors : list (list string * string))
    (maps : color_maps) (group : list string) (x : string) :
  is_pin GRID_PREFIXES x = false → listed x = true →
  dict_get (external_color_map (color_group GRID_PREFIXES colors maps group)) x
  = if bool_decide (x ∈ group) then Some (default "" (dict_get colors group))
    else dict_get (external_color_map maps) x.
Proof.
  intros Hpin Hl. unfold color_group.
  generalize (default "" (dict_get colors group)). intros color.
  revert maps. induction group as [|item group IH]; intros maps; simpl.
  - done.
  - rewrite IH, color_item_external.
    destruct (bool_decide_reflect (x ∈ group)) as [Hx|Hx].
    + rewrite bool_decide_eq_true_2; [done|by right].
    + destruct (bool_decide_reflect (x = item)) as [<-|Hne]; simpl.
      * rewrite Hpin, Hl. simpl. rewrite bool_decide_eq_true_2; [done|left].
      * rewrite bool_decide_eq_false_2; [done|].
        by intros [?|?]%elem_of_cons.
Qed.

(** Pins keep the colour written first: with [sorted_groups] in priority
    order, a pin has the colour of the first group that lists it. *)
Lemma pin_colors_first_write (colors : list (list string * string))
    (groups : list (list string)) (maps : color_maps) (x : string) :
  is_pin GRID_PREFIXES x = true →
  dict_get (pin_color_map (foldl (color_group GRID_PREFIXES colors) maps groups)) x
  = match dict_get (pin_color_map maps) x with
    | Some c => Some c
    | None => first_color colors groups x
    end.
Proof.
  intros Hpin. revert maps. induction groups as [|g groups IH]; intros maps; simpl.
  - by destruct (dict_get _ _).
  - rewrite IH, color_group_pin by done.
    destruct (dict_get (pin_color_map maps) x); [done|].
    by destruct (bool_decide (x ∈ g)).
Qed.

(** Non-pin members take the colour written last: the assignment to
    [external_color_map] is unconditional, so a later group replaces the
    colour of an earlier one. *)
Lemma external_colors_last_write (colors : list (list string * string))
    (groups : list (list string)) (maps : color_maps) (x : string) :
  is_pin GRID_PREFIXES x = false → listed x = true →
  dict_get (external_color_map (foldl (color_group GRID_PREFIXES colors) maps groups)) x
  = match last_color colors groups x with
    | Some c => Some c
    | None => dict_get (external_color_map maps) x
    end.
Proof.
  intros Hpin Hl. unfold last_color. revert maps.
  induction groups as [|g groups IH] using rev_ind; intros maps; [done|].
  rewrite foldl_app, reverse_app. simpl.
  rewrite color_group_external by done.
  destruct (bool_decide (x ∈ g)); [done|]. apply IH.
Qed.

End ColorFacts.

(** Two groups that share a non-pin member, which the reducer never
    returns.  The groups are visited in priority order, the one with
    the declared terminal [G] first, and the pin map is filled
    set-if-absent; the external map is assigned without a test, and
    [P1+] ends with the colour of the group visited last. *)
Example calculate_global_colors_external_overwritten :
  let groups := [["G"; "P1+"; "A1"]; ["P1+"; "A1"]] in
  let '(pin_map, ext_map, _, _) :=
    calculate_global_colors ["A"] ["G"; "T"] groups ∅ ∅ 8 in
  group_priority_key ["A"] ["G"; "T"] ["G"; "P1+"; "A1"] = 0
  ∧ group_priority_key ["A"] ["G"; "T"] ["P1+"; "A1"] = 1
  ∧ sorted (group_priority_key ["A"] ["G"; "T"]) Nat.leb groups = groups
  ∧ dict_get (group_to_color groups) ["G"; "P1+"; "A1"] = Some (palette 0)
  ∧ dict_get (group_to_color groups) ["P1+"; "A1"] = Some (palette 1)
  ∧ dict_get pin_map "A1" = Some (palette 0)
  ∧ dict_get ext_map "P1+" = Some (palette 1)
  ∧ palette 0 ≠ palette 1.
Proof. vm_compute. repeat split; discriminate. Qed.

Section ColorTheorems.

Variable GRID_PREFIXES : list string.
Variable E2E_PINS : list string.


(** What [calculate_global_colors] records: for a pin the colour of the
    first group, in priority order, that lists it; for a listed non-pin
    member the colour of the last. *)
Lemma calculate_global_colors_maps (groups : list (list string))
    (map_coords : gmap string (gmap string (Z * Z)))
    (state_pins_by_prefix : gmap string (gset string)) (cell_width : Z) (x : string) :
  let '(pin_map, ext_map, _, _) :=
    calculate_global_colors GRID_PREFIXES E2E_PINS groups map_coords
      state_pins_by_prefix cell_width in
  let colors := group_to_color groups in
  let sorted_groups :=
    sorted (group_priority_key GRID_PREFIXES E2E_PINS) Nat.leb groups in
  (is_pin GRID_PREFIXES x = true → dict_get pin_map x = first_color colors sorted_groups x)
  ∧ (is_pin GRID_PREFIXES x = false →
     negb (is_grid_definition x) && negb (is_e2e_pin_definition x) = true →
     dict_get ext_map x = last_color colors sorted_groups x).
Proof.
  unfold calculate_global_colors. cbv zeta. split.
  - intros Hpin. by rewrite pin_colors_first_write.
  - intros Hpin Hl. rewrite external_colors_last_write by done.
    by destruct (last_color _ _ _).
Qed.

End ColorTheorems.

(** ** Concrete runs *)

Example is_pin_examples :
  is_pin [] "A12" = true ∧ is_pin ["B"] "A12" = false ∧ is_pin ["B"] "B7" = true
  ∧ is_pin [] "A" = false ∧ is_pin [] "a1" = false ∧ is_pin [] "P1+" = false.
Proof. vm_compute. done. Qed.

Example is_grid_definition_examples :
  is_grid_definition " a:3X4 " = true ∧ is_grid_definition "A:3x" = false
  ∧ is_grid_definition "A1" = false.
Proof. vm_compute. done. Qed.

Example is_p_element_examples :
  is_p_element ["G"] "P1+" = true ∧ is_p_element ["P1+"] "P1+" = false
  ∧ is_p_element [] "P12+" = false ∧ is_external_element ["G"] "G" = true.
Proof. vm_compute. done. Qed.

Example is_e2e_pin_definition_examples :
  is_e2e_pin_definition "E2Epins: G,T" = true ∧ is_e2e_pin_definition "G" = false.
Proof. vm_compute. done. Qed.

Example generate_ascii_grid_2x2 :
  generate_ascii_grid "A" 2 2 4
  = ([ "+----+----+"; "| A1 | A2 |"; "+----+----+"; "| A3 | A4 |"; "+----+----+" ],
     {[ "A1" := (1, 5); "A2" := (1, 10); "A3" := (3, 5); "A4" := (3, 10) ]}%Z).
Proof. vm_compute. reflexivity. Qed.

Example short_analysis_scenario_1 :
  let '(shorts, printable) :=
    short_analysis ["A"] ["G"; "T"] [["G"; "P1+"; "A1"]] ∅ in
  dom <$> shorts !! "G" = Some {[ "P1+" ]}
  ∧ dom <$> shorts !! "T" = Some ∅
  ∧ printable = [].
Proof. vm_compute. done. Qed.

Example short_analysis_scenario_2 :
  (short_analysis ["A"] ["G"; "T"] [["P1+"; "P2-"]; ["A3"]] ∅).2 = [["P1+"; "P2-"]].
Proof. vm_compute. reflexivity. Qed.

Lemma isolated_group_reported_witness :
  reported_isolated ["A"] ["G"; "T"] [["P1+"; "P2-"]; ["A3"]] ∅ ["P1+"; "P2-"]
  ↔ (∀ pin, pin ∈ ["G"; "T"] → pin ∉ ["P1+"; "P2-"])
    ∧ (∀ x, x ∈ ["P1+"; "P2-"] →
            x ∉ shorted_targets ["A"] ["G"; "T"] [["P1+"; "P2-"]; ["A3"]] ∅).
Proof.
  apply (isolated_group_reported ["A"] ["G"; "T"] ∅
           [["P1+"; "P2-"]; ["A3"]] ["P1+"; "P2-"]).
  - apply list_elem_of_here.
  - repeat (constructor; [intros _; vm_compute; reflexivity|]). constructor.
  - vm_compute. lia.
Defined.

Example build_colored_grid_lines_run :
  let h := {[ 0%nat := ["+--+"; "|ab|"] ]} in
  let r := build_colored_grid_lines ["A"] {[ "A" := 0%nat ]}
             [(1, 3, "]", "A"); (1, 1, "[", "A")]%Z h in
  r.1 = inr {[ "A" := 1%nat ]}
  ∧ r.2 !! 0%nat = Some ["+--+"; "|ab|"]
  ∧ r.2 !! 1%nat = Some ["+--+"; "|[ab]|"].
Proof. vm_compute. done. Qed.

Lemma build_colored_grid_lines_frame_witness :
  let GRID_PREFIXES := ["A"] in
  let base := {[ "A" := 0%nat ]} in
  let ops := [(1, 3, "]", "A"); (1, 1, "[", "A")]%Z in
  let h := {[ 0%nat := ["+--+"; "|ab|"] ]} in
  let r1 := build_colored_grid_lines GRID_PREFIXES base ops h in
  let r2 := build_colored_grid_lines GRID_PREFIXES base ops r1.2 in
  (∀ p l, base !! p = Some l → r1.2 !! l = h !! l ∧ r2.2 !! l = h !! l)
  ∧ preserves h r1.2
  ∧ preserves r1.2 r2.2
  ∧ match r1.1, r2.1 with
    | inr c1, inr c2 =>
        dom c1 = list_to_set GRID_PREFIXES ∧ dom c2 = list_to_set GRID_PREFIXES
        ∧ ∀ p l1 l2, c1 !! p = Some l1 → c2 !! p = Some l2 →
            (l1 ∉ dom h) ∧ (l2 ∉ dom h) ∧ l1 ≠ l2
            ∧ r2.2 !! l1 = r1.2 !! l1
            ∧ r2.2 !! l2 = r2.2 !! l1
            ∧ is_Some (r2.2 !! l2)
    | inl e1, inl e2 => e1 = e2
    | _, _ => False
    end.
Proof.
  apply (build_colored_grid_lines_frame ["A"] {[ "A" := 0%nat ]}
           [(1, 3, "]", "A"); (1, 1, "[", "A")]%Z {[ 0%nat := ["+--+"; "|ab|"] ]}).
  unfold live_in. apply map_Forall_singleton. vm_compute. reflexivity.
Defined.


(** * Further properties *)

(** ** The group reducer: exact components, order, size *)
Section ReducerComponents.

Variable GRID_PREFIXES : list string.
Variable E2E_PINS : list string.

Local Abbreviation reduce := (reduce_connection_groups GRID_PREFIXES E2E_PINS).

Lemma rtc_linked_sets_sym (W : list (gset string)) (x y : string) :
  rtc (linked_sets W) x y → rtc (linked_sets W) y x.
Proof.
  induction 1 as [x|x z y (s & Hs & Hx & Hz) _ IH]; [done|].
  eapply rtc_r; [exact IH|]. by exists s.
Qed.

Lemma pool_connected_init (W0 : list (gset string)) :
  pool_connected W0 (Outer W0 []).
Proof.
  intros g x y Hg Hx Hy. apply rtc_once. by exists g.
Qed.

Lemma pool_connected_step (W0 : list (gset string)) (s : loop_state) :
  pool_connected W0 s → pool_connected W0 (step s).
Proof.
  intros Hc. destruct s as [[|g w] m|cur w i m|m]; simpl;
    unfold pool_connected, pool in *; simpl in *.
  - done.
  - done.
  - destruct (w !! i) as [g|] eqn:Hi.
    + destruct (overlaps cur g) eqn:Hov; [|done]. unfold pool; simpl.
      assert (Hcur : cur ∈ m ++ cur :: w) by (apply elem_of_app; right; left).
      assert (Hg : g ∈ m ++ cur :: w).
      { apply elem_of_app. right. right. by eapply list_elem_of_lookup_2. }
      apply overlaps_true in Hov as (z & Hzc & Hzg).
      intros g' x y [Hg'|[->|Hg']%elem_of_cons]%elem_of_app Hx Hy.
      * apply (Hc g'); [|done..]. apply elem_of_app. by left.
      * assert (Hz : ∀ a, a ∈ cur ∪ g → rtc (linked_sets W0) a z).
        { intros a [Ha|Ha]%elem_of_union; [by apply (Hc cur)|by apply (Hc g)]. }
        etrans; [by apply Hz|]. by apply rtc_linked_sets_sym, Hz.
      * apply (Hc g'); [|done..]. apply elem_of_app. right. right.
        rewrite (delete_Permutation w i g Hi). by right.
    + unfold pool; simpl. intros g' x y Hg'. apply (Hc g').
      by rewrite <- app_assoc in Hg'.
  - done.
Qed.

Lemma merge_groups_connected (W0 : list (gset string)) (s : gset string)
    (x y : string) :
  s ∈ merge_groups W0 → x ∈ s → y ∈ s → rtc (linked_sets W0) x y.
Proof.
  assert (H : ∀ n, pool_connected W0 (Nat.iter n step (Outer W0 []))).
  { induction n as [|n IH]; [apply pool_connected_init|].
    simpl. by apply pool_connected_step. }
  specialize (H (steps_bound (Outer W0 []))). rewrite merge_groups_Done in H.
  intros Hs. apply (H s). unfold pool. simpl. by rewrite app_nil_r.
Qed.

Lemma merge_groups_closed (W0 : list (gset string)) (s : gset string)
    (x y : string) :
  s ∈ merge_groups W0 → x ∈ s → rtc (linked_sets W0) x y → y ∈ s.
Proof.
  intros Hs Hx Hxy. induction Hxy as [x|x z y (s0 & Hs0 & Hx0 & Hz0) _ IH]; [done|].
  apply IH. destruct (merge_groups_cover W0 s0 Hs0) as (s' & Hs' & Hsub).
  destruct (list_elem_of_lookup_1 _ _ Hs) as [i Hi].
  destruct (list_elem_of_lookup_1 _ _ Hs') as [j Hj].
  destruct (decide (i = j)) as [->|Hij].
  - assert (s = s') as -> by congruence. by apply Hsub.
  - pose proof (pairwise_elem_of (##) _ i j s s'
                  (merge_groups_disjoint W0) Hij Hi Hj) as Hd.
    destruct (proj1 (elem_of_disjoint s s') Hd x); [done|by apply Hsub].
Qed.

Lemma linked_working_groups (gs : list (list string)) (x y : string) :
  linked gs x y ↔ linked_sets (working_groups gs) x y.
Proof.
  split.
  - intros (g & Hg & Hx & Hy). exists (list_to_set g). split.
    + apply elem_of_working_groups. exists g. split; [done|]. split; [|done].
      intros ->. by apply elem_of_nil in Hx.
    + by rewrite !elem_of_list_to_set.
  - intros (s & (g & Hg & _ & ->)%elem_of_working_groups & Hx & Hy).
    exists g. by rewrite !elem_of_list_to_set in Hx, Hy.
Qed.

Lemma connected_working_groups (gs : list (list string)) (x y : string) :
  connected gs x y ↔ rtc (linked_sets (working_groups gs)) x y.
Proof.
  unfold connected. split; intros H; induction H as [|a b c Hab _ IH]; try done;
    (eapply rtc_l; [|exact IH]); by apply linked_working_groups.
Qed.

(** X1.  The output groups are exactly the connected components of the
    input: the members of the group of [x] are the retained elements
    that a chain of input groups, each sharing an element with the next,
    joins to [x]; so groups are merged when, and only when, such a chain
    exists. *)
Theorem reduce_components (initial_groups : list (list string))
    (r : list string) (x y : string) :
  r ∈ reduce_connection_groups GRID_PREFIXES E2E_PINS initial_groups → x ∈ r →
  y ∈ r ↔ retained GRID_PREFIXES y = true ∧ connected initial_groups x y.
Proof.
  intros (s & Hs & ->)%elem_of_reduce [Hx _]%elem_of_canonical.
  rewrite elem_of_canonical, connected_working_groups. split.
  - intros [Hy Hr]. split; [done|].
    by apply (merge_groups_connected (working_groups initial_groups) s).
  - intros [Hr Hxy]. split; [|done].
    by apply (merge_groups_closed (working_groups initial_groups) s x).
Qed.

End ReducerComponents.

Lemma reduce_components_witness :
  "A3" ∈ ["A1"; "A2"; "A3"]
  ↔ retained ["A"] "A3" = true
    ∧ connected [["A1"; "A2"]; ["A9"]; ["A2"; "A3"]] "A1" "A3".
Proof.
  apply (reduce_components ["A"] ["G"; "T"]
           [["A1"; "A2"]; ["A9"]; ["A2"; "A3"]] ["A1"; "A2"; "A3"] "A1" "A3").
  - vm_compute. apply list_elem_of_here.
  - apply list_elem_of_here.
Defined.

Section ReducerOrder.

Variable GRID_PREFIXES : list string.
Variable E2E_PINS : list string.

Local Abbreviation reduce := (reduce_connection_groups GRID_PREFIXES E2E_PINS).
Local Abbreviation class := (priority_class GRID_PREFIXES E2E_PINS).

Lemma nat_str_le_total (a b : nat * string) :
  nat_str_le a b = false → nat_str_le b a = true.
Proof.
  unfold nat_str_le. rewrite (Nat.eqb_sym b.1 a.1).
  destruct (Nat.eqb_spec a.1 b.1) as [_|Hne].
  - apply str_le_total.
  - rewrite Nat.leb_gt, Nat.leb_le. lia.
Qed.

Lemma Sorted_weaken {A : Type} (R R' : relation A) (l : list A) :
  (∀ a b, R a b → R' a b) → Sorted R l → Sorted R' l.
Proof.
  intros HR. induction 1 as [|x l _ IH Hx]; constructor; [done|].
  destruct Hx; constructor. by apply HR.
Qed.

Lemma reduce_sorted_key (initial_groups : list (list string)) :
  Sorted (key_le (sort_key GRID_PREFIXES E2E_PINS) nat_str_le) (reduce initial_groups).
Proof.
  unfold reduce_connection_groups. destruct initial_groups; [constructor|].
  apply sorted_Sorted, nat_str_le_total.
Qed.

(** X2.  The returned list is ordered by [sort_key]: no group comes
    after a group of a higher priority class (0: holds a declared
    terminal; 1: holds another non-pin member; 2: pins only; 3: empty),
    and neighbours of one class are ordered by their first member. *)
Theorem reduce_priority_order (initial_groups : list (list string)) :
  Sorted (key_le (sort_key GRID_PREFIXES E2E_PINS) nat_str_le)
    (reduce_connection_groups GRID_PREFIXES E2E_PINS initial_groups)
  ∧ StronglySorted
      (λ a b, priority_class GRID_PREFIXES E2E_PINS a
              ≤ priority_class GRID_PREFIXES E2E_PINS b)
      (reduce_connection_groups GRID_PREFIXES E2E_PINS initial_groups).
Proof.
  pose proof (reduce_sorted_key initial_groups) as H.
  split; [done|]. apply Sorted_StronglySorted.
  - intros a b c. lia.
  - eapply Sorted_weaken; [|exact H]. intros a b. unfold key_le, nat_str_le.
    fold (class a) (class b).
    destruct (Nat.eqb_spec (class a) (class b)) as [->|_]; [lia|].
    by intros ?%Nat.leb_le.
Qed.

Lemma list_to_set_canonical (s : gset string) :
  list_to_set (canonical GRID_PREFIXES s)
  =@{gset string} filter (λ x, retained GRID_PREFIXES x) s.
Proof.
  apply set_eq. intros x.
  rewrite elem_of_list_to_set, elem_of_canonical, elem_of_filter.
  destruct (retained GRID_PREFIXES x); simpl.
  - split; [by intros [? _]|by intros [_ ?]].
  - split; [by intros [_ ?]|by intros [[] _]].
Qed.

(** X3.  Groups that share no element are never merged: on pairwise
    disjoint input the output has one group for each non-empty input
    group, with the retained members of that group. *)
Theorem reduce_disjoint_input (initial_groups : list (list string)) :
  pairwise lists_disjoint initial_groups →
  (list_to_set <$> reduce_connection_groups GRID_PREFIXES E2E_PINS initial_groups
   : list (gset string))
  ≡ₚ (λ g, filter (λ x, retained GRID_PREFIXES x) (list_to_set g))
       <$> filter (λ g, g ≠ []) initial_groups.
Proof.
  intros Hd.
  etrans; [apply fmap_Permutation, reduce_Permutation|].
  unfold reduced_sets.
  assert (Hpw : pairwise (##) (working_groups initial_groups)).
  { unfold working_groups. apply pairwise_fmap.
    assert (Hf : pairwise lists_disjoint (filter (λ g, g ≠ []) initial_groups)).
    { clear -Hd. induction initial_groups as [|g l IH]; [done|].
      destruct Hd as [Hg Hl]. rewrite filter_cons.
      destruct (decide (g ≠ [])); simpl; [|by apply IH]. split; [|by apply IH].
      rewrite Forall_forall in *. intros y [_ Hy]%list_elem_of_filter. by apply Hg. }
    eapply pairwise_impl; [|exact Hf].
    intros a b _ _ Hab. apply elem_of_disjoint. intros x Ha Hb.
    apply elem_of_list_to_set in Ha, Hb. by apply (Hab x). }
  rewrite (merge_groups_disjoint_id _ Hpw). unfold working_groups.
  rewrite <- !list_fmap_compose.
  induction (filter (λ g, g ≠ []) initial_groups) as [|g l IH]; [done|].
  simpl. by rewrite list_to_set_canonical, IH.
Qed.

Lemma pool_length_step (s : loop_state) : length (pool (step s)) ≤ length (pool s).
Proof.
  destruct s as [[|g w] m|cur w i m|m]; simpl; unfold pool; simpl; try lia.
  destruct (w !! i) as [g|] eqn:Hi.
  - destruct (overlaps cur g); unfold pool; simpl; [|lia].
    rewrite !length_app. simpl. rewrite length_delete by eauto.
    apply lookup_lt_Some in Hi. lia.
  - unfold pool; simpl. rewrite !length_app. simpl. lia.
Qed.

Lemma merge_groups_length (W0 : list (gset string)) :
  length (merge_groups W0) ≤ length W0.
Proof.
  assert (H : ∀ n, length (pool (Nat.iter n step (Outer W0 []))) ≤ length W0).
  { induction n as [|n IH]; [done|]. simpl.
    etrans; [apply pool_length_step|done]. }
  specialize (H (steps_bound (Outer W0 []))). rewrite merge_groups_Done in H.
  unfold pool in H. simpl in H. by rewrite app_nil_r in H.
Qed.

(** X4.  The reducer returns at most one group for each non-empty input
    group, and it returns no group exactly when every input group is
    empty (the empty list among them). *)
Theorem reduce_size (initial_groups : list (list string)) :
  length (reduce_connection_groups GRID_PREFIXES E2E_PINS initial_groups)
  ≤ length (filter (λ g, g ≠ []) initial_groups)
  ∧ (reduce_connection_groups GRID_PREFIXES E2E_PINS initial_groups = []
     ↔ Forall (λ g, g = []) initial_groups).
Proof.
  pose proof (reduce_Permutation GRID_PREFIXES E2E_PINS initial_groups) as Hperm.
  split.
  - rewrite Hperm, length_fmap. unfold reduced_sets.
    etrans; [apply merge_groups_length|]. unfold working_groups.
    by rewrite length_fmap.
  - split.
    + intros Hnil. apply Forall_forall. intros g Hg.
      destruct (decide (g = [])) as [|Hne]; [done|].
      destruct (reduced_sets_cover initial_groups g Hg Hne) as (s & Hs & _).
      assert (Hin : canonical GRID_PREFIXES s ∈ reduce initial_groups).
      { apply elem_of_reduce. eauto. }
      rewrite Hnil in Hin. by apply elem_of_nil in Hin.
    + intros Hall. apply Permutation_nil. rewrite Hperm.
      unfold reduced_sets, working_groups.
      replace (filter (λ g, g ≠ []) initial_groups) with (@nil (list string)).
      { done. }
      symmetry. apply elem_of_nil_inv. intros g [Hne Hg]%list_elem_of_filter.
      rewrite Forall_forall in Hall. by apply Hne, Hall.
Qed.

End ReducerOrder.

Lemma reduce_disjoint_input_witness :
  (list_to_set <$> reduce_connection_groups ["B"] ["G"; "T"]
                     [["B4"]; ["B1"; "B2"]; []] : list (gset string))
  ≡ₚ (λ g, filter (λ x, retained ["B"] x) (list_to_set g))
       <$> filter (λ g, g ≠ []) [["B4"]; ["B1"; "B2"]; []].
Proof.
  apply (reduce_disjoint_input ["B"] ["G"; "T"] [["B4"]; ["B1"; "B2"]; []]).
  simpl. split; [|split; [|split; [constructor|done]]].
  - constructor; [|constructor; [|constructor]].
    + intros x ->%list_elem_of_singleton H. revert H. refute_by_compute.
    + intros x _ H. by apply elem_of_nil in H.
  - constructor; [|constructor]. intros x _ H. by apply elem_of_nil in H.
Defined.

(** ** The grid coordinate mapper: layout *)
Section GridLayout.

Local Open Scope Z_scope.

Lemma append_cons (x : ascii) (a b : string) :
  String x a +:+ b = String x (a +:+ b).
Proof. reflexivity. Qed.

Lemma append_assoc (a b c : string) : (a +:+ b) +:+ c = a +:+ b +:+ c.
Proof.
  induction a as [|x a IH]; [done|]. rewrite !append_cons. by rewrite IH.
Qed.

Lemma append_inj_l (a b c : string) : a +:+ b = a +:+ c → b = c.
Proof.
  induction a as [|x a IH]; [done|]. rewrite !append_cons.
  intros [= H]. by apply IH.
Qed.

Lemma get_append_r (a : string) (x : ascii) (b : string) :
  String.get (String.length a) (a +:+ String x b) = Some x.
Proof. induction a as [|y a IH]; [done|]. rewrite append_cons. exact IH. Qed.

Lemma substring_append_mid (a b c : string) :
  String.substring (String.length a) (String.length b) (a +:+ b +:+ c) = b.
Proof.
  induction a as [|y a IH]; [|rewrite append_cons; exact IH].
  change ("" +:+ b +:+ c) with (b +:+ c).
  induction b as [|z b IHb]; [by destruct c|].
  rewrite append_cons. simpl. f_equal. exact IHb.
Qed.

Lemma str_of_nat_inj (n m : nat) : str_of_nat n = str_of_nat m → n = m.
Proof.
  unfold str_of_nat. intros H. apply DecimalNat.Unsigned.to_uint_inj.
  assert (Hs : ∀ d, DecimalString.NilEmpty.uint_of_string
                      (DecimalString.NilEmpty.string_of_uint d) = Some d)
    by apply DecimalString.NilEmpty.usu.
  pose proof (Hs (Nat.to_uint n)) as Hn. rewrite H, Hs in Hn. congruence.
Qed.

Lemma cell_name_inj (prefix : string) (n m : nat) :
  cell_name prefix n = cell_name prefix m → n = m.
Proof. intros H%append_inj_l. by apply str_of_nat_inj. Qed.

Lemma len_concat_replicate (s : string) (k : nat) :
  len (String.concat "" (replicate k s)) = Z.of_nat k * len s.
Proof.
  induction k as [|k IH]; [done|].
  change (replicate (S k) s) with (s :: replicate k s).
  destruct k as [|k]; [simpl; lia|].
  change (String.concat "" (s :: replicate (S k) s))
    with (s +:+ "" +:+ String.concat "" (replicate (S k) s)).
  rewrite !len_append, IH. change (len "") with 0. lia.
Qed.

Lemma len_str_repeat (s : string) (n : Z) :
  len (str_repeat s n) = Z.max 0 n * len s.
Proof. unfold str_repeat. rewrite len_concat_replicate. lia. Qed.

Lemma land_bit_bounds (a b : Z) :
  0 ≤ Z.land (Z.land a b) 1 ≤ 1 ∧ (Z.even a = true → Z.land (Z.land a b) 1 = 0).
Proof.
  assert (H1 : ∀ x, Z.land x 1 = x mod 2).
  { intros x. change 1 with (Z.ones 1). by rewrite Z.land_ones by lia. }
  rewrite H1. split; [pose proof (Z.mod_pos_bound (Z.land a b) 2); lia|].
  intros Ha. rewrite <- Z.bit0_mod, Z.land_spec, Z.bit0_odd, <- Z.negb_even, Ha.
  done.
Qed.

Lemma len_center (s : string) (width : Z) :
  len s ≤ width → len (center s width) = width.
Proof.
  intros Hfit. unfold center.
  destruct (Z.leb_spec (width - len s) 0) as [H|H]; [lia|].
  set (marg := width - len s) in *.
  destruct (land_bit_bounds marg width) as [Hb He].
  set (bit := Z.land (Z.land marg width) 1) in *.
  assert (Hleft : 0 ≤ marg / 2 + bit ≤ marg).
  { pose proof (Z.div_mod marg 2 ltac:(lia)) as Hdm.
    pose proof (Zmod_even marg) as Hme.
    destruct (Z.even marg); [rewrite (He eq_refl)|]; lia. }
  rewrite !len_append, !len_str_repeat. change (len " ") with 1. lia.
Qed.

(** The cells of one grid line, started on ["|"] with [d0] the number of
    the first cell. *)
Lemma cells_layout (prefix : string) (w L : Z) (m0 : gmap string (Z * Z))
    (d0 t : nat) :
  (∀ j, (j < t)%nat → len (cell_name prefix (d0 + j)) ≤ w) →
  let st := Nat.iter t (cell_step prefix w L)
              {| row_str := "|"; coord_map := m0; dot_number := d0 |} in
  dot_number st = (d0 + t)%nat
  ∧ len (row_str st) = 1 + Z.of_nat t * (w + 1)
  ∧ (∀ j, (j < t)%nat →
       coord_map st !! cell_name prefix (d0 + j) = Some (L, (Z.of_nat j + 1) * (w + 1)))
  ∧ (∀ k, (∀ j, (j < t)%nat → k ≠ cell_name prefix (d0 + j)) →
       coord_map st !! k = m0 !! k)
  ∧ (∀ j, (j < t)%nat →
       cell_at w (row_str st) ((Z.of_nat j + 1) * (w + 1)) (cell_name prefix (d0 + j))).
Proof.
  intros Hfit. cbv zeta. induction t as [|t IH].
  - simpl. split; [lia|]. split; [done|]. repeat split; intros; lia.
  - destruct IH as (Hdot & Hlen & Hnew & Hold & Hrow); [intros j Hj; apply Hfit; lia|].
    simpl Nat.iter.
    set (st := Nat.iter t (cell_step prefix w L) _) in *.
    unfold cell_step. cbn [dot_number row_str coord_map].
    fold (cell_name prefix (dot_number st)). rewrite Hdot.
    pose proof (len_center (cell_name prefix (d0 + t)) w (Hfit t ltac:(lia))) as Hc.
    split; [lia|]. split.
    { rewrite !len_append, Hc, Hlen. change (len "|") with 1. lia. }
    split; [|split].
    + intros j Hj. destruct (decide (j = t)) as [->|Hne].
      * rewrite lookup_insert_eq, Hlen. do 2 f_equal. lia.
      * rewrite lookup_insert_ne; [apply Hnew; lia|].
        intros Heq%cell_name_inj. lia.
    + intros k Hk. rewrite lookup_insert_ne.
      * apply Hold. intros j Hj. apply Hk. lia.
      * intros Heq. by apply (Hk t ltac:(lia)).
    + intros j Hj. destruct (decide (j = t)) as [->|Hne].
      * exists (row_str st), "". split; [done|]. rewrite Hlen. lia.
      * destruct (Hrow j ltac:(lia)) as (pre & post & Hr & Hp).
        exists pre, (post +:+ center (cell_name prefix (d0 + t)) w +:+ "|").
        split; [|done]. rewrite Hr at 1. by rewrite !append_assoc.
Qed.

Lemma cell_coord_row (C w : Z) (i j : nat) :
  (j < Z.to_nat C)%nat →
  cell_coord C w (1 + i * Z.to_nat C + j)
  = (2 * Z.of_nat i + 1, (Z.of_nat j + 1) * (w + 1)).
Proof.
  intros Hj. unfold cell_coord.
  replace (1 + i * Z.to_nat C + j - 1)%nat with (j + i * Z.to_nat C)%nat by lia.
  rewrite Nat.div_add, Nat.Div0.mod_add by lia.
  by rewrite Nat.div_small, Nat.mod_small by lia.
Qed.

(** The grid after [i] passes of the outer loop. *)
Lemma rows_layout (prefix : string) (C R w : Z) (border : string) (i : nat) :
  names_fit prefix C R w → (i ≤ Z.to_nat R)%nat →
  let gs := foldl (row_step prefix C R w border)
              {| grid_lines := [border]; grid_coords := ∅; grid_dot := 1 |}
              (seq 0 i) in
  grid_dot gs = (1 + i * Z.to_nat C)%nat
  ∧ (∀ n, (1 ≤ n ≤ i * Z.to_nat C)%nat →
       grid_coords gs !! cell_name prefix n = Some (cell_coord C w n))
  ∧ (∀ k, (∀ n, (1 ≤ n ≤ i * Z.to_nat C)%nat → k ≠ cell_name prefix n) →
       grid_coords gs !! k = None)
  ∧ length (grid_lines gs)
    = (if (i =? 0)%nat || (i <? Z.to_nat R)%nat then 2 * i + 1 else 2 * i)%nat
  ∧ (∀ i', (2 * i' < length (grid_lines gs))%nat →
       grid_lines gs !! (2 * i')%nat = Some border)
  ∧ (∀ i', (i' < i)%nat →
       ∃ row, grid_lines gs !! (2 * i' + 1)%nat = Some row
              ∧ len row = 1 + C `max` 0 * (w + 1)
              ∧ ∀ j, (j < Z.to_nat C)%nat →
                  cell_at w row ((Z.of_nat j + 1) * (w + 1))
                          (cell_name prefix (1 + i' * Z.to_nat C + j))).
Proof.
  intros Hfit. cbv zeta. induction i as [|i IH]; intros Hi.
  - simpl. split; [done|]. split; [intros; lia|]. split; [done|]. split; [done|].
    split; [|intros; lia]. intros [|i'] Hi'; [done|simpl in Hi'; lia].
  - destruct IH as (Hdot & Hin & Hout & Hlen & Heven & Hodd); [lia|].
    rewrite seq_S, foldl_app. cbn [foldl Nat.add].
    set (gs := foldl _ _ (seq 0 i)) in *.
    assert (Hlen' : length (grid_lines gs) = (2 * i + 1)%nat).
    { rewrite Hlen. destruct (Nat.eqb_spec i 0), (Nat.ltb_spec i (Z.to_nat R));
        simpl; lia. }
    clear Hlen. unfold row_step. cbv zeta.
    destruct (cells_layout prefix w (2 * Z.of_nat i + 1) (grid_coords gs)
                (grid_dot gs) (Z.to_nat C))
      as (Hd & Hl & Hnew & Hold & Hrow).
    { intros j Hj. apply Hfit. rewrite Hdot. nia. }
    set (row := Nat.iter (Z.to_nat C) _ _) in *.
    cbn [grid_dot grid_coords grid_lines].
    split; [lia|]. split; [|split; [|split; [|split]]].
    + intros n Hn. destruct (decide (n ≤ i * Z.to_nat C)%nat) as [Hle|Hgt].
      * rewrite Hold; [apply Hin; lia|].
        intros j Hj Heq%cell_name_inj. lia.
      * replace n with (grid_dot gs + (n - 1 - i * Z.to_nat C))%nat by lia.
        rewrite Hnew by lia. rewrite Hdot, cell_coord_row by lia. done.
    + intros k Hk. rewrite Hold.
      * apply Hout. intros n Hn. apply Hk. lia.
      * intros j Hj. apply Hk. lia.
    + destruct (Z.ltb_spec (Z.of_nat i) (R - 1)), (Nat.ltb_spec (S i) (Z.to_nat R));
        try lia; simpl; rewrite ?length_app, Hlen'; simpl; lia.
    + intros i' Hi'.
      assert (Hcase : (2 * i' < 2 * i + 1)%nat ∨ (i' = S i ∧ Z.of_nat i < R - 1)).
      { destruct (Z.ltb_spec (Z.of_nat i) (R - 1));
          rewrite ?length_app, Hlen' in Hi'; simpl in Hi'; lia. }
      destruct Hcase as [Hlt|[-> Hlt]].
      * assert (Hl0 : (grid_lines gs ++ [row_str row]) !! (2 * i')%nat = Some border).
        { rewrite lookup_app_l by (rewrite Hlen'; lia). apply Heven. lia. }
        destruct (Z.of_nat i <? R - 1); [|done].
        rewrite lookup_app_l; [done|]. rewrite length_app. simpl. lia.
      * destruct (Z.ltb_spec (Z.of_nat i) (R - 1)); [|lia].
        rewrite lookup_app_r.
        -- rewrite length_app, Hlen'. simpl length.
           by replace (2 * S i - (2 * i + 1 + 1))%nat with 0%nat by lia.
        -- rewrite length_app, Hlen'. simpl length. lia.
    + intros i' Hi'.
      assert (Hrows : ∃ r, (grid_lines gs ++ [row_str row]) !! (2 * i' + 1)%nat = Some r
                ∧ len r = 1 + C `max` 0 * (w + 1)
                ∧ ∀ j, (j < Z.to_nat C)%nat →
                    cell_at w r ((Z.of_nat j + 1) * (w + 1))
                            (cell_name prefix (1 + i' * Z.to_nat C + j))).
      { destruct (decide (i' = i)) as [->|Hne].
        - exists (row_str row). split; [|split].
          + rewrite lookup_app_r; rewrite Hlen'; [|lia].
            by replace (2 * i + 1 - (2 * i + 1))%nat with 0%nat by lia.
          + rewrite Hl. by replace (C `max` 0) with (Z.of_nat (Z.to_nat C)) by lia.
          + intros j Hj. rewrite <- Hdot. by apply Hrow.
        - destruct (Hodd i' ltac:(lia)) as (r & Hr & Hrest). exists r.
          split; [|done]. rewrite lookup_app_l; [done|]. rewrite Hlen'. lia. }
      destruct Hrows as (r & Hr & Hrest). exists r. split; [|done].
      destruct (Z.of_nat i <? R - 1); [|done].
      rewrite lookup_app_l; [done|]. by eapply lookup_lt_Some.
Qed.

Lemma len_border (C w : Z) :
  0 ≤ C → 0 ≤ w →
  len ("+" +:+ str_repeat (str_repeat "-" w +:+ "+") C) = 1 + C * (w + 1).
Proof.
  intros HC Hw. rewrite len_append, len_str_repeat, len_append, len_str_repeat.
  change (len "+") with 1. change (len "-") with 1. lia.
Qed.

Lemma grid_rectangular (prefix : string) (C R cell_width : Z) :
  names_fit prefix C R cell_width → 0 ≤ C → 1 ≤ R → 0 ≤ cell_width →
  let lines := (generate_ascii_grid prefix C R cell_width).1 in
  Z.of_nat (length lines) = 2 * R + 1
  ∧ Forall (λ line, len line = 1 + C * (cell_width + 1)) lines.
Proof.
  intros Hfit HC HR Hw. unfold generate_ascii_grid. cbv zeta. cbn [fst].
  set (border := "+" +:+ str_repeat (str_repeat "-" cell_width +:+ "+") C).
  destruct (rows_layout prefix C R cell_width border (Z.to_nat R) Hfit (le_n _))
    as (_ & _ & _ & Hlen & Heven & Hodd).
  set (gs := foldl _ _ _) in *.
  assert (Hlen' : length (grid_lines gs) = (2 * Z.to_nat R)%nat).
  { rewrite Hlen. destruct (Nat.eqb_spec (Z.to_nat R) 0); [lia|].
    destruct (Nat.ltb_spec (Z.to_nat R) (Z.to_nat R)); [lia|done]. }
  split; [rewrite length_app, Hlen'; simpl; lia|].
  apply Forall_app. split; [|by repeat constructor; apply len_border].
  apply Forall_lookup. intros idx line Hline.
  pose proof (lookup_lt_Some _ _ _ Hline) as Hidx.
  destruct (Nat.Even_or_Odd idx) as [[i' ->]|[i' ->]].
  - rewrite Heven in Hline by lia. injection Hline as <-. by apply len_border.
  - destruct (Hodd i' ltac:(lia)) as (row & Hrow & Hl & _).
    rewrite Hrow in Hline. injection Hline as <-. rewrite Hl. lia.
Qed.

(** X5.  For a grid of at least one row whose labels fit their cells,
    [generate_ascii_grid] returns [2 R + 1] lines, all of the same width
    [1 + C (cell_width + 1)]: a rectangle of text. *)
Theorem generate_ascii_grid_rectangular (prefix : string) (C R cell_width : Z) :
  names_fit prefix C R cell_width → 0 ≤ C → 1 ≤ R → 0 ≤ cell_width →
  let lines := (generate_ascii_grid prefix C R cell_width).1 in
  Z.of_nat (length lines) = 2 * R + 1
  ∧ Forall (λ line, len line = 1 + C * (cell_width + 1)) lines.
Proof. apply grid_rectangular. Qed.

Lemma grid_coords_closed (prefix : string) (C R cell_width : Z)
    (k : string) (v : Z * Z) :
  names_fit prefix C R cell_width →
  (generate_ascii_grid prefix C R cell_width).2 !! k = Some v
  ↔ ∃ n, (1 ≤ n ≤ Z.to_nat C * Z.to_nat R)%nat
         ∧ k = cell_name prefix n ∧ v = cell_coord C cell_width n.
Proof.
  intros Hfit. unfold generate_ascii_grid. cbv zeta. cbn [snd].
  set (border := "+" +:+ str_repeat (str_repeat "-" cell_width +:+ "+") C).
  destruct (rows_layout prefix C R cell_width border (Z.to_nat R) Hfit (le_n _))
    as (_ & Hin & Hout & _).
  set (gs := foldl _ _ _) in *. split.
  - intros Hk.
    assert (Hex : ¬ ∀ n, (1 ≤ n ≤ Z.to_nat R * Z.to_nat C)%nat → k ≠ cell_name prefix n).
    { intros Hall. rewrite (Hout k Hall) in Hk. done. }
    assert (Hn : ∃ n, (1 ≤ n ≤ Z.to_nat R * Z.to_nat C)%nat ∧ k = cell_name prefix n).
    { clear -Hex. induction (Z.to_nat R * Z.to_nat C)%nat as [|b IH].
      - destruct Hex. intros; lia.
      - destruct (decide (k = cell_name prefix (S b))) as [->|Hne].
        + exists (S b). split; [lia|done].
        + destruct IH as (n & Hn & ->).
          * intros Hall. apply Hex. intros n Hn.
            destruct (decide (n = S b)) as [->|]; [done|]. apply Hall. lia.
          * exists n. split; [lia|done]. }
    destruct Hn as (n & Hn & ->). exists n. split; [lia|]. split; [done|].
    rewrite Hin in Hk by done. congruence.
  - intros (n & Hn & -> & ->). apply Hin. lia.
Qed.

(** X6.  When the labels fit their cells, the coordinate map has exactly
    the labels [prefix 1 .. prefix (C R)], the cells numbered row by row
    from 1: cell [n] is on line [2 ((n-1) / C) + 1] and its closing
    border is at column [((n-1) mod C + 1) (cell_width + 1)]. *)
Theorem generate_ascii_grid_coords (prefix : string) (C R cell_width : Z)
    (k : string) (v : Z * Z) :
  names_fit prefix C R cell_width →
  (generate_ascii_grid prefix C R cell_width).2 !! k = Some v
  ↔ ∃ n, (1 ≤ n ≤ Z.to_nat C * Z.to_nat R)%nat
         ∧ k = cell_name prefix n ∧ v = cell_coord C cell_width n.
Proof. apply grid_coords_closed. Qed.

(** X7.  When the labels fit their cells, the coordinate recorded for a
    pin points into the text: on the recorded line the closing border
    ["|"] stands at the recorded column, and the [cell_width] columns
    before it hold the centred label of the pin. *)
Theorem generate_ascii_grid_cell (prefix : string) (C R cell_width : Z)
    (k : string) (l c : Z) :
  names_fit prefix C R cell_width →
  (generate_ascii_grid prefix C R cell_width).2 !! k = Some (l, c) →
  ∃ row, (generate_ascii_grid prefix C R cell_width).1 !! Z.to_nat l = Some row
         ∧ String.get (Z.to_nat c) row = Some "|"%char
         ∧ String.substring (Z.to_nat (c - cell_width)) (Z.to_nat cell_width) row
           = center k cell_width.
Proof.
  intros Hfit Hk.
  apply grid_coords_closed in Hk as (n & Hn & -> & Hv); [|done].
  pose proof (Hfit n Hn) as Hfitn.
  assert (HC : (0 < Z.to_nat C)%nat) by nia.
  set (i := ((n - 1) / Z.to_nat C)%nat). set (j := ((n - 1) mod Z.to_nat C)%nat).
  assert (Hj : (j < Z.to_nat C)%nat) by (apply Nat.mod_upper_bound; lia).
  assert (Hnij : n = (1 + i * Z.to_nat C + j)%nat).
  { pose proof (Nat.div_mod_eq (n - 1) (Z.to_nat C)). unfold i, j. lia. }
  assert (Hi : (i < Z.to_nat R)%nat) by nia.
  unfold cell_coord in Hv. fold i j in Hv. injection Hv as -> ->.
  unfold generate_ascii_grid. cbv zeta. cbn [fst].
  set (border := "+" +:+ str_repeat (str_repeat "-" cell_width +:+ "+") C).
  destruct (rows_layout prefix C R cell_width border (Z.to_nat R) Hfit (le_n _))
    as (_ & _ & _ & _ & _ & Hodd).
  destruct (Hodd i Hi) as (row & Hrow & _ & Hcells).
  destruct (Hcells j Hj) as (pre & post & -> & Hpre). rewrite <- Hnij in *.
  pose proof (len_center _ _ Hfitn) as Hc. unfold len in Hc, Hpre.
  exists (pre +:+ center (cell_name prefix n) cell_width +:+ "|" +:+ post).
  split; [|split].
  - replace (Z.to_nat (2 * Z.of_nat i + 1)) with (2 * i + 1)%nat by lia.
    by apply lookup_app_l_Some.
  - rewrite <- append_assoc.
    replace (Z.to_nat ((Z.of_nat j + 1) * (cell_width + 1)))
      with (String.length (pre +:+ center (cell_name prefix n) cell_width)).
    + apply get_append_r.
    + pose proof (len_append pre (center (cell_name prefix n) cell_width)) as Hl.
      unfold len in Hl. lia.
  - replace (Z.to_nat ((Z.of_nat j + 1) * (cell_width + 1) - cell_width))
      with (String.length pre) by lia.
    replace (Z.to_nat cell_width)
      with (String.length (center (cell_name prefix n) cell_width)) by lia.
    apply substring_append_mid.
Qed.

Lemma length_pad_lines (lines : list string) (max_R : Z) :
  Z.of_nat (length (pad_lines lines max_R))
  = Z.max (Z.of_nat (length lines)) (2 * max_R + 1).
Proof.
  unfold pad_lines. destruct (Z.ltb_spec (Z.of_nat (length lines)) (2 * max_R + 1)).
  - rewrite length_app, length_replicate. lia.
  - lia.
Qed.

(** X8.  Padding brings every grid of [1] to [max_R] rows whose labels
    fit to the common height [2 max_R + 1]: the lines of the grid come
    first, unchanged, so the recorded coordinates stay right, and the
    blank lines added have the width of the grid. *)
Theorem padded_grid_height (prefix : string) (C R cell_width max_R : Z) :
  names_fit prefix C R cell_width → 0 ≤ C → 1 ≤ R ≤ max_R → 0 ≤ cell_width →
  let lines := (generate_ascii_grid prefix C R cell_width).1 in
  let padded := (padded_grid prefix C R cell_width max_R).1 in
  Z.of_nat (length padded) = 2 * max_R + 1
  ∧ take (length lines) padded = lines
  ∧ Forall (λ line, len line = 1 + C * (cell_width + 1)) padded
  ∧ (padded_grid prefix C R cell_width max_R).2
    = (generate_ascii_grid prefix C R cell_width).2.
Proof.
  intros Hfit HC HR Hw.
  destruct (grid_rectangular prefix C R cell_width Hfit HC
              ltac:(lia) Hw) as [Hlen Hall].
  unfold padded_grid.
  destruct (generate_ascii_grid prefix C R cell_width) as [lines coords].
  cbn [fst snd] in *. split; [rewrite length_pad_lines; lia|].
  unfold pad_lines.
  destruct (Z.ltb_spec (Z.of_nat (length lines)) (2 * max_R + 1)).
  - split; [by rewrite take_app_length|]. split; [|done].
    apply Forall_app. split; [done|]. apply Forall_replicate.
    destruct lines as [|l0 lines]; [simpl in Hlen; lia|].
    apply Forall_cons in Hall as [Hl0 _]. rewrite len_str_repeat, Hl0.
    change (len " ") with 1. nia.
  - split; [by rewrite firstn_all|done].
Qed.

End GridLayout.

Lemma names_fit_A_2x2 : names_fit "A" 2 2 4.
Proof.
  intros n Hn. change (Z.to_nat 2 * Z.to_nat 2)%nat with 4%nat in Hn.
  assert (Hcases : n = 1%nat ∨ n = 2%nat ∨ n = 3%nat ∨ n = 4%nat) by lia.
  destruct Hcases as [->|[->|[->| ->]]]; by vm_compute.
Qed.

Lemma generate_ascii_grid_rectangular_witness :
  let lines := (generate_ascii_grid "A" 2 2 4).1 in
  Z.of_nat (length lines) = (2 * 2 + 1)%Z
  ∧ Forall (λ line, len line = (1 + 2 * (4 + 1))%Z) lines.
Proof.
  apply (generate_ascii_grid_rectangular "A" 2 2 4); [apply names_fit_A_2x2|lia..].
Defined.

Lemma generate_ascii_grid_coords_witness :
  (generate_ascii_grid "A" 2 2 4).2 !! "A3" = Some (3, 5)%Z
  ↔ ∃ n, (1 ≤ n ≤ Z.to_nat 2 * Z.to_nat 2)%nat
         ∧ "A3" = cell_name "A" n ∧ (3, 5)%Z = cell_coord 2 4 n.
Proof.
  apply (generate_ascii_grid_coords "A" 2 2 4 "A3" (3, 5)%Z), names_fit_A_2x2.
Defined.

Lemma generate_ascii_grid_cell_witness :
  ∃ row, (generate_ascii_grid "A" 2 2 4).1 !! Z.to_nat 3 = Some row
         ∧ String.get (Z.to_nat 5) row = Some "|"%char
         ∧ String.substring (Z.to_nat (5 - 4)) (Z.to_nat 4) row = center "A3" 4.
Proof.
  apply (generate_ascii_grid_cell "A" 2 2 4 "A3" 3 5); [apply names_fit_A_2x2|].
  vm_compute. reflexivity.
Defined.

Lemma padded_grid_height_witness :
  let lines := (generate_ascii_grid "A" 2 2 4).1 in
  let padded := (padded_grid "A" 2 2 4 4).1 in
  Z.of_nat (length padded) = (2 * 4 + 1)%Z
  ∧ take (length lines) padded = lines
  ∧ Forall (λ line, len line = (1 + 2 * (4 + 1))%Z) padded
  ∧ (padded_grid "A" 2 2 4 4).2 = (generate_ascii_grid "A" 2 2 4).2.
Proof.
  apply (padded_grid_height "A" 2 2 4 4); [apply names_fit_A_2x2|lia..].
Defined.

(** ** The short analyser, terminal by terminal *)
Section ShortsByTerminal.

Variable GRID_PREFIXES : list string.
Variable E2E_PINS : list string.
Variable external_color_map : gmap string string.

Local Abbreviation color_of x := (default NEUTRAL_BACKGROUND (external_color_map !! x)).

Lemma record_short_lookup (e2e_pin item : string)
    (m : gmap string (gmap string string)) (p x : string) :
  shorted_to_of (record_short external_color_map e2e_pin m item) p !! x
  = match shorted_to_of m p !! x with
    | Some c => Some c
    | None => if bool_decide (p = e2e_pin ∧ x = item ∧ x ≠ e2e_pin)
              then Some (color_of x) else None
    end.
Proof.
  unfold record_short, shorted_to_of.
  destruct (bool_decide_reflect (item ≠ e2e_pin)) as [Hne|He].
  - destruct (bool_decide_reflect (item ∈ (dom (default ∅ (m !! e2e_pin)) : gset string)))
      as [Hin|Hnin].
    + destruct (default ∅ (m !! p) !! x) as [c|] eqn:Hc; [done|].
      rewrite bool_decide_eq_false_2; [done|]. intros (-> & -> & _).
      apply elem_of_dom in Hin as [c' Hc']. congruence.
    + destruct (decide (p = e2e_pin)) as [->|Hp].
      * rewrite lookup_insert_eq. simpl.
        destruct (decide (x = item)) as [->|Hx].
        -- rewrite lookup_insert_eq. apply not_elem_of_dom in Hnin. rewrite Hnin.
           by rewrite bool_decide_eq_true_2.
        -- rewrite lookup_insert_ne by done.
           destruct (default ∅ (m !! e2e_pin) !! x); [done|].
           rewrite bool_decide_eq_false_2; [done|]. by intros (_ & ? & _).
      * rewrite lookup_insert_ne by done.
        destruct (default ∅ (m !! p) !! x); [done|].
        rewrite bool_decide_eq_false_2; [done|]. by intros (? & _).
  - destruct (default ∅ (m !! p) !! x); [done|].
    rewrite bool_decide_eq_false_2; [done|]. intros (_ & -> & Hx).
    apply He. done.
Qed.

Lemma record_short_dom (e2e_pin item : string)
    (m : gmap string (gmap string string)) :
  e2e_pin ∈ dom m → dom (record_short external_color_map e2e_pin m item) = dom m.
Proof.
  intros Hin. unfold record_short.
  destruct (bool_decide (item ≠ e2e_pin)); [|done].
  destruct (bool_decide (item ∈ dom (default ∅ (m !! e2e_pin)))); [done|].
  rewrite dom_insert_L. apply set_eq. intros k.
  rewrite elem_of_union, elem_of_singleton. split; [|by right].
  by intros [->|?].
Qed.

Lemma record_all_lookup (e2e_pin : string) (l : list string)
    (m : gmap string (gmap string string)) (p x : string) :
  shorted_to_of (foldl (record_short external_color_map e2e_pin) m l) p !! x
  = match shorted_to_of m p !! x with
    | Some c => Some c
    | None => if bool_decide (p = e2e_pin ∧ x ∈ l ∧ x ≠ e2e_pin)
              then Some (color_of x) else None
    end.
Proof.
  revert m. induction l as [|item l IH]; intros m; cbn [foldl].
  - destruct (shorted_to_of m p !! x); [done|].
    rewrite bool_decide_eq_false_2; [done|]. intros (_ & H%elem_of_nil & _). done.
  - rewrite IH, record_short_lookup.
    destruct (shorted_to_of m p !! x); [done|].
    destruct (bool_decide_reflect (p = e2e_pin ∧ x = item ∧ x ≠ e2e_pin))
      as [(-> & -> & Hne)|Hn].
    + rewrite bool_decide_eq_true_2; [done|]. split; [done|]. split; [left|done].
    + destruct (bool_decide_reflect (p = e2e_pin ∧ x ∈ l ∧ x ≠ e2e_pin))
        as [(-> & Hin & Hne)|Hn'].
      * rewrite bool_decide_eq_true_2; [done|]. split; [done|]. split; [by right|done].
      * rewrite bool_decide_eq_false_2; [done|].
        intros (-> & [->|Hin]%elem_of_cons & Hne); [by apply Hn|by apply Hn'].
Qed.

Lemma record_all_dom (e2e_pin : string) (l : list string)
    (m : gmap string (gmap string string)) :
  e2e_pin ∈ dom m → dom (foldl (record_short external_color_map e2e_pin) m l) = dom m.
Proof.
  revert m. induction l as [|item l IH]; intros m Hin; simpl; [done|].
  rewrite IH; rewrite record_short_dom; done.
Qed.

Lemma record_pins_lookup (pins l : list string)
    (m : gmap string (gmap string string)) (p x : string) :
  shorted_to_of
    (foldl (λ m e2e_pin, foldl (record_short external_color_map e2e_pin) m l) m pins)
    p !! x
  = match shorted_to_of m p !! x with
    | Some c => Some c
    | None => if bool_decide (p ∈ pins ∧ x ∈ l ∧ x ≠ p)
              then Some (color_of x) else None
    end.
Proof.
  revert m. induction pins as [|pin pins IH]; intros m; cbn [foldl].
  - destruct (shorted_to_of m p !! x); [done|].
    rewrite bool_decide_eq_false_2; [done|]. intros (H%elem_of_nil & _). done.
  - rewrite IH, record_all_lookup.
    destruct (shorted_to_of m p !! x); [done|].
    destruct (bool_decide_reflect (p = pin ∧ x ∈ l ∧ x ≠ pin)) as [(-> & Hin & Hne)|Hn].
    + rewrite bool_decide_eq_true_2; [done|]. split; [left|done].
    + destruct (bool_decide_reflect (p ∈ pins ∧ x ∈ l ∧ x ≠ p)) as [(Hp & Hin & Hne)|Hn'].
      * rewrite bool_decide_eq_true_2; [done|]. split; [by right|done].
      * rewrite bool_decide_eq_false_2; [done|].
        intros ([->|Hp]%elem_of_cons & Hin & Hne); [by apply Hn|by apply Hn'].
Qed.

Lemma record_pins_dom (pins l : list string) (m : gmap string (gmap string string)) :
  (∀ pin, pin ∈ pins → pin ∈ dom m) →
  dom (foldl (λ m e2e_pin, foldl (record_short external_color_map e2e_pin) m l) m pins)
  = dom m.
Proof.
  revert m. induction pins as [|pin pins IH]; intros m Hin; simpl; [done|].
  assert (Hd : dom (foldl (record_short external_color_map pin) m l) = dom m)
    by (apply record_all_dom, Hin; left).
  rewrite IH; [done|]. intros pin' Hpin'. rewrite Hd. apply Hin. by right.
Qed.

Lemma analyse_group_lookup (st : analysis) (group : list string) (p x : string) :
  shorted_to_of
    (e2e_shorts_map (analyse_group GRID_PREFIXES E2E_PINS external_color_map st group))
    p !! x
  = match shorted_to_of (e2e_shorts_map st) p !! x with
    | Some c => Some c
    | None => if bool_decide (p ∈ E2E_PINS ∧ p ∈ group
                              ∧ x ∈ all_non_pin_items GRID_PREFIXES group ∧ x ≠ p)
              then Some (color_of x) else None
    end.
Proof.
  unfold analyse_group. cbn [e2e_shorts_map]. rewrite record_pins_lookup.
  destruct (shorted_to_of (e2e_shorts_map st) p !! x); [done|].
  apply (f_equal (λ b : bool, if b then Some (color_of x) else None)).
  apply bool_decide_ext. rewrite elem_of_present_e2e_pins, elem_of_elements. tauto.
Qed.

Lemma analyse_group_dom (st : analysis) (group : list string) :
  (∀ pin, pin ∈ E2E_PINS → pin ∈ dom (e2e_shorts_map st)) →
  dom (e2e_shorts_map (analyse_group GRID_PREFIXES E2E_PINS external_color_map st group))
  = dom (e2e_shorts_map st).
Proof.
  intros Hin. unfold analyse_group. cbn [e2e_shorts_map].
  apply record_pins_dom. intros pin [Hpin _]%elem_of_present_e2e_pins. by apply Hin.
Qed.

Lemma analyse_all_lookup (groups : list (list string)) (st : analysis) (p x : string) :
  shorted_to_of
    (e2e_shorts_map
       (foldl (analyse_group GRID_PREFIXES E2E_PINS external_color_map) st groups))
    p !! x
  = match shorted_to_of (e2e_shorts_map st) p !! x with
    | Some c => Some c
    | None => if bool_decide (p ∈ E2E_PINS ∧ x ≠ p
                              ∧ Exists (λ g, p ∈ g ∧ x ∈ all_non_pin_items GRID_PREFIXES g)
                                       groups)
              then Some (color_of x) else None
    end.
Proof.
  revert st. induction groups as [|g groups IH]; intros st; cbn [foldl].
  - destruct (shorted_to_of (e2e_shorts_map st) p !! x); [done|].
    rewrite bool_decide_eq_false_2; [done|]. intros (_ & _ & H%Exists_nil). done.
  - rewrite IH, analyse_group_lookup.
    destruct (shorted_to_of (e2e_shorts_map st) p !! x); [done|].
    destruct (bool_decide_reflect (p ∈ E2E_PINS ∧ p ∈ g
                ∧ x ∈ all_non_pin_items GRID_PREFIXES g ∧ x ≠ p))
      as [(Hp & Hg & Hx & Hne)|Hn].
    + rewrite bool_decide_eq_true_2; [done|]. split; [done|]. split; [done|].
      by apply Exists_cons_hd.
    + apply (f_equal (λ b : bool, if b then Some (color_of x) else None)).
      apply bool_decide_ext. rewrite Exists_cons. split; [tauto|].
      intros (Hp & Hne & [[Hg Hx]|Hex]); [|done]. destruct Hn. done.
Qed.

Lemma analyse_all_dom (groups : list (list string)) (st : analysis) :
  (∀ pin, pin ∈ E2E_PINS → pin ∈ dom (e2e_shorts_map st)) →
  dom (e2e_shorts_map
         (foldl (analyse_group GRID_PREFIXES E2E_PINS external_color_map) st groups))
  = dom (e2e_shorts_map st).
Proof.
  revert st. induction groups as [|g groups IH]; intros st Hin; simpl; [done|].
  rewrite IH; rewrite analyse_group_dom; done.
Qed.

Lemma shorts_init_dom :
  dom (list_to_map ((λ pin, (pin, ∅)) <$> E2E_PINS) : gmap string (gmap string string))
  = list_to_set E2E_PINS.
Proof.
  rewrite dom_list_to_map_L, <- list_fmap_compose. f_equal.
  etrans; [|apply list_fmap_id]. by apply list_fmap_ext.
Qed.

Lemma shorts_init_lookup (p x : string) :
  shorted_to_of (list_to_map ((λ pin, (pin, ∅)) <$> E2E_PINS)) p !! x
  = (None : option string).
Proof.
  unfold shorted_to_of.
  destruct (list_to_map ((λ pin, (pin, ∅)) <$> E2E_PINS) !! p) as [v|] eqn:Hv;
    simpl; [|done].
  apply elem_of_list_to_map_2, list_elem_of_fmap in Hv as (pin & [= -> ->] & _).
  done.
Qed.

Lemma short_analysis_lookup (groups : list (list string)) (pin x c : string) :
  shorted_to_of (short_analysis GRID_PREFIXES E2E_PINS groups external_color_map).1 pin
    !! x = Some c
  ↔ pin ∈ E2E_PINS ∧ x ≠ pin ∧ grouped_with GRID_PREFIXES groups pin x
    ∧ c = color_of x.
Proof.
  unfold short_analysis. cbn [fst]. rewrite analyse_all_lookup, shorts_init_lookup.
  unfold grouped_with.
  destruct (bool_decide_reflect (pin ∈ E2E_PINS ∧ x ≠ pin
              ∧ Exists (λ g, pin ∈ g ∧ x ∈ all_non_pin_items GRID_PREFIXES g) groups))
    as [(Hp & Hne & Hex)|Hn].
  - split.
    + intros [= <-]. split; [done|]. split; [done|]. split; [|done].
      apply Exists_exists in Hex as (g & Hg & Hpg & Hx).
      apply elem_of_all_non_pin_items in Hx as (Hx & Hnp & Hng).
      by exists g.
    + by intros (_ & _ & _ & ->).
  - split; [done|]. intros (Hp & Hne & (g & Hg & Hpg & Hx & Hnp & Hng) & _).
    destruct Hn. split; [done|]. split; [done|]. apply Exists_exists.
    exists g. split; [done|]. split; [done|].
    by apply elem_of_all_non_pin_items.
Qed.

(** X9.  What the short analyser records.  The map of shorts has an
    entry for each declared terminal and for nothing else.  The entry of
    a terminal lists [x] exactly when [x] is another token, neither a
    switch pin nor a grid definition, of a group the terminal is in; the
    colour kept with it is the one of [external_color_map], the neutral
    background if it has none.  No terminal is listed as shorted to
    itself. *)
Theorem short_analysis_shorts (groups : list (list string)) (pin x c : string) :
  let shorts := (short_analysis GRID_PREFIXES E2E_PINS groups external_color_map).1 in
  dom shorts = list_to_set E2E_PINS
  ∧ (shorted_to_of shorts pin !! x = Some c
     ↔ pin ∈ E2E_PINS ∧ x ≠ pin ∧ grouped_with GRID_PREFIXES groups pin x
       ∧ c = default NEUTRAL_BACKGROUND (external_color_map !! x))
  ∧ shorted_to_of shorts pin !! pin = None.
Proof.
  cbv zeta. split; [|split].
  - unfold short_analysis. cbn [fst]. rewrite analyse_all_dom; [apply shorts_init_dom|].
    intros p Hp. cbn [e2e_shorts_map]. rewrite shorts_init_dom.
    by apply elem_of_list_to_set.
  - apply short_analysis_lookup.
  - apply eq_None_not_Some. intros [c' Hc'].
    apply short_analysis_lookup in Hc' as (_ & Hne & _). done.
Qed.

(** X10.  Between two declared terminals that are neither switch pins
    nor grid definitions the record is symmetric: one is listed under
    the other exactly when the other is listed under it. *)
Theorem short_analysis_symmetric (groups : list (list string)) (p q : string) :
  p ∈ E2E_PINS → q ∈ E2E_PINS →
  is_pin GRID_PREFIXES p = false → is_grid_definition p = false →
  is_pin GRID_PREFIXES q = false → is_grid_definition q = false →
  let shorts := (short_analysis GRID_PREFIXES E2E_PINS groups external_color_map).1 in
  q ∈ dom (shorted_to_of shorts p) ↔ p ∈ dom (shorted_to_of shorts q).
Proof.
  intros Hp Hq Hpp Hpg Hqp Hqg. cbv zeta. rewrite !elem_of_dom. unfold is_Some.
  setoid_rewrite short_analysis_lookup. unfold grouped_with. split.
  - intros (c & _ & Hne & (g & Hg & Hpin & Hx & _) & _).
    exists (color_of p). split; [done|]. split; [done|]. split; [|done]. by exists g.
  - intros (c & _ & Hne & (g & Hg & Hpin & Hx & _) & _).
    exists (color_of q). split; [done|]. split; [done|]. split; [|done]. by exists g.
Qed.

(** On groups of which no two share a member, no P-element of a group
    without terminal is a target of a short. *)
Lemma disjoint_candidates_isolated (groups : list (list string)) :
  groups_disjoint groups →
  Forall (λ g, is_truly_isolated
                 (shorted_targets GRID_PREFIXES E2E_PINS groups external_color_map)
                 (p_elements_in_group GRID_PREFIXES E2E_PINS g) = true)
         (filter (λ g, is_isolated_candidate GRID_PREFIXES E2E_PINS g) groups).
Proof.
  intros Hdis. apply Forall_forall. intros g [Hc Hg]%list_elem_of_filter.
  apply is_truly_isolated_spec. intros x Hx Ht.
  apply elem_of_shorted_targets in Ht as (g' & Hg' & pin & Hpin & Hx' & _).
  apply elem_of_p_elements_in_group in Hx as [Hx _].
  apply elem_of_all_non_pin_items in Hx as (Hx & _).
  apply elem_of_all_non_pin_items in Hx' as (Hx' & _).
  apply list_elem_of_lookup in Hg as [i Hi]. apply list_elem_of_lookup in Hg' as [j Hj].
  destruct (decide (i = j)) as [->|Hij].
  - assert (g' = g) as -> by congruence.
    apply Is_true_true in Hc. unfold is_isolated_candidate in Hc.
    apply andb_prop in Hc as [Hc _]. apply andb_prop in Hc as [_ Hc].
    apply bool_decide_eq_true in Hc. rewrite Hc in Hpin. by apply elem_of_nil in Hpin.
  - by apply (Hdis i j g g' Hij Hi Hj x).
Qed.

Lemma filter_all {A : Type} (P : A → Prop) `{∀ x, Decision (P x)} (l : list A) :
  Forall P l → filter P l = l.
Proof.
  induction 1 as [|a l Ha Hl IH]; [done|].
  rewrite filter_cons_True by done. by rewrite IH.
Qed.

Lemma short_analysis_isolated (groups : list (list string)) :
  groups_disjoint groups →
  (short_analysis GRID_PREFIXES E2E_PINS groups external_color_map).2
  = (λ g, sorted Re.upper str_le
            (elements (p_elements_in_group GRID_PREFIXES E2E_PINS g)))
      <$> filter (λ g, is_isolated_candidate GRID_PREFIXES E2E_PINS g) groups.
Proof.
  intros Hdis. pose proof (disjoint_candidates_isolated groups Hdis) as Hall.
  unfold shorted_targets in Hall. unfold short_analysis in *. cbn [fst snd] in *.
  rewrite isolated_analyse_all in *. cbn [isolated_p_groups app] in *.
  rewrite filter_all.
  - by rewrite <- list_fmap_compose.
  - apply Forall_fmap. eapply Forall_impl; [exact Hall|].
    intros g Hg. simpl. by apply Is_true_true.
Qed.

End ShortsByTerminal.

(** X11.  On the output of the reducer the last filter of the short
    analyser removes nothing: the groups reported as isolated are, in
    order, the P-elements of every group that has at least two of
    them, no other non-pin member and no declared terminal. *)
Theorem short_analysis_of_reduced (GRID_PREFIXES E2E_PINS : list string)
    (external_color_map : gmap string string) (initial_groups : list (list string)) :
  let groups := reduce_connection_groups GRID_PREFIXES E2E_PINS initial_groups in
  (short_analysis GRID_PREFIXES E2E_PINS groups external_color_map).2
  = (λ g, sorted Re.upper str_le
            (elements (p_elements_in_group GRID_PREFIXES E2E_PINS g)))
      <$> filter (λ g, is_isolated_candidate GRID_PREFIXES E2E_PINS g) groups.
Proof. apply short_analysis_isolated, reduce_groups_disjoint. Qed.

Lemma short_analysis_symmetric_witness :
  let shorts := (short_analysis ["A"] ["G"; "T"] [["G"; "T"; "A1"]] ∅).1 in
  "T" ∈ dom (shorted_to_of shorts "G") ↔ "G" ∈ dom (shorted_to_of shorts "T").
Proof.
  apply (short_analysis_symmetric ["A"] ["G"; "T"] ∅ [["G"; "T"; "A1"]] "G" "T");
    try (vm_compute; reflexivity).
  - apply list_elem_of_here.
  - apply list_elem_of_further, list_elem_of_here.
Defined.

(** A terminal named like a switch pin is never a target, so the record
    is not symmetric for it. *)
Example short_analysis_pin_named_terminal :
  let shorts := (short_analysis ["A"] ["A1"; "G"] [["A1"; "G"]] ∅).1 in
  dom (shorted_to_of shorts "A1") = {[ "G" ]} ∧ dom (shorted_to_of shorts "G") = ∅.
Proof. vm_compute. done. Qed.

(** ** The colour assigner on the groups of the reducer *)
Section SortedFacts.

Context {A K : Type} (key : A → K) (kle : K → K → bool).

(** A stable sort leaves a list that is in order as it is. *)
Lemma sorted_id (l : list A) :
  Sorted (key_le key kle) l → sorted key kle l = l.
Proof.
  induction 1 as [|a l Hl IH Ha]; [done|].
  change (sorted key kle (a :: l)) with (insert_sorted key kle a (sorted key kle l)).
  rewrite IH. destruct Ha as [|b l Hab]; [done|].
  simpl. unfold key_le in Hab. by rewrite Hab.
Qed.

Hypothesis kle_total : ∀ a b, kle a b = false → kle b a = true.
Hypothesis kle_trans : ∀ a b c, kle a b = true → kle b c = true → kle a c = true.
Hypothesis kle_antisym : ∀ a b, kle a b = true → kle b a = true → a = b.

Lemma insert_sorted_comm (x y : A) (s : list A) :
  key x ≠ key y →
  insert_sorted key kle x (insert_sorted key kle y s)
  = insert_sorted key kle y (insert_sorted key kle x s).
Proof.
  intros Hne. induction s as [|z s IH]; simpl.
  - destruct (kle (key x) (key y)) eqn:Hxy, (kle (key y) (key x)) eqn:Hyx; try done.
    + destruct Hne. by apply kle_antisym.
    + apply kle_total in Hxy. congruence.
  - destruct (kle (key y) (key z)) eqn:Hyz, (kle (key x) (key z)) eqn:Hxz; simpl;
      rewrite ?Hyz, ?Hxz.
    + destruct (kle (key x) (key y)) eqn:Hxy, (kle (key y) (key x)) eqn:Hyx; try done.
      * destruct Hne. by apply kle_antisym.
      * apply kle_total in Hxy. congruence.
    + destruct (kle (key x) (key y)) eqn:Hxy; [|done].
      rewrite (kle_trans _ _ _ Hxy Hyz) in Hxz. done.
    + destruct (kle (key y) (key x)) eqn:Hyx; [|done].
      rewrite (kle_trans _ _ _ Hyx Hxz) in Hyz. done.
    + by rewrite IH.
Qed.

(** With keys that are pairwise distinct the result of the sort does
    not depend on the order of the input. *)
Lemma sorted_unique (l1 l2 : list A) :
  l1 ≡ₚ l2 → NoDup (key <$> l1) → sorted key kle l1 = sorted key kle l2.
Proof.
  induction 1 as [|x l1 l2 Hp IH|x y l|l1 l2 l3 Hp1 IH1 Hp2 IH2]; intros Hnd.
  - done.
  - simpl. rewrite IH; [done|]. rewrite fmap_cons in Hnd. by apply NoDup_cons in Hnd as [_ ?].
  - simpl. apply insert_sorted_comm. rewrite !fmap_cons in Hnd.
    apply NoDup_cons in Hnd as [Hx _]. intros Heq. apply Hx. rewrite Heq. left.
  - rewrite IH1 by done. apply IH2. by rewrite <- Hp1.
Qed.

End SortedFacts.

Section ColorsOfGroups.

Variable GRID_PREFIXES : list string.
Variable E2E_PINS : list string.

Local Abbreviation reduce := (reduce_connection_groups GRID_PREFIXES E2E_PINS).
Local Abbreviation priority := (group_priority_key GRID_PREFIXES E2E_PINS).

Lemma priority_of_sort_key (g : list string) :
  priority g = Nat.min 2 (sort_key GRID_PREFIXES E2E_PINS g).1.
Proof.
  unfold group_priority_key, sort_key. destruct g as [|x g]; [done|].
  destruct (existsb _ (x :: g)); [done|].
  by destruct (0 <? length (filter _ (x :: g)))%nat.
Qed.

Lemma reduce_priority_sorted (initial_groups : list (list string)) :
  sorted priority Nat.leb (reduce initial_groups) = reduce initial_groups.
Proof.
  apply sorted_id. eapply Sorted_weaken; [|apply reduce_sorted_key].
  intros a b. unfold key_le, nat_str_le. rewrite !priority_of_sort_key.
  destruct (Nat.eqb_spec (sort_key GRID_PREFIXES E2E_PINS a).1
                         (sort_key GRID_PREFIXES E2E_PINS b).1) as [->|_].
  - intros _. apply Nat.leb_le. lia.
  - intros ?%Nat.leb_le. apply Nat.leb_le. lia.
Qed.

(** X12.  On the output of the reducer the priority sort of
    [calculate_global_colors] changes nothing, the list being in
    priority order already: [calculate_state_only_colors], which visits
    the groups as they come, returns the same maps, operations and
    items. *)
Theorem state_only_colors_agree (initial_groups : list (list string))
    (map_coords : gmap string (gmap string (Z * Z)))
    (state_pins_by_prefix : gmap string (gset string)) (cell_width : Z) :
  let groups := reduce_connection_groups GRID_PREFIXES E2E_PINS initial_groups in
  calculate_state_only_colors GRID_PREFIXES groups
    map_coords state_pins_by_prefix cell_width
  = calculate_global_colors GRID_PREFIXES E2E_PINS groups
      map_coords state_pins_by_prefix cell_width.
Proof.
  unfold calculate_state_only_colors, calculate_global_colors.
  by rewrite reduce_priority_sorted.
Qed.

(** *** Which tokens get a colour *)

Lemma color_item_classified (color : string) (maps : color_maps) (item : string) :
  maps_classified GRID_PREFIXES maps →
  maps_classified GRID_PREFIXES (color_item GRID_PREFIXES color maps item).
Proof.
  intros [Hp He Hi]. unfold color_item.
  destruct (is_pin GRID_PREFIXES item) eqn:Hpin.
  - destruct (dict_has (pin_color_map maps) item); [by split|].
    split; cbn [pin_color_map external_color_map all_unique_external_items];
      [|done..].
    intros x. rewrite dict_get_set. destruct (decide (x = item)) as [->|]; [done|].
    apply Hp.
  - destruct (is_grid_definition item) eqn:Hg; simpl; [by split|].
    destruct (is_e2e_pin_definition item) eqn:Hd; simpl; [by split|].
    split; cbn [pin_color_map external_color_map all_unique_external_items];
      [done|..].
    + intros x. rewrite dict_get_set. destruct (decide (x = item)) as [->|]; [|apply He].
      by intros _.
    + intros x. rewrite dict_get_set, elem_of_union, elem_of_singleton, Hi.
      destruct (decide (x = item)) as [->|]; [|by split; [intros [?|?]|right]].
      split; [by eexists|by left].
Qed.

Lemma color_groups_classified (colors : list (list string * string))
    (groups : list (list string)) (maps : color_maps) :
  maps_classified GRID_PREFIXES maps →
  maps_classified GRID_PREFIXES (foldl (color_group GRID_PREFIXES colors) maps groups).
Proof.
  revert maps. induction groups as [|g groups IH]; intros maps Hm; [done|].
  cbn [foldl]. apply IH. unfold color_group.
  generalize (default "" (dict_get colors g)). intros color.
  clear IH. revert maps Hm. induction g as [|item g IHg]; intros maps Hm; [done|].
  cbn [foldl]. by apply IHg, color_item_classified.
Qed.

Lemma classified_init :
  maps_classified GRID_PREFIXES
    {| pin_color_map := []; external_color_map := [];
       all_unique_external_items := ∅ |}.
Proof.
  split; cbn [pin_color_map external_color_map all_unique_external_items dict_get].
  - by intros x [c Hc].
  - by intros x [c Hc].
  - intros x. split; [by intros ?%elem_of_empty|by intros [c Hc]].
Qed.

Lemma first_color_is_Some (colors : list (list string * string))
    (groups : list (list string)) (x : string) :
  is_Some (first_color colors groups x) ↔ appears_in groups x.
Proof.
  unfold appears_in. induction groups as [|g groups IH]; simpl.
  - split; [by intros [c Hc]|]. by intros (g & ?%elem_of_nil & _).
  - destruct (bool_decide_reflect (x ∈ g)) as [Hx|Hx].
    + split; [|by eexists]. intros _. exists g. split; [left|done].
    + rewrite IH. split.
      * intros (g' & Hg' & Hx'). exists g'. split; [by right|done].
      * intros (g' & [->|Hg']%elem_of_cons & Hx'); [done|by exists g'].
Qed.

Lemma appears_in_Permutation (l1 l2 : list (list string)) (x : string) :
  l1 ≡ₚ l2 → appears_in l1 x ↔ appears_in l2 x.
Proof.
  intros Hp. unfold appears_in. by setoid_rewrite Hp.
Qed.

(** X13.  Which tokens [calculate_global_colors] colours, whatever the
    groups: the pin map has exactly the pins that are listed in some
    group, the external map exactly the listed tokens that are neither
    pins, nor grid definitions, nor [e2epins:] definitions, and the set
    of external items is the set of keys of the external map. *)
Theorem calculate_global_colors_domains (groups : list (list string))
    (map_coords : gmap string (gmap string (Z * Z)))
    (state_pins_by_prefix : gmap string (gset string)) (cell_width : Z) (x : string) :
  let '(pin_map, ext_map, _, items) :=
    calculate_global_colors GRID_PREFIXES E2E_PINS groups map_coords
      state_pins_by_prefix cell_width in
  (is_Some (dict_get pin_map x) ↔ is_pin GRID_PREFIXES x = true ∧ appears_in groups x)
  ∧ (is_Some (dict_get ext_map x)
     ↔ listed_external GRID_PREFIXES x ∧ appears_in groups x)
  ∧ (x ∈ items ↔ is_Some (dict_get ext_map x)).
Proof.
  unfold calculate_global_colors. cbv zeta.
  set (colors := group_to_color groups).
  set (sorted_groups := sorted priority Nat.leb groups).
  pose proof (color_groups_classified colors sorted_groups _ classified_init)
    as [Hp He Hi].
  assert (Happ : appears_in sorted_groups x ↔ appears_in groups x)
    by apply appears_in_Permutation, sorted_Permutation.
  split; [|split].
  - split.
    + intros Hx. pose proof (Hp x Hx) as Hpin. split; [done|].
      rewrite pin_colors_first_write in Hx by done. simpl in Hx.
      by apply Happ, (first_color_is_Some colors).
    + intros [Hpin Hx]. rewrite pin_colors_first_write by done. simpl.
      by apply first_color_is_Some, Happ.
  - split.
    + intros Hx. pose proof (He x Hx) as (Hpin & Hg & Hd). split; [done|].
      rewrite external_colors_last_write in Hx by (by rewrite ?Hg, ?Hd).
      simpl in Hx. unfold last_color in Hx.
      destruct (first_color colors (reverse sorted_groups) x) eqn:Hc;
        [|by destruct Hx].
      apply Happ. rewrite (appears_in_Permutation _ (reverse sorted_groups));
        [|by rewrite reverse_Permutation].
      apply (first_color_is_Some colors). by rewrite Hc.
    + intros [(Hpin & Hg & Hd) Hx].
      rewrite external_colors_last_write by (by rewrite ?Hg, ?Hd).
      apply Happ in Hx.
      rewrite (appears_in_Permutation _ (reverse sorted_groups)) in Hx
        by (by rewrite reverse_Permutation).
      apply (first_color_is_Some colors) in Hx as [c Hc].
      unfold last_color. by rewrite Hc.
  - apply Hi.
Qed.

(** *** One colour for each group *)

Lemma group_to_color_from (l : list (list string)) (d : list (list string * string))
    (n i : nat) (g : list string) :
  l !! i = Some g → (∀ j, l !! j = Some g → j = i) →
  dict_get (foldl (λ d '(i, group), dict_set d group (palette i)) d
                  (imap (λ i, pair (n + i)%nat) l)) g
  = Some (palette (n + i)).
Proof.
  revert i. induction l as [|a l IH] using rev_ind; intros i Hi Huniq; [done|].
  rewrite imap_app, foldl_app. cbn [imap foldl]. rewrite dict_get_set.
  destruct (decide (g = a)) as [<-|Hne].
  - f_equal. f_equal. rewrite Nat.add_0_r.
    rewrite (Huniq (length l)); [done|]. by rewrite list_lookup_middle.
  - assert (Hil : (i < length l)%nat).
    { pose proof (lookup_lt_Some _ _ _ Hi) as Hlt. rewrite length_app in Hlt.
      simpl in Hlt. destruct (decide (i = length l)) as [->|]; [|lia].
      rewrite list_lookup_middle in Hi by done. congruence. }
    apply IH.
    + by rewrite lookup_app_l in Hi.
    + intros j Hj. apply Huniq. rewrite lookup_app_l; [done|].
      by eapply lookup_lt_Some.
Qed.

Lemma group_to_color_lookup (groups : list (list string)) (i : nat) (g : list string) :
  groups !! i = Some g → (∀ j, groups !! j = Some g → j = i) →
  dict_get (group_to_color groups) g = Some (palette i).
Proof.
  intros Hi Huniq. exact (group_to_color_from groups [] 0 i g Hi Huniq).
Qed.

Lemma first_color_unique (colors : list (list string * string))
    (l : list (list string)) (g : list string) (x : string) :
  g ∈ l → x ∈ g → (∀ g', g' ∈ l → x ∈ g' → g' = g) →
  first_color colors l x = Some (default "" (dict_get colors g)).
Proof.
  intros Hg Hx Huniq. induction l as [|a l IH]; [by apply elem_of_nil in Hg|].
  simpl. destruct (bool_decide_reflect (x ∈ a)) as [Ha|Ha].
  - rewrite (Huniq a); [done|left|done].
  - apply IH.
    + apply elem_of_cons in Hg as [->|Hg]; done.
    + intros g' Hg'. apply Huniq. by right.
Qed.

Lemma disjoint_group_colors (groups : list (list string)) (i : nat)
    (g : list string) (x : string)
    (map_coords : gmap string (gmap string (Z * Z)))
    (state_pins_by_prefix : gmap string (gset string)) (cell_width : Z) :
  groups_disjoint groups → groups !! i = Some g → x ∈ g →
  let '(pin_map, ext_map, _, _) :=
    calculate_global_colors GRID_PREFIXES E2E_PINS groups map_coords
      state_pins_by_prefix cell_width in
  (is_pin GRID_PREFIXES x = true → dict_get pin_map x = Some (palette i))
  ∧ (listed_external GRID_PREFIXES x → dict_get ext_map x = Some (palette i)).
Proof.
  intros Hdis Hi Hx. unfold calculate_global_colors. cbv zeta.
  set (colors := group_to_color groups).
  set (sorted_groups := sorted priority Nat.leb groups).
  assert (Hcol : dict_get colors g = Some (palette i)).
  { apply group_to_color_lookup; [done|]. intros j Hj.
    destruct (decide (j = i)) as [|Hne]; [done|].
    by destruct (Hdis j i g g Hne Hj Hi x). }
  assert (Huniq : ∀ g', g' ∈ groups → x ∈ g' → g' = g).
  { intros g' [j Hj]%list_elem_of_lookup Hx'.
    destruct (decide (j = i)) as [->|Hne]; [congruence|].
    by destruct (Hdis j i g' g Hne Hj Hi x). }
  assert (Hg : g ∈ groups) by (by eapply list_elem_of_lookup_2).
  split.
  - intros Hpin. rewrite pin_colors_first_write by done. simpl.
    rewrite (first_color_unique colors sorted_groups g x); [by rewrite Hcol| |done|].
    + by apply elem_of_sorted.
    + intros g' Hg'%elem_of_sorted. by apply Huniq.
  - intros (Hpin & Hgd & Hd).
    rewrite external_colors_last_write by (by rewrite ?Hgd, ?Hd).
    unfold last_color.
    rewrite (first_color_unique colors (reverse sorted_groups) g x);
      [by rewrite Hcol| |done|].
    + by apply elem_of_reverse, elem_of_sorted.
    + intros g' Hg'%elem_of_reverse%elem_of_sorted. by apply Huniq.
Qed.

(** X14.  The colours of part 3.  On the output of the reducer every
    member of the [i]-th group gets the [i]-th colour of the palette
    (taken modulo its length): a pin in the pin map, any other member in
    the external map. *)
Theorem colors_of_reduced (initial_groups : list (list string)) (i : nat)
    (g : list string) (x : string)
    (map_coords : gmap string (gmap string (Z * Z)))
    (state_pins_by_prefix : gmap string (gset string)) (cell_width : Z) :
  reduce_connection_groups GRID_PREFIXES E2E_PINS initial_groups !! i = Some g →
  x ∈ g →
  let '(pin_map, ext_map, _, _) :=
    calculate_global_colors GRID_PREFIXES E2E_PINS
      (reduce_connection_groups GRID_PREFIXES E2E_PINS initial_groups)
      map_coords state_pins_by_prefix cell_width in
  dict_get (if is_pin GRID_PREFIXES x then pin_map else ext_map) x
  = Some (palette i).
Proof.
  intros Hi Hx.
  pose proof (disjoint_group_colors (reduce initial_groups) i g x map_coords
                state_pins_by_prefix cell_width
                (reduce_groups_disjoint GRID_PREFIXES E2E_PINS initial_groups) Hi Hx)
    as H.
  destruct (calculate_global_colors _ _ _ _ _ _) as [[[pin_map ext_map] ops] items].
  destruct H as [Hpin Hext].
  destruct (is_pin GRID_PREFIXES x) eqn:Hp; [by apply Hpin|]. apply Hext.
  assert (Hg : g ∈ reduce initial_groups) by (by eapply list_elem_of_lookup_2).
  apply elem_of_reduce in Hg as (s & _ & ->).
  apply elem_of_canonical in Hx as [_ Hr]. unfold retained in Hr.
  rewrite Hp in Hr. simpl in Hr. unfold is_listed_external in Hr.
  rewrite Hp in Hr. simpl in Hr. apply andb_prop in Hr as [Hg Hd].
  apply negb_true_iff in Hg, Hd. done.
Qed.

End ColorsOfGroups.

Lemma colors_of_reduced_witness :
  let groups := reduce_connection_groups ["A"] ["G"; "T"] [["A1"; "P1+"]; ["G"; "A2"]] in
  let '(pin_map, ext_map, _, _) := calculate_global_colors ["A"] ["G"; "T"] groups ∅ ∅ 8 in
  dict_get (if is_pin ["A"] "P1+" then pin_map else ext_map) "P1+" = Some (palette 1).
Proof.
  apply (colors_of_reduced ["A"] ["G"; "T"] [["A1"; "P1+"]; ["G"; "A2"]] 1
           ["P1+"; "A1"] "P1+" ∅ ∅ 8).
  - vm_compute. reflexivity.
  - apply list_elem_of_here.
Defined.

(** ** The chart renderer, line by line *)
Section ColoringFacts.

Local Open Scope Z_scope.

Lemma py_index_length {A : Type} (l l' : list A) (r : Z) :
  length l = length l' → py_index l r = py_index l' r.
Proof. intros H. unfold py_index. by rewrite H. Qed.

Lemma py_index_lt {A : Type} (l : list A) (r : Z) (i : nat) :
  py_index l r = Some i → (i < length l)%nat.
Proof.
  unfold py_index. destruct (r <? 0) eqn:Hr.
  - destruct (Z.ltb_spec (r + Z.of_nat (length l)) 0); simpl; [done|].
    destruct (Z.leb_spec (Z.of_nat (length l)) (r + Z.of_nat (length l)));
      simpl; [done|]. intros [= <-]. lia.
  - apply Z.ltb_ge in Hr. destruct (Z.ltb_spec r 0); [lia|]. simpl.
    destruct (Z.leb_spec (Z.of_nat (length l)) r); simpl; [done|].
    intros [= <-]. lia.
Qed.

Lemma py_index_nonneg {A : Type} (l : list A) (r : Z) :
  0 ≤ r → r < Z.of_nat (length l) → py_index l r = Some (Z.to_nat r).
Proof.
  intros H0 Hn. unfold py_index. destruct (Z.ltb_spec r 0); [lia|].
  destruct (Z.ltb_spec r 0); [lia|]. simpl.
  by destruct (Z.leb_spec (Z.of_nat (length l)) r); [lia|].
Qed.

Lemma color_line_run (lines : loc) (m : gmap Z (list (Z * string))) (r : Z)
    (h : gmap loc (list string)) :
  color_line lines m r h
  = match py_index (content_of h lines) r with
    | Some i =>
        (inr tt,
         alter (λ content,
                  <[i := colored_text (default "" (content_of h lines !! i))
                                      (default [] (m !! r))]> content) lines h)
    | None => (inl IndexError, h)
    end.
Proof.
  unfold color_line. rewrite bind_run. unfold get_list. rewrite bind_run.
  fold (content_of h lines). by destruct (py_index (content_of h lines) r).
Qed.

Lemma content_of_alter (f : list string → list string) (l : loc)
    (h : gmap loc (list string)) :
  (f [] = []) → content_of (alter f l h) l = f (content_of h l).
Proof.
  intros Hf. unfold content_of. rewrite lookup_alter_eq.
  by destruct (h !! l).
Qed.

Lemma for_each_color_outcome (lines : loc) (m : gmap Z (list (Z * string)))
    (rows : list Z) (content0 : list string) (h : gmap loc (list string)) :
  length (content_of h lines) = length content0 →
  (for_each rows (color_line lines m) h).1
  = (if forallb (λ r, bool_decide (is_Some (py_index content0 r))) rows
     then inr tt else inl IndexError)
  ∧ length (content_of (for_each rows (color_line lines m) h).2 lines)
    = length content0.
Proof.
  revert h. induction rows as [|r rows IH]; intros h Hlen; [done|].
  cbn [for_each forallb]. rewrite bind_run, color_line_run.
  rewrite (py_index_length content0 (content_of h lines) r) by done.
  destruct (py_index (content_of h lines) r) as [i|] eqn:Hi.
  - rewrite bool_decide_eq_true_2 by (by eexists). simpl. apply IH.
    rewrite content_of_alter by done. by rewrite length_insert.
  - rewrite bool_decide_eq_false_2 by (by intros [? ?]). done.
Qed.

(** *** The operations of one line *)

Lemma ops_of_line_app (ops1 ops2 : list (Z * Z * string)) (r : Z) :
  ops_of_line (ops1 ++ ops2) r = ops_of_line ops1 r ++ ops_of_line ops2 r.
Proof. apply omap_app. Qed.

Lemma elem_of_ops_of_line (ops : list (Z * Z * string)) (r c : Z) (code : string) :
  (c, code) ∈ ops_of_line ops r ↔ (r, c, code) ∈ ops.
Proof.
  unfold ops_of_line. rewrite list_elem_of_omap. split.
  - intros ([[r' c'] code'] & Hin & Hop).
    destruct (decide (r' = r)) as [->|]; [|done]. by injection Hop as -> ->.
  - intros Hin. exists (r, c, code). split; [done|]. by rewrite decide_True.
Qed.

Lemma ops_of_line_one (r0 c0 : Z) (code0 : string) (r : Z) :
  ops_of_line [(r0, c0, code0)] r = if decide (r0 = r) then [(c0, code0)] else [].
Proof. unfold ops_of_line. simpl. by destruct (decide (r0 = r)). Qed.

Lemma group_by_line_lookup (ops : list (Z * Z * string)) (r : Z) :
  group_by_line ops !! r
  = match ops_of_line ops r with [] => None | l => Some l end.
Proof.
  induction ops as [|[[r0 c0] code0] ops IH] using rev_ind; [done|].
  unfold group_by_line in *. rewrite foldl_app, ops_of_line_app. cbn [foldl].
  destruct (decide (r0 = r)) as [->|Hne].
  - rewrite lookup_insert_eq, IH, ops_of_line_one, decide_True by done.
    by destruct (ops_of_line ops r).
  - rewrite lookup_insert_ne by done.
    by rewrite IH, ops_of_line_one, decide_False, app_nil_r by done.
Qed.

Lemma group_by_line_default (ops : list (Z * Z * string)) (r : Z) :
  default [] (group_by_line ops !! r) = ops_of_line ops r.
Proof. rewrite group_by_line_lookup. by destruct (ops_of_line ops r). Qed.

Lemma elem_of_rows (ops : list (Z * Z * string)) (r : Z) :
  r ∈ sorted id Z.leb (elements (dom (group_by_line ops)))
  ↔ ∃ c code, (r, c, code) ∈ ops.
Proof.
  rewrite elem_of_sorted, elem_of_elements, elem_of_dom, group_by_line_lookup.
  split.
  - destruct (ops_of_line ops r) as [|[c code] l] eqn:Hl; [by intros [? ?]|].
    intros _. exists c, code. apply elem_of_ops_of_line. rewrite Hl. left.
  - intros (c & code & Hin%elem_of_ops_of_line).
    destruct (ops_of_line ops r); [by apply elem_of_nil in Hin|by eexists].
Qed.

Lemma rows_in_range (ops : list (Z * Z * string)) (content : list string) :
  forallb (λ r, bool_decide (is_Some (py_index content r)))
          (sorted id Z.leb (elements (dom (group_by_line ops)))) = true
  ↔ Forall (λ op, is_Some (py_index content op.1.1)) ops.
Proof.
  rewrite forallb_forall, Forall_forall. split.
  - intros H [[r c] code] Hin. simpl.
    eapply bool_decide_eq_true, H, list_elem_of_In, elem_of_rows. eauto.
  - intros H r (c & code & Hin)%list_elem_of_In%elem_of_rows.
    apply bool_decide_eq_true. apply (H _ Hin).
Qed.

Lemma apply_coloring_result (lines : loc) (ops : list (Z * Z * string))
    (h : gmap loc (list string)) :
  (apply_coloring lines ops h).1
  = (if bool_decide (Forall (λ op, is_Some (py_index (content_of h lines) op.1.1)) ops)
     then inr tt else inl IndexError)
  ∧ length (content_of (apply_coloring lines ops h).2 lines)
    = length (content_of h lines).
Proof.
  unfold apply_coloring.
  destruct (for_each_color_outcome lines (group_by_line ops)
              (sorted id Z.leb (elements (dom (group_by_line ops))))
              (content_of h lines) h eq_refl) as [H1 H2].
  split; [|done]. rewrite H1.
  destruct (forallb _ _) eqn:Hall.
  - apply rows_in_range in Hall. by rewrite bool_decide_eq_true_2.
  - rewrite bool_decide_eq_false_2; [done|]. intros H%rows_in_range. congruence.
Qed.

(** X15.  How [apply_coloring] ends.  It raises [IndexError] exactly
    when some operation names a row that is no index of the list of
    lines (a negative row counting from the end), and it raises nothing
    else; offsets never make it fail.  Whatever happens the list keeps
    its number of lines, and no other list object is touched. *)
Theorem apply_coloring_outcome (lines : loc) (ops : list (Z * Z * string))
    (h : gmap loc (list string)) :
  let content := content_of h lines in
  let result := apply_coloring lines ops h in
  (result.1 = inr tt ↔ Forall (λ op, is_Some (py_index content op.1.1)) ops)
  ∧ (result.1 ≠ inr tt ↔ result.1 = inl IndexError)
  ∧ length (content_of result.2 lines) = length content
  ∧ dom result.2 = dom h
  ∧ ∀ l, l ≠ lines → result.2 !! l = h !! l.
Proof.
  cbv zeta. destruct (apply_coloring_result lines ops h) as [H1 H2].
  destruct (touches_apply_coloring lines ops h) as [Hd Hf].
  rewrite H1.
  destruct (bool_decide_reflect
              (Forall (λ op, is_Some (py_index (content_of h lines) op.1.1)) ops)).
  - repeat split; try done.
  - repeat split; try done.
Qed.

(** *** The order of the operations *)

Lemma Z_ge_total (a b : Z) : Z_ge a b = false → Z_ge b a = true.
Proof. unfold Z_ge. rewrite Z.leb_gt, Z.leb_le. lia. Qed.

Lemma Z_ge_trans (a b c : Z) : Z_ge a b = true → Z_ge b c = true → Z_ge a c = true.
Proof. unfold Z_ge. rewrite !Z.leb_le. lia. Qed.

Lemma Z_ge_antisym (a b : Z) : Z_ge a b = true → Z_ge b a = true → a = b.
Proof. unfold Z_ge. rewrite !Z.leb_le. lia. Qed.

Lemma ops_of_line_Permutation (ops ops' : list (Z * Z * string)) (r : Z) :
  ops ≡ₚ ops' → ops_of_line ops r ≡ₚ ops_of_line ops' r.
Proof. intros Hp. unfold ops_of_line. by rewrite Hp. Qed.

Lemma ops_of_line_NoDup (ops : list (Z * Z * string)) (r : Z) :
  NoDup ((λ op, (op.1.1, op.1.2)) <$> ops) → NoDup (fst <$> ops_of_line ops r).
Proof.
  induction ops as [|[[r0 c0] code0] ops IH]; intros Hnd; [constructor|].
  rewrite fmap_cons in Hnd. apply NoDup_cons in Hnd as [Hop Hnd].
  change ((r0, c0, code0) :: ops) with ([(r0, c0, code0)] ++ ops).
  rewrite ops_of_line_app, ops_of_line_one.
  destruct (decide (r0 = r)) as [->|]; [|by apply IH].
  simpl. apply NoDup_cons. split; [|by apply IH].
  intros ([c code] & -> & Hin%elem_of_ops_of_line)%list_elem_of_fmap.
  apply Hop. apply list_elem_of_fmap. by exists (r, c, code).
Qed.

Lemma colored_text_Permutation (line : string) (l1 l2 : list (Z * string)) :
  l1 ≡ₚ l2 → NoDup (fst <$> l1) → colored_text line l1 = colored_text line l2.
Proof.
  intros Hp Hnd. unfold colored_text.
  by rewrite (sorted_unique fst Z_ge Z_ge_total Z_ge_trans Z_ge_antisym l1 l2).
Qed.

Lemma for_each_ext {A : Type} (l : list A) (b1 b2 : A → M unit)
    (h : gmap loc (list string)) :
  (∀ a h', a ∈ l → b1 a h' = b2 a h') → for_each l b1 h = for_each l b2 h.
Proof.
  revert h. induction l as [|a l IH]; intros h Hb; [done|].
  cbn [for_each]. rewrite !bind_run, Hb by left.
  destruct (b2 a h) as [[e|[]] h']; [done|]. apply IH. intros a' h'' Ha'.
  apply Hb. by right.
Qed.

(** X16.  The list handed to [apply_coloring] may come in any order:
    when no two operations have both the row and the offset in common,
    every arrangement of the same operations gives the same result and
    the same final store. *)
Theorem apply_coloring_any_order (lines : loc) (ops ops' : list (Z * Z * string))
    (h : gmap loc (list string)) :
  ops ≡ₚ ops' → NoDup ((λ op, (op.1.1, op.1.2)) <$> ops) →
  apply_coloring lines ops h = apply_coloring lines ops' h.
Proof.
  intros Hp Hnd. unfold apply_coloring.
  assert (Hdom : dom (group_by_line ops) = dom (group_by_line ops')).
  { apply set_eq. intros r. rewrite !elem_of_dom, !group_by_line_lookup.
    pose proof (ops_of_line_Permutation ops ops' r Hp) as Hr.
    destruct (ops_of_line ops r), (ops_of_line ops' r); try done.
    - by apply Permutation_nil_cons in Hr.
    - symmetry in Hr. by apply Permutation_nil_cons in Hr. }
  rewrite <- Hdom. apply for_each_ext. intros r h' _.
  rewrite !color_line_run, !group_by_line_default.
  destruct (py_index (content_of h' lines) r) as [i|]; [|done].
  by rewrite (colored_text_Permutation _ (ops_of_line ops r) (ops_of_line ops' r))
    by auto using ops_of_line_Permutation, ops_of_line_NoDup.
Qed.

(** *** The text of a coloured line *)

Lemma concat_chars (s : string) : String.concat "" (chars s) = s.
Proof.
  unfold chars. induction s as [|a s IH]; [done|].
  cbn [String.list_ascii_of_string fmap list_fmap].
  destruct s as [|b s]; [done|].
  cbn [String.list_ascii_of_string fmap list_fmap String.concat] in *.
  by rewrite IH.
Qed.

Lemma length_chars (s : string) : length (chars s) = String.length s.
Proof.
  unfold chars. rewrite length_fmap.
  induction s as [|a s IH]; simpl; [done|]. by rewrite IH.
Qed.

Lemma colored_text_nil (line : string) : colored_text line [] = line.
Proof. apply concat_chars. Qed.

Lemma for_each_color_success (lines : loc) (m : gmap Z (list (Z * string)))
    (rows : list Z) (content : list string) (h : gmap loc (list string)) :
  h !! lines = Some content →
  Forall (λ r, is_Some (py_index content r)) rows →
  for_each rows (color_line lines m) h
  = (inr tt, <[lines := lines_after m rows content]> h).
Proof.
  revert h content. induction rows as [|r rows IH]; intros h content Hh Hall.
  - simpl. by rewrite insert_id.
  - apply Forall_cons in Hall as [[i Hi] Hall].
    cbn [for_each]. rewrite bind_run, color_line_run.
    assert (Hc : content_of h lines = content) by (unfold content_of; by rewrite Hh).
    rewrite Hc, Hi.
    set (content1 := <[i := colored_text (default "" (content !! i))
                                         (default [] (m !! r))]> content).
    assert (Hh1 : alter (λ c, <[i := colored_text (default "" (content !! i))
                                                   (default [] (m !! r))]> c) lines h
                  = <[lines := content1]> h).
    { apply map_eq. intros l. destruct (decide (l = lines)) as [->|Hne].
      - by rewrite lookup_alter_eq, lookup_insert_eq, Hh.
      - by rewrite lookup_alter_ne, lookup_insert_ne by done. }
    rewrite Hh1, (IH _ content1).
    + rewrite insert_insert_eq. unfold lines_after. cbn [foldl]. by rewrite Hi.
    + by rewrite lookup_insert_eq.
    + eapply Forall_impl; [exact Hall|]. intros r' Hr'. simpl in Hr'.
      rewrite (py_index_length content1 content); [done|].
      unfold content1. by rewrite length_insert.
Qed.

Lemma lines_after_lookup (m : gmap Z (list (Z * string))) (rows : list Z)
    (content : list string) (i : nat) :
  NoDup rows → Forall (λ r, 0 ≤ r < Z.of_nat (length content)) rows →
  lines_after m rows content !! i
  = if bool_decide (Z.of_nat i ∈ rows)
    then (λ line, colored_text line (default [] (m !! Z.of_nat i))) <$> content !! i
    else content !! i.
Proof.
  revert content. induction rows as [|r rows IH]; intros content Hnd Hall; [done|].
  apply NoDup_cons in Hnd as [Hr Hnd]. apply Forall_cons in Hall as [Hr0 Hall].
  unfold lines_after. cbn [foldl]. rewrite py_index_nonneg by lia.
  set (content1 := <[Z.to_nat r := _]> content).
  change (foldl _ content1 rows) with (lines_after m rows content1).
  assert (Hlen : length content1 = length content) by apply length_insert.
  rewrite IH; [|done|by rewrite Hlen].
  destruct (decide (Z.of_nat i = r)) as [<-|Hne].
  - rewrite (bool_decide_eq_false_2 _ Hr), bool_decide_eq_true_2 by left.
    unfold content1. rewrite Nat2Z.id, list_lookup_insert_eq by lia.
    destruct (lookup_lt_is_Some_2 content i ltac:(lia)) as [line Hline].
    by rewrite Hline.
  - assert (Hi : Z.to_nat r ≠ i) by lia.
    unfold content1. rewrite list_lookup_insert_ne by done.
    destruct (bool_decide_reflect (Z.of_nat i ∈ rows)) as [Hin|Hnin].
    + rewrite bool_decide_eq_true_2; [done|by right].
    + rewrite bool_decide_eq_false_2; [done|].
      by intros [?|?]%elem_of_cons.
Qed.

Lemma apply_coloring_lines (lines : loc) (ops : list (Z * Z * string))
    (h : gmap loc (list string)) (content : list string) :
  h !! lines = Some content →
  Forall (λ op, 0 ≤ op.1.1 < Z.of_nat (length content)) ops →
  apply_coloring lines ops h
  = (inr tt,
     <[lines := imap (λ i line, colored_text line (ops_of_line ops (Z.of_nat i)))
                     content]> h).
Proof.
  intros Hh Hall. unfold apply_coloring.
  set (rows := sorted id Z.leb (elements (dom (group_by_line ops)))).
  assert (Hrows : Forall (λ r, 0 ≤ r < Z.of_nat (length content)) rows).
  { apply Forall_forall. intros r (c & code & Hin)%elem_of_rows.
    rewrite Forall_forall in Hall. apply (Hall _ Hin). }
  rewrite (for_each_color_success lines _ rows content h Hh).
  2:{ eapply Forall_impl; [exact Hrows|]. intros r Hr. simpl in Hr.
      rewrite py_index_nonneg by lia. by eexists. }
  f_equal. f_equal. apply list_eq. intros i.
  rewrite lines_after_lookup;
    [|unfold rows; rewrite (sorted_Permutation id Z.leb); apply NoDup_elements|done].
  rewrite list_lookup_imap, group_by_line_default.
  destruct (bool_decide_reflect (Z.of_nat i ∈ rows)) as [Hin|Hnin]; [done|].
  assert (Hnil : ops_of_line ops (Z.of_nat i) = []).
  { destruct (ops_of_line ops (Z.of_nat i)) as [|[c code] l] eqn:Hl; [done|].
    destruct Hnin. apply elem_of_rows. exists c, code.
    apply elem_of_ops_of_line. rewrite Hl. left. }
  rewrite Hnil. destruct (content !! i) as [line|]; simpl; [|done].
  by rewrite colored_text_nil.
Qed.

(** *** Offsets are offsets into the uncoloured line *)

Lemma py_insert_in_range {A : Type} (l : list A) (c : Z) (x : A) :
  0 ≤ c ≤ Z.of_nat (length l) →
  py_insert l c x = take (Z.to_nat c) l ++ x :: drop (Z.to_nat c) l.
Proof.
  intros Hc. unfold py_insert. destruct (Z.ltb_spec c 0); [lia|].
  destruct (Z.ltb_spec c 0); [lia|].
  by destruct (Z.ltb_spec (Z.of_nat (length l)) c); [lia|].
Qed.

Lemma foldl_insert_app {A : Type} (l t : list A) (d : list (Z * A)) :
  Forall (λ op, 0 ≤ op.1 ≤ Z.of_nat (length l)) d →
  foldl (λ ll '(c_index, code), py_insert ll c_index code) (l ++ t) d
  = foldl (λ ll '(c_index, code), py_insert ll c_index code) l d ++ t.
Proof.
  revert l. induction d as [|[c x] d IH]; intros l Hall; [done|].
  apply Forall_cons in Hall as [Hc Hall]. simpl in Hc. cbn [foldl].
  rewrite (py_insert_in_range (l ++ t)) by (rewrite length_app; lia).
  rewrite (py_insert_in_range l) by done.
  rewrite take_app_le, drop_app_le by lia.
  rewrite <- IH.
  - by rewrite <- app_assoc.
  - eapply Forall_impl; [exact Hall|]. intros op Hop. simpl in *.
    rewrite length_app, length_take. simpl. rewrite length_drop. lia.
Qed.

Lemma splice_from_snoc {A : Type} (a : list (Z * A)) (pos : nat) (l : list A)
    (c0 : Z) (x0 : A) :
  StronglySorted (λ op1 op2 : Z * A, op1.1 ≤ op2.1) a →
  Forall (λ op, Z.of_nat pos ≤ op.1 ≤ c0) a →
  Z.of_nat pos ≤ c0 →
  splice_from pos l (a ++ [(c0, x0)])
  = splice_from pos (take (Z.to_nat c0 - pos) l) a
    ++ x0 :: drop (Z.to_nat c0 - pos) l.
Proof.
  revert pos l. induction a as [|[c1 x1] a IH]; intros pos l Hs Hall Hpos.
  - done.
  - apply StronglySorted_inv in Hs as [Hs Hc1].
    apply Forall_cons in Hall as [Hc Hall]. simpl in Hc.
    cbn [app splice_from]. rewrite IH; [|done| |lia].
    + rewrite <- app_assoc. cbn [app]. rewrite take_take, drop_drop.
      replace ((Z.to_nat c1 - pos) `min` (Z.to_nat c0 - pos))%nat
        with (Z.to_nat c1 - pos)%nat by lia.
      replace (Z.to_nat c1 - pos + (Z.to_nat c0 - Z.to_nat c1))%nat
        with (Z.to_nat c0 - pos)%nat by lia.
      f_equal. f_equal. f_equal. f_equal.
      rewrite take_drop_commute.
      by replace (Z.to_nat c1 - pos + (Z.to_nat c0 - Z.to_nat c1))%nat
        with (Z.to_nat c0 - pos)%nat by lia.
    + rewrite Forall_forall in Hall, Hc1. apply Forall_forall. intros op Hop.
      specialize (Hall op Hop). specialize (Hc1 op Hop). simpl in *. lia.
Qed.

Lemma StronglySorted_snoc {A : Type} (R : relation A) (a : list A) (x : A) :
  StronglySorted R a → Forall (λ y, R y x) a → StronglySorted R (a ++ [x]).
Proof.
  induction 1 as [|y a Ha IH Hy]; intros Hx; simpl.
  - repeat constructor.
  - apply Forall_cons in Hx as [Hyx Hx]. constructor; [by apply IH|].
    apply Forall_app. split; [done|]. by constructor.
Qed.

Lemma StronglySorted_reverse {A : Type} (R : relation A) (d : list A) :
  StronglySorted R d → StronglySorted (flip R) (reverse d).
Proof.
  induction 1 as [|x d Hd IH Hx]; [constructor|].
  rewrite reverse_cons. apply StronglySorted_snoc; [done|].
  apply Forall_forall. intros y Hy. rewrite elem_of_reverse in Hy.
  rewrite Forall_forall in Hx. by apply Hx.
Qed.

Lemma foldl_insert_splice {A : Type} (d : list (Z * A)) (l : list A) :
  StronglySorted (λ op1 op2 : Z * A, op2.1 ≤ op1.1) d →
  Forall (λ op, 0 ≤ op.1 ≤ Z.of_nat (length l)) d →
  foldl (λ ll '(c_index, code), py_insert ll c_index code) l d
  = splice_from 0 l (reverse d).
Proof.
  revert l. induction d as [|[c0 x0] d IH]; intros l Hs Hall; [done|].
  apply StronglySorted_inv in Hs as [Hs Hc0].
  apply Forall_cons in Hall as [Hc Hall]. simpl in Hc.
  cbn [foldl]. rewrite py_insert_in_range by done.
  assert (Hd : Forall (λ op : Z * A, 0 ≤ op.1 ≤ Z.of_nat (length (take (Z.to_nat c0) l))) d).
  { rewrite Forall_forall in Hall, Hc0. apply Forall_forall. intros op Hop.
    specialize (Hall op Hop). specialize (Hc0 op Hop). simpl in *.
    rewrite length_take. lia. }
  rewrite foldl_insert_app by done. rewrite IH by done.
  rewrite reverse_cons, splice_from_snoc.
  - by rewrite Nat.sub_0_r.
  - apply (StronglySorted_reverse _ _ Hs).
  - apply Forall_forall. intros op Hop. rewrite elem_of_reverse in Hop.
    rewrite Forall_forall in Hall, Hc0.
    specialize (Hall op Hop). specialize (Hc0 op Hop). simpl in *. lia.
  - lia.
Qed.

Lemma sorted_desc (ops : list (Z * string)) :
  StronglySorted (λ op1 op2 : Z * string, op2.1 ≤ op1.1) (sorted fst Z_ge ops).
Proof.
  apply Sorted_StronglySorted; [intros a b c; lia|].
  eapply Sorted_weaken; [|apply (sorted_Sorted fst Z_ge), Z_ge_total].
  intros a b. unfold key_le, Z_ge. by intros ?%Z.leb_le.
Qed.

Lemma colored_text_spliced (line : string) (ops : list (Z * string)) :
  Forall (λ op, 0 ≤ op.1 ≤ len line) ops →
  colored_text line ops = spliced line (reverse (sorted fst Z_ge ops)).
Proof.
  intros Hall. unfold colored_text, spliced. f_equal.
  apply foldl_insert_splice; [apply sorted_desc|].
  rewrite (sorted_Permutation fst Z_ge), length_chars. exact Hall.
Qed.

Lemma apply_coloring_spliced (lines : loc) (ops : list (Z * Z * string))
    (h : gmap loc (list string)) (content : list string) :
  h !! lines = Some content →
  Forall (λ op, 0 ≤ op.1.1
                ∧ ∃ line, content !! Z.to_nat op.1.1 = Some line
                          ∧ 0 ≤ op.1.2 ≤ len line) ops →
  apply_coloring lines ops h
  = (inr tt,
     <[lines := imap (λ i line, spliced line (ascending_ops ops i)) content]> h).
Proof.
  intros Hh Hall. rewrite (apply_coloring_lines lines ops h content Hh).
  2:{ eapply Forall_impl; [exact Hall|]. intros op (H0 & line & Hline & _).
      simpl. apply lookup_lt_Some in Hline. lia. }
  f_equal. f_equal. apply list_eq. intros i. rewrite !list_lookup_imap.
  destruct (content !! i) as [line|] eqn:Hi; simpl; [|done].
  f_equal. apply colored_text_spliced.
  apply Forall_forall. intros [c code] Hin%elem_of_ops_of_line.
  rewrite Forall_forall in Hall. destruct (Hall _ Hin) as (_ & line' & Hline' & Hc).
  simpl in *. rewrite Nat2Z.id in Hline'. congruence.
Qed.

(** X17.  Where the codes land.  When every operation names a row of
    the list, counted from 0, and an offset of the line on that row,
    [apply_coloring] succeeds and puts each code in front of the
    character that had the offset before any code was put in; lines
    without operation stay as they are.  Codes put in earlier shift no
    later one. *)
Theorem apply_coloring_offsets (lines : loc) (ops : list (Z * Z * string))
    (h : gmap loc (list string)) (content : list string) :
  h !! lines = Some content →
  Forall (λ op, 0 ≤ op.1.1
                ∧ ∃ line, content !! Z.to_nat op.1.1 = Some line
                          ∧ 0 ≤ op.1.2 ≤ len line) ops →
  apply_coloring lines ops h
  = (inr tt,
     <[lines := imap (λ i line, spliced line (ascending_ops ops i)) content]> h).
Proof. apply apply_coloring_spliced. Qed.

End ColoringFacts.

Lemma apply_coloring_offsets_witness :
  let h := {[ 0%nat := ["+--+"; "|ab|"] ]} in
  let ops := [(1, 3, "]"); (1, 1, "[")]%Z in
  apply_coloring 0%nat ops h
  = (inr tt,
     <[0%nat := imap (λ i line, spliced line (ascending_ops ops i))
                     ["+--+"; "|ab|"]]> h).
Proof.
  apply (apply_coloring_offsets 0%nat [(1, 3, "]"); (1, 1, "[")]%Z
           {[ 0%nat := ["+--+"; "|ab|"] ]} ["+--+"; "|ab|"]).
  - vm_compute. reflexivity.
  - constructor; [|constructor; [|constructor]].
    + split; [simpl; lia|]. exists "|ab|". split; [reflexivity|]. vm_compute.
      split; discriminate.
    + split; [simpl; lia|]. exists "|ab|". split; [reflexivity|]. vm_compute.
      split; discriminate.
Defined.

Example spliced_two_markers :
  imap (λ i line, spliced line (ascending_ops [(1, 3, "]"); (1, 1, "[")]%Z i))
       ["+--+"; "|ab|"]
  = ["+--+"; "|[ab]|"].
Proof. vm_compute. reflexivity. Qed.

(** ** The chart renderer, grid by grid *)
Section BuildFacts.

Variable GRID_PREFIXES : list string.

Lemma ops_of_prefix_app (ops1 ops2 : list (Z * Z * string * string)) (p : string) :
  ops_of_prefix (ops1 ++ ops2) p = ops_of_prefix ops1 p ++ ops_of_prefix ops2 p.
Proof. apply omap_app. Qed.

Lemma ops_of_prefix_one (r c : Z) (code prefix p : string) :
  ops_of_prefix [(r, c, code, prefix)] p
  = if decide (prefix = p) then [(r, c, code)] else [].
Proof. unfold ops_of_prefix. simpl. by destruct (decide (prefix = p)). Qed.

Lemma elem_of_ops_of_prefix (ops : list (Z * Z * string * string))
    (p : string) (r c : Z) (code : string) :
  (r, c, code) ∈ ops_of_prefix ops p ↔ (r, c, code, p) ∈ ops.
Proof.
  unfold ops_of_prefix. rewrite list_elem_of_omap. split.
  - intros ([[[r' c'] code'] p'] & Hin & Hop).
    destruct (decide (p' = p)) as [->|]; [|done]. by injection Hop as -> -> ->.
  - intros Hin. exists (r, c, code, p). split; [done|]. by rewrite decide_True.
Qed.

Lemma group_by_prefix_init (p : string) :
  (list_to_map ((λ p, (p, [])) <$> GRID_PREFIXES)
     : gmap string (list (Z * Z * string))) !! p
  = if bool_decide (p ∈ GRID_PREFIXES) then Some [] else None.
Proof.
  destruct (bool_decide_reflect (p ∈ GRID_PREFIXES)) as [Hin|Hnin].
  - destruct (list_to_map ((λ p, (p, [])) <$> GRID_PREFIXES) !! p) as [v|] eqn:Hv.
    + apply elem_of_list_to_map_2, list_elem_of_fmap in Hv as (q & [= -> ->] & _).
      done.
    + apply not_elem_of_list_to_map_2 in Hv. destruct Hv.
      rewrite <- list_fmap_compose. apply list_elem_of_fmap. by exists p.
  - apply not_elem_of_list_to_map_1. rewrite <- list_fmap_compose.
    intros (q & -> & Hq)%list_elem_of_fmap. done.
Qed.

Lemma group_by_prefix_spec (ops : list (Z * Z * string * string)) :
  match group_by_prefix GRID_PREFIXES ops with
  | Some om =>
      prefixes_known GRID_PREFIXES ops
      ∧ ∀ p, om !! p = if bool_decide (p ∈ GRID_PREFIXES)
                       then Some (ops_of_prefix ops p) else None
  | None => ¬ prefixes_known GRID_PREFIXES ops
  end.
Proof.
  unfold prefixes_known.
  induction ops as [|[[[r c] code] prefix] ops IH] using rev_ind.
  - simpl. split; [constructor|]. apply group_by_prefix_init.
  - unfold group_by_prefix in *. rewrite foldl_app. cbn [foldl].
    destruct (foldl _ _ ops) as [om|]; simpl.
    + destruct IH as [Hk Hom].
      destruct (om !! prefix) as [l|] eqn:Hl; simpl.
      * rewrite Hom in Hl.
        destruct (bool_decide_reflect (prefix ∈ GRID_PREFIXES)) as [Hin|]; [|done].
        injection Hl as <-. split.
        -- apply Forall_app. split; [done|]. by repeat constructor.
        -- intros p. rewrite ops_of_prefix_app, ops_of_prefix_one.
           destruct (decide (prefix = p)) as [<-|Hne].
           ++ rewrite lookup_insert_eq. by rewrite bool_decide_eq_true_2.
           ++ rewrite lookup_insert_ne by done. by rewrite Hom, app_nil_r.
      * rewrite Hom in Hl.
        destruct (bool_decide_reflect (prefix ∈ GRID_PREFIXES)) as [|Hnin]; [done|].
        intros [_ H]%Forall_app. apply Forall_cons in H as [H _]. done.
    + intros [H _]%Forall_app. done.
Qed.

Lemma color_one_run (c : gmap string loc)
    (om : gmap string (list (Z * Z * string))) (p : string) (l' : loc)
    (ops_p : list (Z * Z * string)) (h : gmap loc (list string)) :
  c !! p = Some l' → om !! p = Some ops_p →
  color_one c om p h = apply_coloring l' ops_p h.
Proof.
  intros Hc Hom. unfold color_one. rewrite bind_run, Hc. simpl.
  rewrite bind_run, Hom. simpl. by destruct (apply_coloring l' ops_p h) as [[?|[]] ?].
Qed.

Lemma content_of_frame (h h' : gmap loc (list string)) (l : loc) :
  h' !! l = h !! l → content_of h' l = content_of h l.
Proof. unfold content_of. by intros ->. Qed.

Lemma color_phase_outcome (base c : gmap string loc)
    (om : gmap string (list (Z * Z * string)))
    (ops : list (Z * Z * string * string)) (ps : list string)
    (h0 h : gmap loc (list string)) :
  (∀ p, p ∈ ps → is_Some (c !! p)) →
  (∀ p, p ∈ ps → om !! p = Some (ops_of_prefix ops p)) →
  same_heights base c h0 h →
  same_heights base c h0 (for_each ps (color_one c om) h).2
  ∧ match (for_each ps (color_one c om) h).1 with
    | inr _ =>
        Forall (λ op, op.2 ∈ ps → ∀ l, base !! op.2 = Some l →
                      is_Some (py_index (content_of h0 l) op.1.1.1)) ops
    | inl e => e = IndexError ∧ ¬ rows_valid base h0 ops
    end.
Proof.
  revert h. induction ps as [|p ps IH]; intros h Hc Hom Hh.
  - simpl. split; [done|]. apply Forall_forall. by intros op _ ?%elem_of_nil.
  - cbn [for_each]. rewrite bind_run.
    destruct (Hc p) as [l' Hl']; [left|].
    rewrite (color_one_run c om p l' (ops_of_prefix ops p))
      by (done || (apply Hom; left)).
    destruct (apply_coloring_result l' (ops_of_prefix ops p) h) as [Hres Hlen].
    destruct (touches_apply_coloring l' (ops_of_prefix ops p) h) as [_ Hframe].
    destruct (Hh p l' Hl') as (l & Hl & Hll).
    assert (Hh1 : same_heights base c h0 (apply_coloring l' (ops_of_prefix ops p) h).2).
    { intros q k Hk. destruct (Hh q k Hk) as (kb & Hkb & Hlk).
      exists kb. split; [done|]. destruct (decide (k = l')) as [->|Hne].
      - by rewrite Hlen.
      - by rewrite (content_of_frame h) by (by apply Hframe). }
    destruct (apply_coloring l' (ops_of_prefix ops p) h) as [[e|[]] h1];
      simpl in *.
    + split; [done|].
      destruct (bool_decide_reflect
                  (Forall (λ op, is_Some (py_index (content_of h l') op.1.1))
                          (ops_of_prefix ops p))) as [|Hbad]; [done|].
      split; [congruence|]. intros Hvalid. apply Hbad.
      apply Forall_forall. intros [[r col] code] Hin%elem_of_ops_of_prefix.
      unfold rows_valid in Hvalid. rewrite Forall_forall in Hvalid.
      specialize (Hvalid _ Hin l Hl). simpl in *.
      by rewrite (py_index_length _ (content_of h0 l)).
    + destruct (bool_decide_reflect
                  (Forall (λ op, is_Some (py_index (content_of h l') op.1.1))
                          (ops_of_prefix ops p))) as [Hgood|]; [|done].
      destruct (IH h1) as [Hh2 Hrest]; [by intros; apply Hc; right|
                                         by intros; apply Hom; right|done|].
      split; [done|].
      destruct (for_each ps (color_one c om) h1) as [[e|[]] h2]; simpl in *;
        [done|].
      apply Forall_forall. intros [[[r col] code] q] Hin Hq kb Hkb.
      cbn [fst snd] in *. apply elem_of_cons in Hq as [Hq|Hq].
      * subst q. rewrite Forall_forall in Hgood.
        apply elem_of_ops_of_prefix in Hin. specialize (Hgood _ Hin). simpl in Hgood.
        assert (kb = l) as -> by congruence.
        by rewrite (py_index_length _ (content_of h l')).
      * rewrite Forall_forall in Hrest. by apply (Hrest _ Hin).
Qed.

Lemma build_cases (base : gmap string loc) (ops : list (Z * Z * string * string))
    (h : gmap loc (list string)) :
  live_in h base →
  match build_colored_grid_lines GRID_PREFIXES base ops h with
  | (inr c, h2) =>
      prefixes_in_base GRID_PREFIXES base ∧ prefixes_known GRID_PREFIXES ops
      ∧ rows_valid base h ops
      ∧ dom c = list_to_set GRID_PREFIXES ∧ same_heights base c h h2
  | (inl KeyError, _) =>
      ¬ (prefixes_in_base GRID_PREFIXES base ∧ prefixes_known GRID_PREFIXES ops)
  | (inl IndexError, _) =>
      prefixes_in_base GRID_PREFIXES base ∧ prefixes_known GRID_PREFIXES ops
      ∧ ¬ rows_valid base h ops
  end.
Proof.
  intros Hlive. rewrite build_run. unfold clone_lines.
  pose proof (clone_fold_spec base h GRID_PREFIXES ∅ h Hlive
                (λ l _, eq_refl) (clones_of_empty base h)) as Hclone.
  destruct (fold_each GRID_PREFIXES (clone_one base) ∅ h) as [[e|c] h1].
  { destruct Hclone as (Hnot & -> & _). by intros [? _]. }
  destruct Hclone as (Hbase & _ & [_ Hc] & Hdom).
  rewrite dom_empty_L, union_empty_r_L in Hdom.
  pose proof (group_by_prefix_spec ops) as Hgroup.
  destruct (group_by_prefix GRID_PREFIXES ops) as [om|]; [|by intros [_ ?]].
  destruct Hgroup as [Hknown Hom].
  assert (Hh1 : same_heights base c h h1).
  { intros p l' Hl'. destruct (Hc p l' Hl') as (_ & _ & l & Hl & Hcont).
    exists l. split; [done|]. unfold content_of. by rewrite Hcont. }
  destruct (color_phase_outcome base c om ops GRID_PREFIXES h h1) as [Hh2 Hres];
    [| |done|].
  { intros p Hp. apply elem_of_dom. rewrite Hdom. by apply elem_of_list_to_set. }
  { intros p Hp. by rewrite Hom, bool_decide_eq_true_2. }
  destruct (for_each GRID_PREFIXES (color_one c om) h1) as [[e|[]] h2]; simpl in *.
  - destruct Hres as [-> Hbad]. done.
  - repeat split; try done. unfold rows_valid, prefixes_known in *.
    rewrite Forall_forall in Hres, Hknown. apply Forall_forall.
    intros op Hop. by apply Hres, Hknown.
Qed.

(** X18.  How [build_colored_grid_lines] ends, run in a store that has
    the base lists.  It returns, a list for every grid prefix and each
    with as many lines as its base list, exactly when every grid prefix
    is a key of the base dictionary, every operation is for a grid
    prefix, and every operation names a row of the base list of its
    grid.  It raises [KeyError] when one of the first two conditions
    fails, and [IndexError] when only the third does. *)
Theorem build_colored_grid_lines_outcome (base : gmap string loc)
    (ops : list (Z * Z * string * string)) (h : gmap loc (list string)) :
  live_in h base →
  let result := build_colored_grid_lines GRID_PREFIXES base ops h in
  let keys_ok :=
    prefixes_in_base GRID_PREFIXES base ∧ prefixes_known GRID_PREFIXES ops in
  ((∃ c, result.1 = inr c) ↔ keys_ok ∧ rows_valid base h ops)
  ∧ (result.1 = inl KeyError ↔ ¬ keys_ok)
  ∧ (result.1 = inl IndexError ↔ keys_ok ∧ ¬ rows_valid base h ops)
  ∧ (∀ c, result.1 = inr c →
          dom c = list_to_set GRID_PREFIXES ∧ same_heights base c h result.2).
Proof.
  intros Hlive. cbv zeta. pose proof (build_cases base ops h Hlive) as H.
  destruct (build_colored_grid_lines GRID_PREFIXES base ops h) as [[[]|c] h2];
    simpl.
  - split; [|split; [|split]].
    + split; [by intros [c Hc]|]. by intros [Hk _].
    + done.
    + split; [done|]. by intros [Hk _].
    + by intros c Hc.
  - destruct H as (Hb & Hk & Hr). split; [|split; [|split]].
    + split; [by intros [c Hc]|]. by intros [_ ?].
    + split; [done|]. intros Hn. by destruct Hn.
    + done.
    + by intros c Hc.
  - destruct H as (Hb & Hk & Hr & Hd & Hh). split; [|split; [|split]].
    + split; [done|]. intros _. by exists c.
    + split; [done|]. intros Hn. by destruct Hn.
    + split; [done|]. by intros [_ ?].
    + by intros c' [= <-].
Qed.

Lemma color_phase_lines (base c : gmap string loc)
    (om : gmap string (list (Z * Z * string)))
    (ops : list (Z * Z * string * string)) (ps : list string)
    (h0 h : gmap loc (list string)) :
  NoDup ps → dict_inj c → ops_fit base h0 ops →
  (∀ p, p ∈ ps → om !! p = Some (ops_of_prefix ops p)) →
  (∀ p, p ∈ ps → ∃ l l', base !! p = Some l ∧ c !! p = Some l'
                         ∧ h !! l' = Some (content_of h0 l)) →
  (for_each ps (color_one c om) h).1 = inr tt
  ∧ (∀ p, p ∈ ps → ∃ l l', base !! p = Some l ∧ c !! p = Some l'
        ∧ (for_each ps (color_one c om) h).2 !! l'
          = Some (spliced_lines ops p (content_of h0 l)))
  ∧ (∀ l', (∀ p, p ∈ ps → c !! p ≠ Some l') →
           (for_each ps (color_one c om) h).2 !! l' = h !! l').
Proof.
  intros Hnd Hinj Hfit. revert h. induction ps as [|p ps IH]; intros h Hom Hc.
  - simpl. split; [done|]. split; [by intros p ?%elem_of_nil|done].
  - apply NoDup_cons in Hnd as [Hp Hnd].
    destruct (Hc p) as (l & l' & Hl & Hl' & Hh); [left|].
    cbn [for_each]. rewrite bind_run.
    rewrite (color_one_run c om p l' (ops_of_prefix ops p))
      by (done || (apply Hom; left)).
    rewrite (apply_coloring_spliced l' (ops_of_prefix ops p) h (content_of h0 l) Hh).
    2:{ apply Forall_forall. intros [[r col] code] Hin%elem_of_ops_of_prefix.
        unfold ops_fit in Hfit. rewrite Forall_forall in Hfit.
        apply (Hfit _ Hin l Hl). }
    fold (spliced_lines ops p (content_of h0 l)).
    set (h1 := <[l' := spliced_lines ops p (content_of h0 l)]> h).
    assert (Hother : ∀ q k, q ∈ ps → c !! q = Some k → k ≠ l').
    { intros q k Hq Hk ->. apply Hp. by rewrite (Hinj p q l' Hl' Hk). }
    destruct (IH Hnd h1) as (Hres & Hin & Hout).
    { intros q Hq. apply Hom. by right. }
    { intros q Hq. destruct (Hc q) as (k & k' & Hk & Hk' & Hhk); [by right|].
      exists k, k'. split; [done|]. split; [done|].
      unfold h1. rewrite lookup_insert_ne; [done|].
      intros Heq. by apply (Hother q k' Hq Hk'). }
    split; [done|]. split.
    + intros q [->|Hq]%elem_of_cons; [|by apply Hin].
      exists l, l'. split; [done|]. split; [done|].
      rewrite Hout; [apply lookup_insert_eq|].
      intros q Hq Hk. by apply (Hother q l').
    + intros k Hk. rewrite Hout.
      * unfold h1. apply lookup_insert_ne. intros Heq. subst k.
        by apply (Hk p); [left|].
      * intros q Hq. apply Hk. by right.
Qed.

(** X19.  What [build_colored_grid_lines] returns.  With distinct grid
    prefixes, all of them keys of the base dictionary, and operations
    that each name a grid prefix, a row of that grid and an offset of
    that row, it returns for every prefix a list that has, line by
    line, the base lines of the prefix with the codes of the prefix's
    operations put in at their offsets. *)
Theorem build_colored_grid_lines_lines (base : gmap string loc)
    (ops : list (Z * Z * string * string)) (h : gmap loc (list string)) :
  NoDup GRID_PREFIXES → live_in h base →
  prefixes_in_base GRID_PREFIXES base → prefixes_known GRID_PREFIXES ops →
  ops_fit base h ops →
  ∃ c, (build_colored_grid_lines GRID_PREFIXES base ops h).1 = inr c
       ∧ dom c = list_to_set GRID_PREFIXES
       ∧ ∀ p, p ∈ GRID_PREFIXES →
           ∃ l l', base !! p = Some l ∧ c !! p = Some l'
             ∧ (build_colored_grid_lines GRID_PREFIXES base ops h).2 !! l'
               = Some (spliced_lines ops p (content_of h l)).
Proof.
  intros Hnd Hlive Hbase Hknown Hfit. rewrite build_run. unfold clone_lines.
  pose proof (clone_fold_spec base h GRID_PREFIXES ∅ h Hlive
                (λ l _, eq_refl) (clones_of_empty base h)) as Hclone.
  destruct (fold_each GRID_PREFIXES (clone_one base) ∅ h) as [[e|c] h1].
  { by destruct Hclone as (Hnot & _). }
  destruct Hclone as (_ & _ & [Hinj Hc] & Hdom).
  rewrite dom_empty_L, union_empty_r_L in Hdom.
  pose proof (group_by_prefix_spec ops) as Hgroup.
  destruct (group_by_prefix GRID_PREFIXES ops) as [om|]; [|done].
  destruct Hgroup as [_ Hom].
  destruct (color_phase_lines base c om ops GRID_PREFIXES h h1 Hnd Hinj Hfit)
    as (Hres & Hin & _).
  { intros p Hp. by rewrite Hom, bool_decide_eq_true_2. }
  { intros p Hp.
    assert (is_Some (c !! p)) as [l' Hl'].
    { apply elem_of_dom. rewrite Hdom. by apply elem_of_list_to_set. }
    destruct (Hc p l' Hl') as (_ & _ & l & Hl & Hcont). by exists l, l'. }
  destruct (for_each GRID_PREFIXES (color_one c om) h1) as [[e|[]] h2];
    simpl in *; [done|].
  exists c. split; [done|]. split; [done|]. exact Hin.
Qed.

End BuildFacts.

Lemma build_colored_grid_lines_outcome_witness :
  let GRID_PREFIXES := ["A"] in
  let base := {[ "A" := 0%nat ]} : gmap string loc in
  let ops := [(1, 3, "]", "A"); (5, 1, "[", "A")]%Z in
  let h := {[ 0%nat := ["+--+"; "|ab|"] ]} : gmap loc (list string) in
  let result := build_colored_grid_lines GRID_PREFIXES base ops h in
  let keys_ok :=
    prefixes_in_base GRID_PREFIXES base ∧ prefixes_known GRID_PREFIXES ops in
  ((∃ c, result.1 = inr c) ↔ keys_ok ∧ rows_valid base h ops)
  ∧ (result.1 = inl KeyError ↔ ¬ keys_ok)
  ∧ (result.1 = inl IndexError ↔ keys_ok ∧ ¬ rows_valid base h ops)
  ∧ (∀ c, result.1 = inr c →
          dom c = list_to_set GRID_PREFIXES ∧ same_heights base c h result.2).
Proof.
  apply (build_colored_grid_lines_outcome ["A"] {[ "A" := 0%nat ]}
           [(1, 3, "]", "A"); (5, 1, "[", "A")]%Z {[ 0%nat := ["+--+"; "|ab|"] ]}).
  unfold live_in. apply map_Forall_singleton. vm_compute. reflexivity.
Defined.

Example build_colored_grid_lines_errors :
  let h := {[ 0%nat := ["+--+"; "|ab|"] ]} : gmap loc (list string) in
  (build_colored_grid_lines ["A"] {[ "A" := 0%nat ]} [(5, 1, "[", "A")]%Z h).1
  = inl IndexError
  ∧ (build_colored_grid_lines ["A"] {[ "A" := 0%nat ]} [(1, 1, "[", "B")]%Z h).1
    = inl KeyError
  ∧ (build_colored_grid_lines ["A"; "B"] {[ "A" := 0%nat ]} [] h).1 = inl KeyError.
Proof. vm_compute. done. Qed.

Lemma apply_coloring_any_order_witness :
  let h := {[ 0%nat := ["+--+--+"; "|ab|cd|"] ]} in
  apply_coloring 0%nat [(1, 1, "["); (1, 3, "]"); (1, 4, "<"); (0, 0, "*")]%Z h
  = apply_coloring 0%nat [(0, 0, "*"); (1, 4, "<"); (1, 1, "["); (1, 3, "]")]%Z h.
Proof.
  apply (apply_coloring_any_order 0%nat
           [(1, 1, "["); (1, 3, "]"); (1, 4, "<"); (0, 0, "*")]%Z
           [(0, 0, "*"); (1, 4, "<"); (1, 1, "["); (1, 3, "]")]%Z).
  - etrans; [exact (Permutation_app_comm [(1, 1, "["); (1, 3, "]")]%Z
                      [(1, 4, "<"); (0, 0, "*")]%Z)|].
    apply perm_swap.
  - apply (bool_decide_unpack _). vm_compute. exact I.
Defined.

Lemma build_colored_grid_lines_lines_witness :
  let GRID_PREFIXES := ["A"] in
  let base := {[ "A" := 0%nat ]} : gmap string loc in
  let ops := [(1, 3, "]", "A"); (1, 1, "[", "A")]%Z in
  let h := {[ 0%nat := ["+--+"; "|ab|"] ]} : gmap loc (list string) in
  ∃ c, (build_colored_grid_lines GRID_PREFIXES base ops h).1 = inr c
       ∧ dom c = list_to_set GRID_PREFIXES
       ∧ ∀ p, p ∈ GRID_PREFIXES →
           ∃ l l', base !! p = Some l ∧ c !! p = Some l'
             ∧ (build_colored_grid_lines GRID_PREFIXES base ops h).2 !! l'
               = Some (spliced_lines ops p (content_of h l)).
Proof.
  apply (build_colored_grid_lines_lines ["A"] {[ "A" := 0%nat ]}
           [(1, 3, "]", "A"); (1, 1, "[", "A")]%Z {[ 0%nat := ["+--+"; "|ab|"] ]}).
  - apply (bool_decide_unpack _). vm_compute. exact I.
  - unfold live_in. apply map_Forall_singleton. vm_compute. reflexivity.
  - repeat constructor. by eexists.
  - repeat constructor.
  - constructor; [|constructor; [|constructor]]; intros l Hl;
      vm_compute in Hl; injection Hl as <-;
      (split; [simpl; lia|]); exists "|ab|"; (split; [reflexivity|]);
      vm_compute; split; discriminate.
Defined.

(** ** From the grids to the chart *)
Section GridRows.

Local Open Scope Z_scope.

Lemma cells_nonneg (prefix : string) (cell_width line : Z) (n : nat) (st : row_state) :
  0 ≤ line →
  (∀ k l c, coord_map st !! k = Some (l, c) → 0 ≤ l) →
  ∀ k l c, coord_map (Nat.iter n (cell_step prefix cell_width line) st) !! k
           = Some (l, c) → 0 ≤ l.
Proof.
  intros Hline Hst. induction n as [|n IH]; [done|].
  simpl. intros k l c.
  destruct (decide (prefix +:+ str_of_nat
                      (dot_number (Nat.iter n (cell_step prefix cell_width line) st))
                    = k)) as [<-|Hk].
  - rewrite lookup_insert_eq. intros [= <- <-]. done.
  - rewrite lookup_insert_ne by done. apply IH.
Qed.

Lemma rows_nonneg (prefix : string) (C R cell_width : Z) (border : string) (n : nat) :
  ∀ k l c,
    grid_coords (foldl (row_step prefix C R cell_width border)
                   {| grid_lines := [border]; grid_coords := ∅; grid_dot := 1 |}
                   (seq 0 n)) !! k = Some (l, c) → 0 ≤ l.
Proof.
  induction n as [|n IH]; [simpl; intros k l c H; by rewrite lookup_empty in H|].
  rewrite seq_S, foldl_app. cbn [foldl Nat.add]. unfold row_step at 1. cbv zeta.
  cbn [grid_coords]. apply cells_nonneg; [lia|]. exact IH.
Qed.

Lemma rows_length (prefix : string) (C R cell_width : Z) (border : string) (i : nat) :
  (i ≤ Z.to_nat R)%nat →
  length (grid_lines (foldl (row_step prefix C R cell_width border)
                        {| grid_lines := [border]; grid_coords := ∅; grid_dot := 1 |}
                        (seq 0 i)))
  = (if (i =? 0)%nat || (i <? Z.to_nat R)%nat then 2 * i + 1 else 2 * i)%nat.
Proof.
  induction i as [|i IH]; intros Hi; [done|].
  rewrite seq_S, foldl_app. cbn [foldl Nat.add]. unfold row_step at 1. cbv zeta.
  cbn [grid_lines]. set (gs := foldl _ _ (seq 0 i)) in *.
  assert (Hlen : length (grid_lines gs) = (2 * i + 1)%nat).
  { rewrite IH by lia. destruct (Nat.eqb_spec i 0), (Nat.ltb_spec i (Z.to_nat R));
      simpl; lia. }
  destruct (Z.ltb_spec (Z.of_nat i) (R - 1)), (Nat.ltb_spec (S i) (Z.to_nat R));
    try lia; simpl; rewrite ?length_app, Hlen; simpl; lia.
Qed.

Lemma grid_line_count (prefix : string) (C R cell_width : Z) :
  Z.of_nat (length (generate_ascii_grid prefix C R cell_width).1)
  = if 1 <=? R then 2 * R + 1 else 2.
Proof.
  unfold generate_ascii_grid. cbv zeta. cbn [fst].
  rewrite length_app, rows_length by done. simpl length.
  destruct (Z.leb_spec 1 R), (Nat.eqb_spec (Z.to_nat R) 0),
    (Nat.ltb_spec (Z.to_nat R) (Z.to_nat R)); simpl; lia.
Qed.

Lemma grid_coords_rows (prefix : string) (C R cell_width : Z) (k : string) (l c : Z) :
  (generate_ascii_grid prefix C R cell_width).2 !! k = Some (l, c) →
  0 ≤ l < Z.of_nat (length (generate_ascii_grid prefix C R cell_width).1).
Proof.
  intros Hk. rewrite grid_line_count. revert Hk.
  unfold generate_ascii_grid. cbv zeta. cbn [snd]. intros Hk.
  pose proof (rows_nonneg _ _ _ _ _ _ _ _ _ Hk) as H0.
  destruct (rows_inv prefix C R cell_width
              ("+" +:+ str_repeat (str_repeat "-" cell_width +:+ "+") C)
              {| grid_lines := ["+" +:+ str_repeat (str_repeat "-" cell_width +:+ "+") C];
                 grid_coords := ∅; grid_dot := 1 |} (Z.to_nat R)) as [_ Hb].
  { simpl. intros k1 k2 v H. by rewrite lookup_empty in H. }
  { simpl. intros k' l' c' H. by rewrite lookup_empty in H. }
  apply Hb in Hk. destruct (Z.leb_spec 1 R); lia.
Qed.

Lemma padded_height (prefix : string) (C R cell_width max_R : Z) :
  1 ≤ max_R → R ≤ max_R →
  Z.of_nat (length (padded_grid prefix C R cell_width max_R).1) = 2 * max_R + 1.
Proof.
  intros Hm HR. unfold padded_grid.
  pose proof (grid_line_count prefix C R cell_width) as Hh.
  destruct (generate_ascii_grid prefix C R cell_width) as [lines coords].
  cbn [fst] in *. rewrite length_pad_lines, Hh. destruct (1 <=? R) eqn:E; lia.
Qed.

Lemma padded_coords_rows (prefix : string) (C R cell_width max_R : Z)
    (k : string) (l c : Z) :
  (padded_grid prefix C R cell_width max_R).2 !! k = Some (l, c) →
  0 ≤ l < Z.of_nat (length (padded_grid prefix C R cell_width max_R).1).
Proof.
  unfold padded_grid. intros Hk.
  pose proof (grid_coords_rows prefix C R cell_width k l c) as Hr.
  destruct (generate_ascii_grid prefix C R cell_width) as [lines coords].
  cbn [fst snd] in *. specialize (Hr Hk).
  pose proof (length_pad_lines lines max_R). lia.
Qed.

End GridRows.

Section ChartFacts.

Local Open Scope Z_scope.

Variable GRID_PREFIXES : list string.
Variable GRID_DIMENSIONS : gmap string (Z * Z).
Variable E2E_PINS : list string.
Variables max_C max_R cell_width : Z.

Local Abbreviation grid := (grid_of GRID_DIMENSIONS max_C max_R cell_width).
Local Abbreviation made := (grids_made GRID_DIMENSIONS max_C max_R cell_width).

Lemma generate_grid_run (grid_lines : gmap string loc)
    (map_coords : gmap string (gmap string (Z * Z))) (prefix : string)
    (h : gmap loc (list string)) :
  generate_grid GRID_DIMENSIONS max_C max_R cell_width (grid_lines, map_coords) prefix h
  = (inr (<[prefix := fresh (dom h)]> grid_lines, <[prefix := (grid prefix).2]> map_coords),
     <[fresh (dom h) := (grid prefix).1]> h).
Proof.
  unfold generate_grid, grid_of.
  destruct (default (max_C, max_R) (GRID_DIMENSIONS !! prefix)) as [C R].
  by destruct (padded_grid prefix C R cell_width max_R) as [lines coords].
Qed.

Lemma generate_grid_made (grids : gmap string loc * gmap string (gmap string (Z * Z)))
    (prefix : string) (h : gmap loc (list string)) :
  made grids h → live_in h grids.1 →
  match generate_grid GRID_DIMENSIONS max_C max_R cell_width grids prefix h with
  | (inr grids', h') =>
      made grids' h' ∧ live_in h' grids'.1 ∧ dom grids'.1 = {[prefix]} ∪ dom grids.1
  | (inl _, _) => False
  end.
Proof.
  destruct grids as [gl mc]. intros [Hdom Hall] Hlive. rewrite generate_grid_run.
  cbn [fst snd] in *.
  pose proof (is_fresh (dom h)) as Hfresh. set (l' := fresh (dom h)) in *.
  split; [split|split]; cbn [fst snd].
  - by rewrite !dom_insert_L, Hdom.
  - intros p l. destruct (decide (prefix = p)) as [<-|Hne].
    + rewrite !lookup_insert_eq. intros [= <-]. by rewrite lookup_insert_eq.
    + rewrite lookup_insert_ne by done. intros Hl.
      destruct (Hall p l Hl) as [Hh Hm]. split.
      * rewrite lookup_insert_ne; [done|]. intros Heq. subst l.
        apply Hfresh. by apply (Hlive p).
      * by rewrite lookup_insert_ne.
  - intros p l. destruct (decide (prefix = p)) as [<-|Hne].
    + rewrite lookup_insert_eq. intros [= <-]. rewrite dom_insert_L.
      apply elem_of_union_l. by apply elem_of_singleton.
    + rewrite lookup_insert_ne by done. intros Hl. rewrite dom_insert_L.
      apply elem_of_union_r. by apply (Hlive p).
  - apply dom_insert_L.
Qed.

Lemma generate_grids_made (ps : list string)
    (grids : gmap string loc * gmap string (gmap string (Z * Z)))
    (h : gmap loc (list string)) :
  made grids h → live_in h grids.1 →
  match fold_each ps (generate_grid GRID_DIMENSIONS max_C max_R cell_width) grids h with
  | (inr grids', h') =>
      made grids' h' ∧ live_in h' grids'.1
      ∧ dom grids'.1 = list_to_set ps ∪ dom grids.1
  | (inl _, _) => False
  end.
Proof.
  revert grids h. induction ps as [|p ps IH]; intros grids h Hm Hl.
  - simpl. split; [done|]. split; [done|]. by rewrite union_empty_l_L.
  - cbn [fold_each]. rewrite bind_run.
    pose proof (generate_grid_made grids p h Hm Hl) as H1.
    destruct (generate_grid _ _ _ _ grids p h) as [[e|grids1] h1]; [done|].
    destruct H1 as (Hm1 & Hl1 & Hd1). specialize (IH grids1 h1 Hm1 Hl1).
    destruct (fold_each ps _ grids1 h1) as [[e|grids2] h2]; [done|].
    destruct IH as (Hm2 & Hl2 & Hd2). split; [done|]. split; [done|].
    rewrite Hd2, Hd1. cbn [list_to_set].
    by rewrite (assoc_L (∪)), (comm_L (∪) (list_to_set ps) {[p]}).
Qed.

Lemma generate_grids_spec (h : gmap loc (list string)) :
  match generate_grids GRID_PREFIXES GRID_DIMENSIONS max_C max_R cell_width h with
  | (inr grids, h') =>
      made grids h' ∧ live_in h' grids.1 ∧ dom grids.1 = list_to_set GRID_PREFIXES
  | (inl _, _) => False
  end.
Proof.
  unfold generate_grids.
  assert (Hm0 : made (∅, ∅) h).
  { split; simpl; [by rewrite !dom_empty_L|].
    intros p l Hl. by rewrite lookup_empty in Hl. }
  pose proof (generate_grids_made GRID_PREFIXES (∅, ∅) h Hm0
                (map_Forall_empty _)) as H.
  destruct (fold_each GRID_PREFIXES _ (∅, ∅) h) as [[e|grids] h']; [done|].
  destruct H as (Hm & Hl & Hd). split; [done|]. split; [done|].
  simpl in Hd. by rewrite dom_empty_L, union_empty_r_L in Hd.
Qed.

(** *** The operations of the colour assigner *)

Lemma elem_of_concat {A : Type} (ls : list (list A)) (x : A) :
  x ∈ concat ls ↔ ∃ l, l ∈ ls ∧ x ∈ l.
Proof.
  induction ls as [|l0 ls IH]; simpl.
  - split; [by intros ?%elem_of_nil|]. by intros (l & ?%elem_of_nil & _).
  - rewrite elem_of_app, IH. split.
    + intros [Hx|(l & Hl & Hx)]; [exists l0|exists l]; (split; [|done]);
        [left|by right].
    + intros (l & [->|Hl]%elem_of_cons & Hx); [by left|right; by exists l].
Qed.

Lemma elem_of_pin_ops (map_coords : gmap string (gmap string (Z * Z)))
    (state_pins_by_prefix : gmap string (gset string))
    (entries : list (string * string)) (op : Z * Z * string * string) :
  op ∈ concat (pin_ops map_coords state_pins_by_prefix cell_width <$> entries) →
  ∃ coords item c_end,
    map_coords !! op.2 = Some coords ∧ coords !! item = Some (op.1.1.1, c_end).
Proof.
  intros (ops & ([item color] & -> & _)%list_elem_of_fmap & Hop)%elem_of_concat.
  unfold pin_ops in Hop.
  destruct (map_coords !! Re.head item) as [coords|] eqn:Hc;
    [|by apply elem_of_nil in Hop].
  destruct (coords !! item) as [[r c_end]|] eqn:Hi; [|by apply elem_of_nil in Hop].
  exists coords, item, c_end.
  apply elem_of_cons in Hop as [->|Hop]; [done|].
  apply elem_of_cons in Hop as [->|Hop]; [done|].
  by apply elem_of_nil in Hop.
Qed.

Lemma global_ops_valid (groups : list (list string))
    (state_pins_by_prefix : gmap string (gset string))
    (grids : gmap string loc * gmap string (gmap string (Z * Z)))
    (h : gmap loc (list string)) :
  made grids h → dom grids.1 = list_to_set GRID_PREFIXES →
  let ops := (calculate_global_colors GRID_PREFIXES E2E_PINS groups grids.2
                state_pins_by_prefix cell_width).1.2 in
  prefixes_known GRID_PREFIXES ops ∧ rows_valid grids.1 h ops.
Proof.
  intros [Hdom Hall] Hd. unfold calculate_global_colors. cbv zeta. cbn [fst snd].
  split; apply Forall_forall; intros op Hop;
    apply elem_of_pin_ops in Hop as (coords & item & c_end & Hc & Hi).
  - apply (elem_of_list_to_set (C := gset string)). rewrite <- Hd, <- Hdom.
    apply elem_of_dom. by eexists.
  - intros l Hl. destruct (Hall _ _ Hl) as [Hh Hm].
    assert (coords = (grid op.2).2) as -> by congruence.
    unfold content_of. rewrite Hh. simpl.
    unfold grid_of in *.
    destruct (default (max_C, max_R) (GRID_DIMENSIONS !! op.2)) as [C R].
    apply padded_coords_rows in Hi. rewrite py_index_nonneg by lia. by eexists.
Qed.

(** *** Rows of the chart *)

Lemma line_parts_ok (final_lines : gmap string loc) (h : gmap loc (list string))
    (i : nat) (ps : list string) :
  (∀ p, p ∈ ps → ∃ l, final_lines !! p = Some l
                      ∧ (i < length (content_of h l))%nat) →
  ∃ parts, line_parts final_lines h i ps = inr parts.
Proof.
  induction ps as [|p ps IH]; intros Hps; [by eexists|].
  destruct (Hps p) as (l & Hl & Hi); [left|].
  destruct IH as [parts Hparts]; [by intros q Hq; apply Hps; right|].
  simpl. rewrite Hl. fold (content_of h l).
  destruct (lookup_lt_is_Some_2 _ _ Hi) as [line Hline].
  rewrite Hline, Hparts. by eexists.
Qed.

Lemma print_rows_ok (final_lines : gmap string loc) (h : gmap loc (list string))
    (rows : list nat) :
  (∀ i, i ∈ rows → ∃ parts, line_parts final_lines h i GRID_PREFIXES = inr parts) →
  ∃ out, print_rows GRID_PREFIXES final_lines h rows = (out, inr tt)
         ∧ length out = length rows.
Proof.
  induction rows as [|i rows IH]; intros Hrows; [by eexists|].
  destruct (Hrows i) as [parts Hparts]; [left|].
  destruct IH as (out & Hout & Hlen); [by intros j Hj; apply Hrows; right|].
  simpl. rewrite Hparts, Hout. eexists. split; [done|]. simpl. by rewrite Hlen.
Qed.

(** X20.  The consolidated chart is always drawn.  Whatever the groups
    and the state pins, when no grid has more rows than [max_R] (at
    least 1): step 2 makes a grid of [2 max_R + 1] lines for every
    prefix; [build_colored_grid_lines], given the operations of
    [calculate_global_colors] for the coordinates of these grids,
    raises neither [KeyError] nor [IndexError]; and
    [render_switch_grids] prints the header, the note and one line for
    each of the [2 max_R + 1] rows, without an exception. *)
Theorem consolidated_chart_rendered (groups : list (list string))
    (state_pins_by_prefix : gmap string (gset string)) (note_text : string)
    (h0 : gmap loc (list string)) :
  1 ≤ max_R → rows_bounded GRID_DIMENSIONS max_R →
  ∃ grid_lines map_coords h1 final_lines h2 out,
    generate_grids GRID_PREFIXES GRID_DIMENSIONS max_C max_R cell_width h0
    = (inr (grid_lines, map_coords), h1)
    ∧ (∀ p l, grid_lines !! p = Some l →
              Z.of_nat (length (content_of h1 l)) = 2 * max_R + 1)
    ∧ build_colored_grid_lines GRID_PREFIXES grid_lines
        (calculate_global_colors GRID_PREFIXES E2E_PINS groups map_coords
           state_pins_by_prefix cell_width).1.2 h1
      = (inr final_lines, h2)
    ∧ render_switch_grids GRID_PREFIXES final_lines (2 * max_R + 1) note_text h2
      = (out, inr tt)
    ∧ Z.of_nat (length out) = 2 * max_R + 3.
Proof.
  intros Hmax Hbound.
  pose proof (generate_grids_spec h0) as Hgen.
  destruct (generate_grids _ _ _ _ _ h0) as [[e|[grid_lines map_coords]] h1]; [done|].
  destruct Hgen as (Hmade & Hlive & Hdom). cbn [fst] in *.
  assert (Hheight : ∀ p l, grid_lines !! p = Some l →
            Z.of_nat (length (content_of h1 l)) = 2 * max_R + 1).
  { intros p l Hl. destruct Hmade as [_ Hall]. destruct (Hall p l Hl) as [Hh _].
    unfold content_of. rewrite Hh. simpl. unfold grid_of.
    destruct (GRID_DIMENSIONS !! p) as [[C R]|] eqn:Hd; simpl.
    - apply padded_height; [done|]. by apply (Hbound p C R).
    - apply padded_height; [done|lia]. }
  destruct (global_ops_valid groups state_pins_by_prefix (grid_lines, map_coords) h1
              Hmade Hdom) as [Hknown Hvalid].
  cbn [fst snd] in *.
  set (ops := (calculate_global_colors GRID_PREFIXES E2E_PINS groups map_coords
                 state_pins_by_prefix cell_width).1.2) in *.
  pose proof (build_cases GRID_PREFIXES grid_lines ops h1 Hlive) as Hbuild.
  assert (Hbase : prefixes_in_base GRID_PREFIXES grid_lines).
  { apply Forall_forall. intros p Hp. apply elem_of_dom. rewrite Hdom.
    by apply elem_of_list_to_set. }
  destruct (build_colored_grid_lines GRID_PREFIXES grid_lines ops h1)
    as [[[]|final_lines] h2] eqn:Hrun.
  - destruct Hbuild. done.
  - by destruct Hbuild as (_ & _ & Hn).
  - destruct Hbuild as (_ & _ & _ & Hd2 & Hh2).
    destruct (print_rows_ok final_lines h2 (seq 0 (Z.to_nat (2 * max_R + 1))))
      as (out & Hout & Hlen).
    { intros i Hi%elem_of_seq. apply line_parts_ok. intros p Hp.
      assert (is_Some (final_lines !! p)) as [l' Hl'].
      { apply elem_of_dom. rewrite Hd2. by apply elem_of_list_to_set. }
      exists l'. split; [done|]. destruct (Hh2 p l' Hl') as (l & Hl & Hll).
      rewrite Hll. specialize (Hheight p l Hl). lia. }
    exists grid_lines, map_coords, h1, final_lines, h2.
    eexists. split; [done|]. split; [done|]. split; [exact Hrun|].
    unfold render_switch_grids. rewrite Hout. split; [done|].
    simpl length. rewrite Hlen, length_seq. lia.
Qed.

End ChartFacts.

Lemma consolidated_chart_rendered_witness :
  ∃ grid_lines map_coords h1 final_lines h2 out,
    generate_grids ["A"] {[ "A" := (2, 1)%Z ]} 3 1 4 ∅
    = (inr (grid_lines, map_coords), h1)
    ∧ (∀ p l, grid_lines !! p = Some l →
              Z.of_nat (length (content_of h1 l)) = (2 * 1 + 1)%Z)
    ∧ build_colored_grid_lines ["A"] grid_lines
        (calculate_global_colors ["A"] ["G"; "T"] [["A1"; "G"]] map_coords
           {[ "A" := {[ "A1" ]} ]} 4).1.2 h1
      = (inr final_lines, h2)
    ∧ render_switch_grids ["A"] final_lines (2 * 1 + 1) "note" h2 = (out, inr tt)
    ∧ Z.of_nat (length out) = (2 * 1 + 3)%Z.
Proof.
  apply (consolidated_chart_rendered ["A"] {[ "A" := (2, 1)%Z ]} ["G"; "T"] 3 1 4
           [["A1"; "G"]] {[ "A" := {[ "A1" ]} ]} "note" ∅).
  - lia.
  - intros p C R [_ [= _ <-]]%lookup_singleton_Some. lia.
Defined.

Example consolidated_chart_run :
  match generate_grids ["A"] {[ "A" := (2, 1)%Z ]} 3 1 4 ∅ with
  | (inr (grid_lines, map_coords), h1) =>
      let ops := (calculate_global_colors ["A"] ["G"; "T"] [["A1"; "G"]] map_coords
                    {[ "A" := {[ "A1" ]} ]} 4).1.2 in
      match build_colored_grid_lines ["A"] grid_lines ops h1 with
      | (inr final_lines, h2) =>
          render_switch_grids ["A"] final_lines 3 "note" h2
          = ([ Re.newline +:+ "SWITCH A"; "note"; "+----+----+";
               "|" +:+ palette 0 +:+ TEXT_BOLD_ITALIC_STATE +:+ " A1 "
                 +:+ PIN_TERMINATOR +:+ "| A2 |";
               "+----+----+" ], inr tt)
      | _ => False
      end
  | _ => False
  end.
Proof. vm_compute. reflexivity. Qed.

(** ** A coloured pin *)
Section PinCells.

Local Open Scope Z_scope.

Lemma grid_cell_at (prefix : string) (C R cell_width : Z) (k : string) (l c : Z) :
  names_fit prefix C R cell_width →
  (generate_ascii_grid prefix C R cell_width).2 !! k = Some (l, c) →
  0 ≤ l ∧ len (center k cell_width) = cell_width
  ∧ ∃ pre post,
      (generate_ascii_grid prefix C R cell_width).1 !! Z.to_nat l
      = Some (pre +:+ center k cell_width +:+ "|" +:+ post)
      ∧ len pre + cell_width = c.
Proof.
  intros Hfit Hk.
  apply grid_coords_closed in Hk as (n & Hn & -> & Hv); [|done].
  pose proof (Hfit n Hn) as Hfitn.
  assert (HC : (0 < Z.to_nat C)%nat) by nia.
  set (i := ((n - 1) / Z.to_nat C)%nat). set (j := ((n - 1) mod Z.to_nat C)%nat).
  assert (Hj : (j < Z.to_nat C)%nat) by (apply Nat.mod_upper_bound; lia).
  assert (Hnij : n = (1 + i * Z.to_nat C + j)%nat).
  { pose proof (Nat.div_mod_eq (n - 1) (Z.to_nat C)). unfold i, j. lia. }
  assert (Hi : (i < Z.to_nat R)%nat) by nia.
  unfold cell_coord in Hv. fold i j in Hv. injection Hv as -> ->.
  split; [lia|]. split; [by apply len_center|].
  unfold generate_ascii_grid. cbv zeta. cbn [fst].
  set (border := "+" +:+ str_repeat (str_repeat "-" cell_width +:+ "+") C).
  destruct (rows_layout prefix C R cell_width border (Z.to_nat R) Hfit (le_n _))
    as (_ & _ & _ & _ & _ & Hodd).
  destruct (Hodd i Hi) as (row & Hrow & _ & Hcells).
  destruct (Hcells j Hj) as (pre & post & -> & Hpre). rewrite <- Hnij in *.
  exists pre, post. split; [|done].
  replace (Z.to_nat (2 * Z.of_nat i + 1)) with (2 * i + 1)%nat by lia.
  by apply lookup_app_l_Some.
Qed.

Lemma chars_app (a b : string) : chars (a +:+ b) = chars a ++ chars b.
Proof.
  unfold chars. induction a as [|x a IH]; [done|].
  rewrite append_cons. cbn [String.list_ascii_of_string fmap list_fmap app].
  f_equal. exact IH.
Qed.

Lemma append_nil_r (s : string) : s +:+ "" = s.
Proof. induction s as [|x s IH]; [done|]. by rewrite append_cons, IH. Qed.

Lemma concat_empty_cons (x : string) (l : list string) :
  String.concat "" (x :: l) = x +:+ String.concat "" l.
Proof. destruct l; simpl; [by rewrite append_nil_r|done]. Qed.

Lemma concat_empty_app (l1 l2 : list string) :
  String.concat "" (l1 ++ l2) = String.concat "" l1 +:+ String.concat "" l2.
Proof.
  induction l1 as [|x l1 IH]; [done|].
  cbn [app]. by rewrite !concat_empty_cons, IH, append_assoc.
Qed.

Lemma colored_text_cell (pre cell post color terminator : string) (c : Z) :
  len pre + len cell = c →
  colored_text (pre +:+ cell +:+ post) [(c, terminator); (c - len cell, color)]
  = pre +:+ color +:+ cell +:+ terminator +:+ post.
Proof.
  intros Hc. unfold colored_text.
  assert (Hs : sorted fst Z_ge [(c, terminator); (c - len cell, color)]
               = [(c, terminator); (c - len cell, color)]).
  { simpl. unfold Z_ge. pose proof (len_nonneg cell).
    by destruct (Z.leb_spec (c - len cell) c); [|lia]. }
  rewrite Hs. cbn [foldl]. rewrite !chars_app.
  pose proof (length_chars pre) as Hp. pose proof (length_chars cell) as Hl.
  unfold len in *.
  rewrite (py_insert_in_range (chars pre ++ chars cell ++ chars post) c)
    by (rewrite !length_app; lia).
  replace (Z.to_nat c) with (length (chars pre ++ chars cell))
    by (rewrite length_app; lia).
  rewrite (app_assoc (chars pre)), take_app_length, drop_app_length.
  rewrite <- app_assoc.
  rewrite py_insert_in_range by (rewrite !length_app; simpl; lia).
  replace (Z.to_nat (c - Z.of_nat (String.length cell))) with (length (chars pre))
    by lia.
  rewrite take_app_length, drop_app_length.
  rewrite concat_empty_app, concat_empty_cons, concat_empty_app, concat_empty_cons.
  by rewrite !concat_chars.
Qed.

(** X21.  Colouring one pin of a grid whose labels fit their cells.
    The two operations the program makes for a pin, the terminator at
    the recorded offset and the colour code [cell_width] columns before
    it, change the line of the pin and no other, and on that line they
    enclose the centred label of the pin, and nothing else, between the
    colour code and the terminator. *)
Theorem pin_cell_colored (prefix : string) (C R cell_width : Z) (k : string) (l c : Z)
    (color terminator : string) (lines : loc) (h : gmap loc (list string)) :
  names_fit prefix C R cell_width →
  (generate_ascii_grid prefix C R cell_width).2 !! k = Some (l, c) →
  h !! lines = Some (generate_ascii_grid prefix C R cell_width).1 →
  ∃ pre post,
    (generate_ascii_grid prefix C R cell_width).1 !! Z.to_nat l
    = Some (pre +:+ center k cell_width +:+ "|" +:+ post)
    ∧ apply_coloring lines [(l, c, terminator); (l, c - cell_width, color)] h
      = (inr tt,
         <[lines := <[Z.to_nat l := pre +:+ color +:+ center k cell_width
                                      +:+ terminator +:+ "|" +:+ post]>
                      (generate_ascii_grid prefix C R cell_width).1]> h).
Proof.
  intros Hfit Hk Hh.
  destruct (grid_cell_at prefix C R cell_width k l c Hfit Hk)
    as (Hl & Hw & pre & post & Hrow & Hpre).
  exists pre, post. split; [done|].
  pose proof (lookup_lt_Some _ _ _ Hrow) as Hlt.
  rewrite (apply_coloring_lines lines _ h _ Hh).
  2:{ constructor; [cbn [fst]; lia|]. constructor; [cbn [fst]; lia|]. constructor. }
  f_equal. f_equal. apply list_eq. intros i. rewrite list_lookup_imap.
  destruct (decide (i = Z.to_nat l)) as [->|Hne].
  - rewrite list_lookup_insert_eq by done. rewrite Hrow. simpl. f_equal.
    rewrite Z2Nat.id by done. unfold ops_of_line. simpl.
    rewrite !decide_True by done. simpl.
    rewrite <- Hw at 2. apply colored_text_cell. lia.
  - rewrite list_lookup_insert_ne by done.
    destruct (_ !! i) as [line|]; simpl; [|done]. f_equal.
    unfold ops_of_line. simpl. rewrite !decide_False by lia. simpl.
    apply colored_text_nil.
Qed.

End PinCells.

Lemma pin_cell_colored_witness :
  let h := {[ 0%nat := (generate_ascii_grid "A" 2 2 4).1 ]} : gmap loc (list string) in
  ∃ pre post,
    (generate_ascii_grid "A" 2 2 4).1 !! Z.to_nat 3
    = Some (pre +:+ center "A4" 4 +:+ "|" +:+ post)
    ∧ apply_coloring 0%nat [(3, 10, "]"); (3, 10 - 4, "[")]%Z h
      = (inr tt,
         <[0%nat := <[Z.to_nat 3 := pre +:+ "[" +:+ center "A4" 4
                                     +:+ "]" +:+ "|" +:+ post]>
                      (generate_ascii_grid "A" 2 2 4).1]> h).
Proof.
  apply (pin_cell_colored "A" 2 2 4 "A4" 3 10 "[" "]" 0%nat
           {[ 0%nat := (generate_ascii_grid "A" 2 2 4).1 ]}).
  - apply names_fit_A_2x2.
  - vm_compute. reflexivity.
  - apply lookup_singleton_eq.
Defined.

(** ** The table of external connections *)
Section TableFacts.

Lemma string_leb_trans (a b c : string) :
  String.leb a b = true → String.leb b c = true → String.leb a c = true.
Proof.
  unfold String.leb. revert b c.
  induction a as [|x a IH]; intros [|y b] [|z c]; simpl; try done.
  unfold Ascii.compare.
  destruct (N.compare_spec (N_of_ascii x) (N_of_ascii y)) as [Hxy|Hxy|Hxy],
           (N.compare_spec (N_of_ascii y) (N_of_ascii z)) as [Hyz|Hyz|Hyz],
           (N.compare_spec (N_of_ascii x) (N_of_ascii z)) as [Hxz|Hxz|Hxz];
    try done; try lia.
  apply IH.
Qed.

Lemma str_str_le_total (a b : string * string) :
  str_str_le a b = false → str_str_le b a = true.
Proof.
  unfold str_str_le. rewrite (String.eqb_sym b.1 a.1).
  destruct (String.eqb a.1 b.1); apply str_le_total.
Qed.

Lemma str_str_le_trans (a b c : string * string) :
  str_str_le a b = true → str_str_le b c = true → str_str_le a c = true.
Proof.
  unfold str_str_le.
  destruct (String.eqb_spec a.1 b.1) as [Hab|Hab],
           (String.eqb_spec b.1 c.1) as [Hbc|Hbc],
           (String.eqb_spec a.1 c.1) as [Hac|Hac]; try congruence.
  - apply string_leb_trans.
  - intros H1 H2. destruct Hab. rewrite <- Hac in H2.
    by apply String.leb_antisym.
  - apply string_leb_trans.
Qed.

Lemma str_str_le_antisym (a b : string * string) :
  str_str_le a b = true → str_str_le b a = true → a = b.
Proof.
  unfold str_str_le. rewrite (String.eqb_sym b.1 a.1).
  destruct a as [a1 a2], b as [b1 b2]. simpl.
  destruct (String.eqb_spec a1 b1) as [->|Hne].
  - intros H1 H2. f_equal. by apply String.leb_antisym.
  - intros H1 H2. destruct Hne. by apply String.leb_antisym.
Qed.

(** X22.  [prepare_external_items] returns the items that are neither
    grid definitions nor [e2epins:] definitions, ordered by colour and
    then by upper-case name.  Its argument is a set, iterated in an
    order the program does not control: when no two of the items have
    both the colour and the upper-case name in common, the result is
    the same for every order of iteration. *)
Theorem prepare_external_items_order (items items' : list string)
    (color_map : list (string * string)) :
  items ≡ₚ items' →
  NoDup (table_key color_map <$> filter table_item items) →
  prepare_external_items items color_map = prepare_external_items items' color_map
  ∧ prepare_external_items items color_map ≡ₚ filter table_item items
  ∧ Sorted (key_le (table_key color_map) str_str_le)
           (prepare_external_items items color_map).
Proof.
  intros Hp Hnd. unfold prepare_external_items.
  assert (Hf : ∀ l : list string, filter (λ item, negb (is_grid_definition item)
                                    && negb (is_e2e_pin_definition item)) l
                    = filter table_item l).
  { intros l. apply list_filter_iff. intros x. unfold table_item.
    rewrite Is_true_true, andb_true_iff, !negb_true_iff. done. }
  rewrite !Hf. fold (table_key color_map). split; [|split].
  - apply (sorted_unique _ _ str_str_le_total str_str_le_trans str_str_le_antisym);
      [by rewrite Hp|done].
  - apply sorted_Permutation.
  - apply sorted_Sorted, str_str_le_total.
Qed.

End TableFacts.

Lemma prepare_external_items_order_witness :
  let color_map := [("P1+", palette 1); ("G", palette 0)] in
  prepare_external_items ["T"; "P1+"; "G"] color_map
  = prepare_external_items ["G"; "T"; "P1+"] color_map
  ∧ prepare_external_items ["T"; "P1+"; "G"] color_map
    ≡ₚ filter table_item ["T"; "P1+"; "G"]
  ∧ Sorted (key_le (table_key color_map) str_str_le)
           (prepare_external_items ["T"; "P1+"; "G"] color_map).
Proof.
  apply (prepare_external_items_order ["T"; "P1+"; "G"] ["G"; "T"; "P1+"]
           [("P1+", palette 1); ("G", palette 0)]).
  - apply (Permutation_cons_append ["T"; "P1+"] "G") || (symmetry;
      apply (Permutation_cons_append ["T"; "P1+"] "G")).
  - apply (bool_decide_unpack _). vm_compute. exact I.
Defined.

(** Two items that differ in case only, of one colour, come out in the
    order of the iteration. *)
Example prepare_external_items_ties :
  prepare_external_items ["gnd"; "GND"] [] = ["gnd"; "GND"]
  ∧ prepare_external_items ["GND"; "gnd"] [] = ["GND"; "gnd"].
Proof. vm_compute. done. Qed.

(** ** The identifier classifier *)
Section ClassifierMore.

Lemma skip_digits_string_of_uint (d : Decimal.uint) :
  Re.skip_digits (DecimalString.NilEmpty.string_of_uint d) = EmptyString.
Proof. induction d; simpl; done. Qed.

Lemma to_uint_nonnil (n : nat) : Nat.to_uint n ≠ Decimal.Nil.
Proof.
  rewrite <- (DecimalNat.Unsigned.of_to n) at 1.
  rewrite DecimalNat.Unsigned.to_of. apply DecimalFacts.unorm_nonnil.
Qed.

Lemma digits1_str_of_nat (n : nat) : Re.digits1 (str_of_nat n) = Some EmptyString.
Proof.
  unfold str_of_nat. pose proof (to_uint_nonnil n) as Hn.
  destruct (Nat.to_uint n) as [|d|d|d|d|d|d|d|d|d|d]; [done|..]; simpl;
    by rewrite skip_digits_string_of_uint.
Qed.

Lemma int_acc_string_of_uint (d : Decimal.uint) (acc : N) :
  Re.int_acc acc (DecimalString.NilEmpty.string_of_uint d)
  = N.of_nat (Nat.of_uint_acc d (N.to_nat acc)).
Proof.
  revert acc. induction d; intros acc; simpl;
    [by rewrite N2Nat.id|rewrite IHd; f_equal; f_equal;
     rewrite Nat.tail_mul_spec; change (Re.code _ - 48)%nat with 0%nat ||
     idtac; lia..].
Qed.

Lemma int_str_of_nat (n : nat) : Re.int (str_of_nat n) = N.of_nat n.
Proof.
  unfold Re.int, str_of_nat. rewrite int_acc_string_of_uint.
  change (Nat.of_uint_acc (Nat.to_uint n) (N.to_nat 0)) with (Nat.of_uint (Nat.to_uint n)).
  by rewrite DecimalNat.Unsigned.of_to.
Qed.

Lemma match_pin_cell_name (c : ascii) (n : nat) :
  Re.is_upper c = true →
  Re.match_pin (cell_name (String c EmptyString) n) = true.
Proof.
  intros Hc. unfold cell_name. change (String c "" +:+ str_of_nat n)
    with (String c (str_of_nat n)).
  simpl. by rewrite Hc, digits1_str_of_nat.
Qed.

Lemma head_cell_name (c : ascii) (n : nat) :
  Re.head (cell_name (String c EmptyString) n) = String c EmptyString.
Proof.
  unfold Re.head, cell_name.
  change (String c "" +:+ str_of_nat n) with (String c (str_of_nat n)).
  simpl. by destruct (str_of_nat n).
Qed.

(** X23.  The labels of a grid are pins.  For a prefix that is one
    upper-case letter, the label of every cell has the form of a pin;
    it is classified as a pin exactly when the prefix is a grid prefix,
    or no grid prefix is declared; its first character is the prefix,
    and the number read back from the rest, by which pins are sorted,
    is the number of the cell. *)
Theorem cell_names_are_pins (GRID_PREFIXES : list string) (c : ascii) (n : nat) :
  Re.is_upper c = true →
  let prefix := String c EmptyString in
  let name := cell_name prefix n in
  Re.match_pin name = true
  ∧ (is_pin GRID_PREFIXES name = true ↔ GRID_PREFIXES = [] ∨ prefix ∈ GRID_PREFIXES)
  ∧ pin_key name = (prefix, N.of_nat n).
Proof.
  intros Hc. cbv zeta. pose proof (match_pin_cell_name c n Hc) as Hm.
  split; [done|]. split.
  - unfold is_pin. rewrite Hm, head_cell_name.
    destruct GRID_PREFIXES as [|p ps]; [by split; [left|]|].
    simpl. rewrite bool_decide_eq_true. split; [by right|]. by intros [?|?].
  - unfold pin_key. rewrite head_cell_name.
    change (Re.tail (cell_name (String c "") n)) with (str_of_nat n).
    by rewrite int_str_of_nat.
Qed.

Lemma upper_not_space (c : ascii) : Re.is_upper c = true → Re.is_space c = false.
Proof.
  unfold Re.is_upper, Re.is_space. intros [H1 H2]%andb_prop.
  apply Nat.leb_le in H1, H2.
  destruct (Nat.leb_spec 9 (Re.code c)), (Nat.leb_spec (Re.code c) 13),
    (Nat.leb_spec 28 (Re.code c)), (Nat.leb_spec (Re.code c) 32); simpl; (done || lia).
Qed.

Lemma digit_not_space (c : ascii) : Re.is_digit c = true → Re.is_space c = false.
Proof.
  unfold Re.is_digit, Re.is_space. intros [H1 H2]%andb_prop.
  apply Nat.leb_le in H1, H2.
  destruct (Nat.leb_spec 9 (Re.code c)), (Nat.leb_spec (Re.code c) 13),
    (Nat.leb_spec 28 (Re.code c)), (Nat.leb_spec (Re.code c) 32); simpl; (done || lia).
Qed.

Lemma digit_not_upper (c : ascii) : Re.is_digit c = true → Re.is_upper c = false.
Proof.
  unfold Re.is_digit, Re.is_upper. intros [H1 H2]%andb_prop.
  apply Nat.leb_le in H1, H2.
  destruct (Nat.leb_spec 65 (Re.code c)), (Nat.leb_spec (Re.code c) 90);
    simpl; (done || lia).
Qed.

Lemma rstrip_cons (c : ascii) (r : string) :
  Re.is_space c = false → Re.rstrip (String c r) = String c (Re.rstrip r).
Proof. intros Hc. simpl. rewrite Hc. by destruct (Re.rstrip r). Qed.

Lemma match_pin_inv (s : string) :
  Re.match_pin s = true →
  ∃ c d r, s = String c (String d r) ∧ Re.is_upper c = true ∧ Re.is_digit d = true
           ∧ Re.at_end (Re.skip_digits r) = true.
Proof.
  destruct s as [|c [|d r]]; simpl; try done.
  - by rewrite andb_false_r.
  - intros [Hc Hd]%andb_prop. destruct (Re.is_digit d) eqn:E; [|done].
    by exists c, d, r.
Qed.

Lemma strip_pin (c d : ascii) (r : string) :
  Re.is_upper c = true → Re.is_digit d = true →
  Re.strip (String c (String d r)) = String c (String d (Re.rstrip r)).
Proof.
  intros Hc Hd. unfold Re.strip. simpl Re.lstrip. rewrite (upper_not_space c Hc).
  by rewrite !rstrip_cons by auto using upper_not_space, digit_not_space.
Qed.

Lemma pin_not_grid_definition (s : string) :
  Re.match_pin s = true → is_grid_definition s = false.
Proof.
  intros (c & d & r & -> & Hc & Hd & _)%match_pin_inv.
  unfold is_grid_definition. rewrite strip_pin by done. simpl.
  destruct (Ascii.eqb_spec d ":") as [->|Hne]; [done|]. by rewrite andb_false_r.
Qed.

Lemma rstrip_digits_head (r : string) :
  Re.at_end (Re.skip_digits r) = true →
  Re.rstrip r = EmptyString
  ∨ ∃ d r', Re.rstrip r = String d r' ∧ Re.is_digit d = true.
Proof.
  destruct r as [|d r]; [by left|].
  destruct (Re.is_digit d) eqn:Hd.
  - intros _. right. exists d, (Re.rstrip r). split; [|done].
    by apply rstrip_cons, digit_not_space.
  - simpl. rewrite Hd. unfold Re.at_end. simpl.
    destruct (Ascii.eqb_spec d (ascii_of_nat 10)) as [->|]; [|done].
    intros ->%String.eqb_eq. by left.
Qed.

Lemma prefix_cons (a b : ascii) (s1 s2 : string) :
  String.prefix (String a s1) (String b s2)
  = if ascii_dec a b then String.prefix s1 s2 else false.
Proof. reflexivity. Qed.

Lemma pin_not_e2e_pin_definition (s : string) :
  Re.match_pin s = true → is_e2e_pin_definition s = false.
Proof.
  intros (c & d & r & -> & Hc & Hd & Hr)%match_pin_inv.
  unfold is_e2e_pin_definition. rewrite strip_pin by done.
  unfold Re.startswith, Re.lower. cbn [Re.map_chars].
  change "e2epins:"%string with (String "e" (String "2" (String "e" "pins:"))).
  rewrite !prefix_cons.
  destruct (ascii_dec "e" (Re.lower_char c)); [|done].
  destruct (ascii_dec "2" (Re.lower_char d)); [|done].
  destruct (rstrip_digits_head r Hr) as [->|(d' & r' & -> & Hd')]; [done|].
  cbn [Re.map_chars]. rewrite prefix_cons.
  destruct (ascii_dec "e" (Re.lower_char d')) as [He|]; [|done].
  unfold Re.lower_char in He. rewrite (digit_not_upper d' Hd') in He.
  subst d'. vm_compute in Hd'. discriminate.
Qed.

Lemma pin_is_no_definition_aux (GRID_PREFIXES : list string) (s : string) :
  is_pin GRID_PREFIXES s = true → is_grid_definition s = false.
Proof.
  intros Hpin. apply pin_not_grid_definition.
  unfold is_pin in Hpin. destruct GRID_PREFIXES; [done|].
  by apply andb_prop in Hpin as [? _].
Qed.

(** X24.  A pin is nothing else.  A token classified as a pin is
    neither a grid definition, nor an [e2epins:] definition, nor a
    P-element, whatever the declared prefixes and terminals: the
    filters that drop definition tokens never drop a pin. *)
Theorem pin_is_no_definition (GRID_PREFIXES E2E_PINS : list string) (s : string) :
  is_pin GRID_PREFIXES s = true →
  is_grid_definition s = false ∧ is_e2e_pin_definition s = false
  ∧ is_p_element E2E_PINS s = false.
Proof.
  intros Hpin.
  assert (Hm : Re.match_pin s = true).
  { unfold is_pin in Hpin. destruct GRID_PREFIXES; [done|].
    by apply andb_prop in Hpin as [? _]. }
  split; [by apply pin_not_grid_definition|].
  split; [by apply pin_not_e2e_pin_definition|].
  destruct (is_p_element E2E_PINS s) eqn:Hp; [|done].
  apply (p_element_not_pin GRID_PREFIXES) in Hp. congruence.
Qed.

End ClassifierMore.

Lemma cell_names_are_pins_witness :
  let prefix := "A" in
  let name := cell_name prefix 12 in
  Re.match_pin name = true
  ∧ (is_pin ["A"; "B"] name = true ↔ ["A"; "B"] = [] ∨ prefix ∈ ["A"; "B"])
  ∧ pin_key name = (prefix, N.of_nat 12).
Proof.
  apply (cell_names_are_pins ["A"; "B"] "A"%char 12). vm_compute. reflexivity.
Defined.

Lemma pin_is_no_definition_witness :
  is_grid_definition "A12" = false ∧ is_e2e_pin_definition "A12" = false
  ∧ is_p_element ["G"; "T"] "A12" = false.
Proof.
  apply (pin_is_no_definition ["A"; "B"] ["G"; "T"] "A12"). vm_compute. reflexivity.
Defined.

(** ** Part 1 against part 3 *)
Section DictMore.

Context {K V : Type} `{EqDecision K}.

Lemma dict_set_fresh (d : list (K * V)) (k : K) (v : V) :
  dict_get d k = None → dict_set d k v = d ++ [(k, v)].
Proof.
  induction d as [|[k' v'] d IH]; simpl; [done|].
  destruct (decide (k = k')) as [->|Hne]; [done|].
  intros H. by rewrite IH.
Qed.

Lemma dict_has_fresh (d : list (K * V)) (k : K) :
  dict_get d k = None → dict_has d k = false.
Proof.
  intros H. unfold dict_has. apply bool_decide_eq_false. rewrite H. by intros [? ?].
Qed.

Lemma dict_get_filter_fresh (P : K * V → bool) (d : list (K * V)) (k : K) :
  dict_get d k = None → dict_get (filter P d) k = None.
Proof.
  induction d as [|[k' v'] d IH]; simpl; [done|].
  destruct (decide (k = k')) as [->|Hne]; [done|]. intros H.
  rewrite filter_cons. destruct (decide (P (k', v'))); [|by apply IH].
  simpl. rewrite decide_False by done. by apply IH.
Qed.

End DictMore.

Section Part1Facts.

Variable GRID_PREFIXES : list string.
Variable map_coords : gmap string (gmap string (Z * Z)).
Variable state_pins_by_prefix : gmap string (gset string).
Variable cell_width : Z.

Local Abbreviation item_step :=
  (chart_item GRID_PREFIXES map_coords state_pins_by_prefix cell_width).
Local Abbreviation agree := (charts_agree map_coords state_pins_by_prefix cell_width).
Local Abbreviation ops_of := (pin_ops map_coords state_pins_by_prefix cell_width).

Lemma concat_snoc {A : Type} (ls : list (list A)) (l : list A) :
  concat (ls ++ [l]) = concat ls ++ l.
Proof. by rewrite concat_app; simpl; rewrite app_nil_r. Qed.

Lemma chart_item_agree (color : string) (sti sti' : items_state)
    (maps : color_maps) (x : string) :
  item_step color sti x = inr sti' →
  agree (charts sti) maps →
  dict_get (pin_color_map maps) x = None →
  dict_get (external_color_map maps) x = None →
  agree (charts sti') (color_item GRID_PREFIXES color maps x)
  ∧ color_index (charts sti') = color_index (charts sti).
Proof.
  intros Hstep [Hext Hitems Hpins Hops] Hpin Hex.
  unfold chart_item in Hstep. unfold color_item.
  rewrite (dict_has_fresh _ _ Hpin).
  destruct (is_pin GRID_PREFIXES x) eqn:Hp.
  - destruct (map_coords !! Re.head x) as [current_map|] eqn:Hmc; [|done].
    assert (Hfresh2 : dict_has (pin_color_map_part2 (charts sti)) x = false).
    { apply dict_has_fresh. rewrite Hpins. by apply dict_get_filter_fresh. }
    destruct (current_map !! x) as [[r c_end]|] eqn:Hx.
    + destruct (color_ops_by_prefix sti !! Re.head x) as [ops_list|]; [|done].
      injection Hstep as <-. cbn [charts]. rewrite Hfresh2.
      split; [|done].
      split; cbn [pin_color_map_part2 consolidated_pin_ops_part2
                  external_color_map_part2 all_unique_external_items_part2
                  pin_color_map external_color_map all_unique_external_items];
        [done|done|..].
      * rewrite (dict_set_fresh (pin_color_map maps)) by done.
        rewrite dict_set_fresh
          by (rewrite Hpins; by apply dict_get_filter_fresh).
        rewrite filter_app, Hpins. f_equal.
        rewrite filter_cons_True; [done|].
        unfold has_coords. cbn [fst]. rewrite Hmc. apply Is_true_true.
        apply bool_decide_eq_true. by rewrite Hx.
      * rewrite (dict_set_fresh (pin_color_map maps)) by done.
        rewrite fmap_app.
        change (ops_of <$> [(x, color)]) with [ops_of (x, color)].
        rewrite concat_snoc, Hops. f_equal.
        unfold pin_ops. by rewrite Hmc, Hx.
    + injection Hstep as <-. split; [|done].
      split; cbn [pin_color_map external_color_map all_unique_external_items];
        [done|done|..].
      * rewrite (dict_set_fresh (pin_color_map maps)) by done.
        rewrite filter_app, Hpins. rewrite filter_cons_False, app_nil_r; [done|].
        unfold has_coords. cbn [fst]. rewrite Hmc, Hx. intros H%Is_true_true.
        apply bool_decide_eq_true in H. by destruct H.
      * rewrite (dict_set_fresh (pin_color_map maps)) by done.
        rewrite fmap_app.
        change (ops_of <$> [(x, color)]) with [ops_of (x, color)].
        rewrite concat_snoc, Hops.
        assert (Hnil : ops_of (x, color) = [])
          by (unfold pin_ops; by rewrite Hmc, Hx).
        by rewrite Hnil, app_nil_r.
  - destruct (negb (is_grid_definition x) && negb (is_e2e_pin_definition x)).
    + injection Hstep as <-. cbn [charts]. split; [|done].
      split; cbn [pin_color_map_part2 consolidated_pin_ops_part2
                  external_color_map_part2 all_unique_external_items_part2
                  pin_color_map external_color_map all_unique_external_items];
        [|by rewrite Hitems|done|done].
      rewrite dict_has_fresh by (by rewrite Hext). by rewrite Hext.
    + injection Hstep as <-. by split.
Qed.

Lemma color_item_fresh (color : string) (maps : color_maps) (x y : string) :
  y ≠ x →
  dict_get (pin_color_map (color_item GRID_PREFIXES color maps x)) y
  = dict_get (pin_color_map maps) y
  ∧ dict_get (external_color_map (color_item GRID_PREFIXES color maps x)) y
    = dict_get (external_color_map maps) y.
Proof.
  intros Hne. rewrite color_item_pin, color_item_external.
  rewrite !bool_decide_eq_false_2 by done. simpl.
  by destruct (dict_get (pin_color_map maps) y).
Qed.

Lemma color_items_fresh (color : string) (g : list string) (maps : color_maps)
    (y : string) :
  y ∉ g →
  dict_get (pin_color_map (foldl (color_item GRID_PREFIXES color) maps g)) y
  = dict_get (pin_color_map maps) y
  ∧ dict_get (external_color_map (foldl (color_item GRID_PREFIXES color) maps g)) y
    = dict_get (external_color_map maps) y.
Proof.
  revert maps. induction g as [|x g IH]; intros maps Hy; [done|].
  cbn [foldl]. apply not_elem_of_cons in Hy as [Hne Hy].
  destruct (IH (color_item GRID_PREFIXES color maps x) Hy) as [-> ->].
  by apply color_item_fresh.
Qed.

Lemma chart_items_agree (color : string) (g : list string)
    (sti sti' : items_state) (maps : color_maps) :
  fold_sum (item_step color) g sti = inr sti' →
  NoDup g →
  (∀ x, x ∈ g → dict_get (pin_color_map maps) x = None
                ∧ dict_get (external_color_map maps) x = None) →
  agree (charts sti) maps →
  agree (charts sti') (foldl (color_item GRID_PREFIXES color) maps g)
  ∧ color_index (charts sti') = color_index (charts sti).
Proof.
  revert sti maps. induction g as [|x g IH]; intros sti maps Hrun Hnd Hfresh Hag.
  - injection Hrun as <-. by split.
  - cbn [fold_sum] in Hrun.
    destruct (item_step color sti x) as [e|sti1] eqn:Hstep; [done|].
    apply NoDup_cons in Hnd as [Hx Hnd].
    destruct (Hfresh x) as [Hp He]; [left|].
    destruct (chart_item_agree color sti sti1 maps x Hstep Hag Hp He) as [Hag1 Hci].
    cbn [foldl]. rewrite <- Hci. apply (IH sti1); [done|done| |done].
    intros y Hy. assert (y ≠ x) by (by intros ->).
    destruct (color_item_fresh color maps x y) as [-> ->]; [done|].
    apply Hfresh. by right.
Qed.

Lemma chart_groups_agree (colors : list (list string * string))
    (gs : list (list string)) (st st' : chart_state) (maps : color_maps) :
  fold_sum (chart_state_after GRID_PREFIXES map_coords state_pins_by_prefix cell_width)
           gs st = inr st' →
  Forall (λ g, NoDup g ∧ Forall (λ x, is_grid_definition x = false) g) gs →
  pairwise lists_disjoint gs →
  (∀ j g, gs !! j = Some g → g ≠ [] →
          dict_get colors g = Some (palette (color_index st + j))) →
  (∀ g x, g ∈ gs → x ∈ g → dict_get (pin_color_map maps) x = None
                           ∧ dict_get (external_color_map maps) x = None) →
  agree st maps →
  agree st' (foldl (color_group GRID_PREFIXES colors) maps gs)
  ∧ color_index st' = (color_index st + length gs)%nat.
Proof.
  revert st maps. induction gs as [|g gs IH];
    intros st maps Hrun Hall Hdis Hcol Hfresh Hag.
  - injection Hrun as <-. split; [done|]. simpl. lia.
  - cbn [fold_sum] in Hrun.
    destruct (chart_state_after _ _ _ _ st g) as [e|st1] eqn:Hg; [done|].
    apply Forall_cons in Hall as [[Hnd Hng] Hall]. destruct Hdis as [Hg_dis Hdis].
    assert (Hstep : agree st1 (color_group GRID_PREFIXES colors maps g)
                    ∧ color_index st1 = S (color_index st)).
    { unfold chart_state_after in Hg.
      destruct g as [|x0 g0].
      - simpl in Hg. injection Hg as <-. split; [|done].
        destruct Hag. by split.
      - assert (Hskip : forallb is_grid_definition (x0 :: g0) = false).
        { apply Forall_cons in Hng as [Hx0 _]. simpl. by rewrite Hx0. }
        rewrite Hskip in Hg. cbn [andb] in Hg.
        destruct (fold_sum _ (x0 :: g0) _) as [e|sti'] eqn:Hitems; [done|].
        injection Hg as <-.
        destruct (chart_items_agree _ _ _ sti' maps Hitems Hnd) as [Hag' Hci].
        + intros x Hx. apply (Hfresh (x0 :: g0)); [left|done].
        + destruct Hag. by split.
        + split; [|done]. unfold color_group.
          rewrite (Hcol 0%nat (x0 :: g0)) by done. simpl.
          by rewrite Nat.add_0_r. }
    destruct Hstep as [Hag1 Hci1]. cbn [foldl].
    destruct (IH st1 (color_group GRID_PREFIXES colors maps g)) as [Hag2 Hci2];
      [done|done|done| | |done|].
    + intros j g' Hj Hne. rewrite Hci1.
      rewrite (Hcol (S j) g' Hj Hne). f_equal. f_equal. lia.
    + intros g' x Hg' Hx. unfold color_group.
      destruct (color_items_fresh (default "" (dict_get colors g)) g maps x)
        as [-> ->].
      * rewrite Forall_forall in Hg_dis. intros Hxg.
        by apply (Hg_dis g' Hg' x).
      * apply (Hfresh g'); [by right|done].
    + split; [done|]. rewrite Hci2, Hci1. simpl. lia.
Qed.

End Part1Facts.

Section Part1Theorems.

Variable GRID_PREFIXES : list string.
Variable E2E_PINS : list string.
Variable grid_lines : gmap string loc.
Variable map_coords : gmap string (gmap string (Z * Z)).
Variable state_pins_by_prefix : gmap string (gset string).
Variables cell_width grid_height grid_section_width : Z.

Local Abbreviation charts_of :=
  (part1_charts GRID_PREFIXES grid_lines map_coords state_pins_by_prefix
     cell_width grid_height grid_section_width).
Local Abbreviation group_chart :=
  (chart_group GRID_PREFIXES grid_lines map_coords state_pins_by_prefix
     cell_width grid_height grid_section_width).
Local Abbreviation state_after :=
  (chart_state_after GRID_PREFIXES map_coords state_pins_by_prefix cell_width).

Lemma chart_group_state (st st' : chart_state) (g out : list string)
    (h h' : gmap loc (list string)) :
  group_chart st g h = (inr (st', out), h') → state_after st g = inr st'.
Proof.
  unfold chart_group, chart_state_after.
  destruct (forallb is_grid_definition g && (0 <? length g)%nat).
  { by intros [= <- _ _]. }
  rewrite bind_run.
  destruct (fold_sum _ g _) as [e|items]; [done|]. cbn [of_sum ret].
  rewrite bind_run.
  destruct (fold_each GRID_PREFIXES _ ∅ h) as [[e|colored] h1]; [done|].
  rewrite bind_run. unfold read_store.
  destruct (chart_rows _ _ _ _ _) as [e|rows]; [done|].
  by intros [= <- _ _].
Qed.

Lemma part1_fold_state (gs : list (list string)) (st st' : chart_state)
    (out out' : list string) (h h' : gmap loc (list string)) :
  fold_each gs (λ '(st, out) line_data,
                  '(st', out') ← group_chart st line_data;
                  ret (st', out ++ out')) (st, out) h
  = (inr (st', out'), h') →
  fold_sum state_after gs st = inr st'.
Proof.
  revert st out h. induction gs as [|g gs IH]; intros st out h.
  - simpl. by intros [= <- _ _].
  - cbn [fold_each fold_sum]. rewrite bind_run, bind_run.
    destruct (group_chart st g h) as [[e|[st1 out1]] h1] eqn:Hg; [done|].
    rewrite (chart_group_state _ _ _ _ _ _ Hg). cbn [ret]. apply IH.
Qed.

Lemma reduced_groups_clean (initial_groups : list (list string)) :
  Forall (λ g, NoDup g ∧ Forall (λ x, is_grid_definition x = false) g)
         (reduce_connection_groups GRID_PREFIXES E2E_PINS initial_groups).
Proof.
  apply Forall_forall. intros g Hg. pose proof Hg as (s & _ & ->)%elem_of_reduce.
  split; [apply NoDup_canonical|].
  apply Forall_forall. intros x [_ Hr]%elem_of_canonical.
  unfold retained in Hr. destruct (is_pin GRID_PREFIXES x) eqn:Hp.
  - by apply (pin_is_no_definition_aux GRID_PREFIXES).
  - simpl in Hr. unfold is_listed_external in Hr. rewrite Hp in Hr. simpl in Hr.
    apply andb_prop in Hr as [Hr _]. by apply negb_true_iff in Hr.
Qed.

(** X25.  Part 2 and part 3 agree on the groups of the reducer.  When
    part 1 completes on the output of the reducer, what it leaves to
    part 2 is what [calculate_global_colors] computes from the same
    groups: the same colours of the external items, the same set of
    external items and the same operations on the grids; its pin map
    holds the pins of that function that have a cell in a grid.  The
    number of colours used is the number of groups. *)
Theorem part1_agrees_with_part3 (initial_groups : list (list string))
    (st : chart_state) (out : list string) (h h' : gmap loc (list string)) :
  let groups := reduce_connection_groups GRID_PREFIXES E2E_PINS initial_groups in
  part1_charts GRID_PREFIXES grid_lines map_coords state_pins_by_prefix
    cell_width grid_height grid_section_width groups h
  = (inr (st, out), h') →
  let '(pin_map, ext_map, ops, items) :=
    calculate_global_colors GRID_PREFIXES E2E_PINS groups map_coords
      state_pins_by_prefix cell_width in
  color_index st = length groups
  ∧ external_color_map_part2 st = ext_map
  ∧ all_unique_external_items_part2 st = items
  ∧ consolidated_pin_ops_part2 st = ops
  ∧ pin_color_map_part2 st = filter (has_coords map_coords) pin_map.
Proof.
  cbv zeta. intros Hrun%part1_fold_state.
  unfold calculate_global_colors. cbv zeta. rewrite reduce_priority_sorted.
  set (groups := reduce_connection_groups GRID_PREFIXES E2E_PINS initial_groups) in *.
  destruct (chart_groups_agree GRID_PREFIXES map_coords state_pins_by_prefix cell_width
              (group_to_color groups) groups _ st
              {| pin_color_map := []; external_color_map := [];
                 all_unique_external_items := ∅ |} Hrun) as [[He Hi Hp Ho] Hci].
  - apply reduced_groups_clean.
  - apply reduce_pairwise.
  - intros j g Hj Hne. simpl. apply group_to_color_lookup; [done|].
    intros j' Hj'. destruct (decide (j' = j)) as [|Hjj]; [done|].
    destruct g as [|x g]; [done|].
    destruct (reduce_groups_disjoint GRID_PREFIXES E2E_PINS initial_groups
                j' j _ _ Hjj Hj' Hj x); left.
  - by intros g x _ _.
  - by split.
  - by rewrite He, Hi, Hp, Ho, Hci.
Qed.

End Part1Theorems.

Lemma part1_agrees_with_part3_witness :
  ∃ grid_lines map_coords h1 st out h2,
    generate_grids ["A"] {[ "A" := (2, 1)%Z ]} 3 1 4 ∅
    = (inr (grid_lines, map_coords), h1)
    ∧ part1_charts ["A"] grid_lines map_coords {[ "A" := {[ "A1" ]} ]} 4 3 11
        (reduce_connection_groups ["A"] ["G"] [["A2"]; ["P1+"; "A1"]; ["A1"; "G"]]) h1
      = (inr (st, out), h2)
    ∧ let '(pin_map, ext_map, ops, items) :=
        calculate_global_colors ["A"] ["G"]
          (reduce_connection_groups ["A"] ["G"] [["A2"]; ["P1+"; "A1"]; ["A1"; "G"]])
          map_coords {[ "A" := {[ "A1" ]} ]} 4 in
      color_index st
      = length (reduce_connection_groups ["A"] ["G"]
                  [["A2"]; ["P1+"; "A1"]; ["A1"; "G"]])
      ∧ external_color_map_part2 st = ext_map
      ∧ all_unique_external_items_part2 st = items
      ∧ consolidated_pin_ops_part2 st = ops
      ∧ pin_color_map_part2 st = filter (has_coords map_coords) pin_map.
Proof.
  assert (∃ grid_lines map_coords h1 st out h2,
            generate_grids ["A"] {[ "A" := (2, 1)%Z ]} 3 1 4 ∅
            = (inr (grid_lines, map_coords), h1)
            ∧ part1_charts ["A"] grid_lines map_coords {[ "A" := {[ "A1" ]} ]} 4 3 11
                (reduce_connection_groups ["A"] ["G"]
                   [["A2"]; ["P1+"; "A1"]; ["A1"; "G"]]) h1
              = (inr (st, out), h2))
    as (grid_lines & map_coords & h1 & st & out & h2 & Hgrids & Hrun).
  { eexists _, _, _, _, _, _.
    split; [vm_compute; reflexivity|vm_compute; reflexivity]. }
  exists grid_lines, map_coords, h1, st, out, h2.
  split; [exact Hgrids|]. split; [exact Hrun|].
  exact (part1_agrees_with_part3 ["A"] ["G"] grid_lines map_coords
           {[ "A" := {[ "A1" ]} ]} 4 3 11 [["A2"]; ["P1+"; "A1"]; ["A1"; "G"]]
           st out h1 h2 Hrun).
Defined.

(** ** Part 1 raises nothing *)
Section Part1Runs.

Local Open Scope Z_scope.

Variable GRID_PREFIXES : list string.
Variable GRID_DIMENSIONS : gmap string (Z * Z).
Variables max_C max_R cell_width : Z.
Variable grid_lines : gmap string loc.
Variable map_coords : gmap string (gmap string (Z * Z)).
Variable state_pins_by_prefix : gmap string (gset string).
Variable grid_section_width : Z.

Hypothesis prefixes_declared : GRID_PREFIXES ≠ [].
Hypothesis max_R_pos : 1 ≤ max_R.
Hypothesis bounded : rows_bounded GRID_DIMENSIONS max_R.
Hypothesis lines_dom : dom grid_lines = list_to_set GRID_PREFIXES.
Hypothesis coords_made :
  ∀ p, p ∈ GRID_PREFIXES →
       map_coords !! p = Some (grid_of GRID_DIMENSIONS max_C max_R cell_width p).2.

Local Abbreviation grid := (grid_of GRID_DIMENSIONS max_C max_R cell_width).
Local Abbreviation kept :=
  (base_kept GRID_DIMENSIONS max_C max_R cell_width grid_lines).
Local Abbreviation height := (Z.to_nat (2 * max_R + 1)).
Local Abbreviation item_step :=
  (chart_item GRID_PREFIXES map_coords state_pins_by_prefix cell_width).
Local Abbreviation group_chart :=
  (chart_group GRID_PREFIXES grid_lines map_coords state_pins_by_prefix
     cell_width (2 * max_R + 1) grid_section_width).

Lemma grid_height_of (p : string) : length (grid p).1 = height.
Proof.
  unfold grid_of.
  destruct (default (max_C, max_R) (GRID_DIMENSIONS !! p)) as [C R] eqn:Hdef.
  assert (HR : R ≤ max_R).
  { destruct (GRID_DIMENSIONS !! p) as [[C' R']|] eqn:Hd; simpl in Hdef;
      injection Hdef as <- <-; [by apply (bounded p C')|lia]. }
  pose proof (padded_height p C R cell_width max_R max_R_pos HR). lia.
Qed.

Lemma grid_rows_of (p item : string) (r c : Z) :
  (grid p).2 !! item = Some (r, c) → 0 ≤ r < Z.of_nat height.
Proof.
  intros Hi. rewrite <- (grid_height_of p). revert Hi. unfold grid_of.
  destruct (default (max_C, max_R) (GRID_DIMENSIONS !! p)) as [C R].
  apply padded_coords_rows.
Qed.

Lemma pin_prefix_declared (x : string) :
  is_pin GRID_PREFIXES x = true → Re.head x ∈ GRID_PREFIXES.
Proof.
  unfold is_pin. destruct GRID_PREFIXES as [|p ps]; [done|].
  by intros [_ H%bool_decide_eq_true]%andb_prop.
Qed.

Lemma chart_item_runs (color : string) (sti : items_state) (x : string) :
  dom (color_ops_by_prefix sti) = list_to_set GRID_PREFIXES →
  ops_from_coords map_coords (color_ops_by_prefix sti) →
  ∃ sti', item_step color sti x = inr sti'
          ∧ dom (color_ops_by_prefix sti') = list_to_set GRID_PREFIXES
          ∧ ops_from_coords map_coords (color_ops_by_prefix sti').
Proof.
  intros Hdom Hops. unfold chart_item.
  destruct (is_pin GRID_PREFIXES x) eqn:Hp.
  - pose proof (pin_prefix_declared x Hp) as Hin.
    rewrite (coords_made _ Hin).
    destruct ((grid (Re.head x)).2 !! x) as [[r c_end]|] eqn:Hx; [|by eexists].
    assert (is_Some (color_ops_by_prefix sti !! Re.head x)) as [ops_list Hl].
    { apply elem_of_dom. rewrite Hdom. by apply elem_of_list_to_set. }
    rewrite Hl. eexists. split; [done|]. cbn [color_ops_by_prefix]. split.
    + rewrite dom_insert_L, Hdom. apply set_eq. intros q.
      rewrite elem_of_union, elem_of_singleton. split; [|by right].
      intros [->|?]; [by apply elem_of_list_to_set|done].
    + intros p ops op. destruct (decide (Re.head x = p)) as [<-|Hne].
      * rewrite lookup_insert_eq. intros [= <-] [Hop|Hop]%elem_of_app.
        -- by apply (Hops _ _ _ Hl).
        -- exists (grid (Re.head x)).2, x, c_end. split; [by apply coords_made|].
           apply elem_of_cons in Hop as [->|Hop]; [done|].
           apply elem_of_cons in Hop as [->|Hop]; [done|].
           by apply elem_of_nil in Hop.
      * rewrite lookup_insert_ne by done. apply Hops.
  - destruct (negb (is_grid_definition x) && negb (is_e2e_pin_definition x));
      by eexists.
Qed.

Lemma chart_items_run (color : string) (g : list string) (sti : items_state) :
  dom (color_ops_by_prefix sti) = list_to_set GRID_PREFIXES →
  ops_from_coords map_coords (color_ops_by_prefix sti) →
  ∃ sti', fold_sum (item_step color) g sti = inr sti'
          ∧ dom (color_ops_by_prefix sti') = list_to_set GRID_PREFIXES
          ∧ ops_from_coords map_coords (color_ops_by_prefix sti').
Proof.
  revert sti. induction g as [|x g IH]; intros sti Hdom Hops; [by eexists|].
  destruct (chart_item_runs color sti x Hdom Hops) as (sti1 & Hstep & Hdom1 & Hops1).
  cbn [fold_sum]. rewrite Hstep. by apply IH.
Qed.

Lemma ops_init_dom :
  dom (list_to_map ((λ p, (p, [])) <$> GRID_PREFIXES)
         : gmap string (list (Z * Z * string)))
  = list_to_set GRID_PREFIXES.
Proof.
  rewrite dom_list_to_map_L, <- list_fmap_compose. f_equal.
  etrans; [|apply list_fmap_id]. by apply list_fmap_ext.
Qed.

Lemma ops_init_from_coords :
  ops_from_coords map_coords (list_to_map ((λ p, (p, [])) <$> GRID_PREFIXES)).
Proof.
  intros p ops op Hp Hop. rewrite group_by_prefix_init in Hp.
  destruct (bool_decide (p ∈ GRID_PREFIXES)); [|done].
  injection Hp as <-. by apply elem_of_nil in Hop.
Qed.

(** *** The coloured copies of one chart *)

Lemma color_copy_runs (ops_by_prefix : gmap string (list (Z * Z * string)))
    (acc : gmap string loc) (p : string) (h : gmap loc (list string)) :
  p ∈ GRID_PREFIXES →
  dom ops_by_prefix = list_to_set GRID_PREFIXES →
  ops_from_coords map_coords ops_by_prefix →
  kept h → live_in h grid_lines → all_of_height height acc h →
  ∃ l' h',
    color_copy grid_lines ops_by_prefix acc p h = (inr (<[p := l']> acc), h')
    ∧ kept h' ∧ live_in h' grid_lines ∧ all_of_height height (<[p := l']> acc) h'.
Proof.
  intros Hp Hdom Hops Hkept Hlive Hacc. unfold color_copy.
  assert (is_Some (grid_lines !! p)) as [l Hl].
  { apply elem_of_dom. rewrite lines_dom. by apply elem_of_list_to_set. }
  assert (is_Some (ops_by_prefix !! p)) as [ops Hopsp].
  { apply elem_of_dom. rewrite Hdom. by apply elem_of_list_to_set. }
  rewrite bind_run, Hl. cbn [of_option ret]. rewrite bind_run.
  unfold get_list. rewrite (Hkept p l Hl).
  change (default [] (Some (grid p).1)) with (grid p).1. rewrite bind_run.
  unfold new_list. pose proof (is_fresh (dom h)) as Hfresh.
  set (l' := fresh (dom h)) in *. set (h1 := <[l' := (grid p).1]> h).
  rewrite bind_run, Hopsp. cbn [of_option ret]. rewrite bind_run.
  assert (Hc1 : content_of h1 l' = (grid p).1).
  { unfold content_of, h1. by rewrite lookup_insert_eq. }
  destruct (apply_coloring_result l' ops h1) as [Hres Hlen].
  destruct (touches_apply_coloring l' ops h1) as [Hd Hframe].
  rewrite bool_decide_eq_true_2 in Hres.
  2:{ apply Forall_forall. intros op Hop.
      destruct (Hops p ops op Hopsp Hop) as (cm & item & c_end & Hcm & Hitem).
      rewrite (coords_made p Hp) in Hcm. injection Hcm as <-.
      apply grid_rows_of in Hitem. rewrite Hc1.
      rewrite py_index_nonneg; [by eexists|lia|]. rewrite grid_height_of. lia. }
  destruct (apply_coloring l' ops h1) as [[e|[]] h2]; [done|]. cbn [fst snd] in *.
  exists l', h2. split; [done|].
  assert (Hold : ∀ k, k ∈ dom h → h2 !! k = h !! k).
  { intros k Hk. rewrite Hframe by (by intros ->). unfold h1.
    apply lookup_insert_ne. by intros <-. }
  split; [|split].
  - intros q k Hk. rewrite Hold; [by apply Hkept|]. by apply (Hlive q).
  - intros q k Hk. rewrite Hd. unfold h1. rewrite dom_insert_L.
    apply elem_of_union_r. by apply (Hlive q).
  - intros q k. destruct (decide (p = q)) as [<-|Hne].
    + rewrite lookup_insert_eq. intros [= <-]. split.
      * rewrite Hd. unfold h1. rewrite dom_insert_L. apply elem_of_union_l.
        by apply elem_of_singleton.
      * by rewrite Hlen, Hc1, grid_height_of.
    + rewrite lookup_insert_ne by done. intros Hk.
      destruct (Hacc q k Hk) as [Hkd Hkl]. split.
      * rewrite Hd. unfold h1. rewrite dom_insert_L. by apply elem_of_union_r.
      * by rewrite (content_of_frame h) by (by apply Hold).
Qed.

Lemma color_copies_run (ops_by_prefix : gmap string (list (Z * Z * string)))
    (ps : list string) (acc : gmap string loc) (h : gmap loc (list string)) :
  (∀ p, p ∈ ps → p ∈ GRID_PREFIXES) →
  dom ops_by_prefix = list_to_set GRID_PREFIXES →
  ops_from_coords map_coords ops_by_prefix →
  kept h → live_in h grid_lines → all_of_height height acc h →
  ∃ colored h',
    fold_each ps (color_copy grid_lines ops_by_prefix) acc h = (inr colored, h')
    ∧ kept h' ∧ live_in h' grid_lines ∧ all_of_height height colored h'
    ∧ dom colored = list_to_set ps ∪ dom acc.
Proof.
  intros Hps Hdom Hops. revert acc h.
  induction ps as [|p ps IH]; intros acc h Hkept Hlive Hacc.
  - exists acc, h. split; [done|]. split; [done|]. split; [done|]. split; [done|].
    simpl. by rewrite union_empty_l_L.
  - destruct (color_copy_runs ops_by_prefix acc p h) as (l' & h1 & Hrun & Hk1 & Hl1 & Ha1);
      [by apply Hps; left|done..|].
    destruct (IH (λ q Hq, Hps q (list_elem_of_further _ _ _ Hq)) _ h1 Hk1 Hl1 Ha1)
      as (colored & h2 & Hrun2 & Hk2 & Hl2 & Ha2 & Hd2).
    exists colored, h2. cbn [fold_each]. rewrite bind_run, Hrun.
    split; [done|]. split; [done|]. split; [done|]. split; [done|].
    rewrite Hd2, dom_insert_L. cbn [list_to_set].
    by rewrite (assoc_L (∪)), (comm_L (∪) (list_to_set ps) {[p]}).
Qed.

(** *** The rows of one chart *)

Lemma chart_rows_run (colored : gmap string loc) (standalone_padded : list string)
    (h : gmap loc (list string)) (rows : list nat) :
  dom colored = list_to_set GRID_PREFIXES →
  all_of_height height colored h →
  (∀ i, i ∈ rows → (i < height)%nat ∧ (i < length standalone_padded)%nat) →
  ∃ out, chart_rows GRID_PREFIXES colored standalone_padded h rows = inr out
         ∧ length out = length rows.
Proof.
  intros Hdom Hall. induction rows as [|i rows IH]; intros Hrows; [by eexists|].
  destruct (Hrows i) as [Hi Hs]; [left|].
  destruct (line_parts_ok colored h i GRID_PREFIXES) as [parts Hparts].
  { intros p Hp. assert (is_Some (colored !! p)) as [l Hl].
    { apply elem_of_dom. rewrite Hdom. by apply elem_of_list_to_set. }
    exists l. split; [done|]. destruct (Hall p l Hl) as [_ ->]. done. }
  destruct (lookup_lt_is_Some_2 _ _ Hs) as [cell Hcell].
  destruct IH as (out & Hout & Hlen); [by intros j Hj; apply Hrows; right|].
  cbn [chart_rows]. rewrite Hparts, Hcell, Hout. eexists. split; [done|].
  simpl. by rewrite Hlen.
Qed.

Lemma chart_group_runs (st : chart_state) (g : list string)
    (h : gmap loc (list string)) :
  kept h → live_in h grid_lines →
  ∃ st' out h', group_chart st g h = (inr (st', out), h')
                ∧ kept h' ∧ live_in h' grid_lines.
Proof.
  intros Hkept Hlive. unfold chart_group.
  destruct (forallb is_grid_definition g && (0 <? length g)%nat).
  { by exists st, [], h. }
  destruct (chart_items_run (palette (color_index st)) g
              {| charts :=
                   {| color_index := S (color_index st);
                      pin_color_map_part2 := pin_color_map_part2 st;
                      consolidated_pin_ops_part2 := consolidated_pin_ops_part2 st;
                      external_color_map_part2 := external_color_map_part2 st;
                      all_unique_external_items_part2 :=
                        all_unique_external_items_part2 st |};
                 non_pin_items := [];
                 color_ops_by_prefix :=
                   list_to_map ((λ p, (p, [])) <$> GRID_PREFIXES) |})
    as (items & Hitems & Hdom & Hops);
    [apply ops_init_dom|apply ops_init_from_coords|].
  rewrite bind_run, Hitems. cbn [of_sum ret]. rewrite bind_run.
  destruct (color_copies_run (color_ops_by_prefix items) GRID_PREFIXES ∅ h)
    as (colored & h1 & Hcopies & Hk1 & Hl1 & Ha1 & Hd1); [done..| |].
  { intros p l Hl. by rewrite lookup_empty in Hl. }
  rewrite dom_empty_L, union_empty_r_L in Hd1.
  rewrite Hcopies, bind_run. unfold read_store.
  set (cells := standalone_cells cell_width (palette (color_index st))
                  (non_pin_items items)).
  set (padded := cells ++ replicate _ _).
  destruct (chart_rows_run colored padded h1 (seq 0 (Z.to_nat (2 * max_R + 1))) Hd1 Ha1)
    as (rows & Hrows & _).
  { intros i Hi%elem_of_seq. split; [lia|]. unfold padded.
    rewrite length_app, length_replicate. lia. }
  rewrite Hrows. cbn [ret]. by eexists _, _, h1.
Qed.

Lemma part1_fold_runs (gs : list (list string)) (st : chart_state)
    (out : list string) (h : gmap loc (list string)) :
  kept h → live_in h grid_lines →
  ∃ st' out' h',
    fold_each gs (λ '(st, out) line_data,
                    '(st', out') ← group_chart st line_data;
                    ret (st', out ++ out')) (st, out) h
    = (inr (st', out'), h')
    ∧ kept h' ∧ live_in h' grid_lines.
Proof.
  revert st out h. induction gs as [|g gs IH]; intros st out h Hkept Hlive.
  - by exists st, out, h.
  - destruct (chart_group_runs st g h Hkept Hlive) as (st1 & out1 & h1 & Hg & Hk1 & Hl1).
    destruct (IH st1 (out ++ out1) h1 Hk1 Hl1) as (st2 & out2 & h2 & Hrest & Hk2 & Hl2).
    exists st2, out2, h2. cbn [fold_each]. rewrite bind_run, bind_run, Hg.
    by cbn [ret].
Qed.

End Part1Runs.

Section Part1Charts.

Local Open Scope Z_scope.

Variable GRID_PREFIXES : list string.

(** X26.  Part 1 always completes.  With at least one grid prefix and
    no grid of more rows than [max_R] (at least 1), the loop that draws
    one chart for each group, run on the grids of step 2 with any list
    of groups and any state pins, raises no exception: no pin names a
    grid that is not there, every operation names a row of its grid,
    and every row printed exists in every grid and in the column of
    external items. *)
Theorem part1_charts_complete (GRID_DIMENSIONS : gmap string (Z * Z))
    (max_C max_R cell_width : Z)
    (state_pins_by_prefix : gmap string (gset string)) (grid_section_width : Z)
    (groups : list (list string)) (h0 : gmap loc (list string)) :
  GRID_PREFIXES ≠ [] → 1 ≤ max_R → rows_bounded GRID_DIMENSIONS max_R →
  ∃ grid_lines map_coords h1 st out h2,
    generate_grids GRID_PREFIXES GRID_DIMENSIONS max_C max_R cell_width h0
    = (inr (grid_lines, map_coords), h1)
    ∧ part1_charts GRID_PREFIXES grid_lines map_coords state_pins_by_prefix
        cell_width (2 * max_R + 1) grid_section_width groups h1
      = (inr (st, out), h2).
Proof.
  intros Hne Hmax Hbound.
  pose proof (generate_grids_spec GRID_PREFIXES GRID_DIMENSIONS max_C max_R
                cell_width h0) as Hgen.
  destruct (generate_grids _ _ _ _ _ h0) as [[e|[grid_lines map_coords]] h1]; [done|].
  destruct Hgen as ([Hdom2 Hall] & Hlive & Hdom). cbn [fst snd] in *.
  destruct (part1_fold_runs GRID_PREFIXES GRID_DIMENSIONS max_C max_R cell_width
              grid_lines map_coords state_pins_by_prefix grid_section_width
              Hne Hmax Hbound Hdom) with (gs := groups)
    (st := {| color_index := 0; pin_color_map_part2 := [];
              consolidated_pin_ops_part2 := []; external_color_map_part2 := [];
              all_unique_external_items_part2 := ∅ |})
    (out := @nil string) (h := h1)
    as (st & out & h2 & Hrun & _).
  - intros p Hp. assert (is_Some (grid_lines !! p)) as [l Hl].
    { apply elem_of_dom. rewrite Hdom. by apply elem_of_list_to_set. }
    by destruct (Hall p l Hl) as [_ ?].
  - intros p l Hl. by destruct (Hall p l Hl) as [? _].
  - done.
  - by exists grid_lines, map_coords, h1, st, out, h2.
Qed.

End Part1Charts.

Lemma part1_charts_complete_witness :
  ∃ grid_lines map_coords h1 st out h2,
    generate_grids ["A"] {[ "A" := (2, 1)%Z ]} 3 1 4 ∅
    = (inr (grid_lines, map_coords), h1)
    ∧ part1_charts ["A"] grid_lines map_coords {[ "A" := {[ "A1" ]} ]}
        4 (2 * 1 + 1) 11 [["G"; "P1+"; "A1"]; ["A2"]] h1
      = (inr (st, out), h2).
Proof.
  apply (part1_charts_complete ["A"] {[ "A" := (2, 1)%Z ]} 3 1 4
           {[ "A" := {[ "A1" ]} ]} 11 [["G"; "P1+"; "A1"]; ["A2"]] ∅).
  - discriminate.
  - lia.
  - intros p C R [_ [= _ <-]]%lookup_singleton_Some. lia.
Defined.

Example part1_charts_run :
  match generate_grids ["A"] {[ "A" := (2, 1)%Z ]} 3 1 4 ∅ with
  | (inr (grid_lines, map_coords), h1) =>
      match (part1_charts ["A"] grid_lines map_coords {[ "A" := {[ "A1" ]} ]}
               4 3 11 [["G"; "P1+"; "A1"]; ["A2"]] h1).1 with
      | inr (st, out) =>
          pin_color_map_part2 st = [("A1", palette 0); ("A2", palette 1)]
          ∧ external_color_map_part2 st = [("G", palette 0); ("P1+", palette 0)]
          ∧ out !! 4%nat
            = Some ("|" +:+ palette 0 +:+ TEXT_BOLD_ITALIC_STATE +:+ " A1 "
                      +:+ PIN_TERMINATOR +:+ "| A2 |" +:+ GRID_SEPARATOR
                      +:+ palette 0 +:+ "| G  |" +:+ RESET)
          ∧ length out = 12%nat
      | inl _ => False
      end
  | _ => False
  end.
Proof. vm_compute. done. Qed.

(** ** Part 1 never repaints *)
Section Part1Keeps.

Variable GRID_PREFIXES : list string.
Variable grid_lines : gmap string loc.
Variable map_coords : gmap string (gmap string (Z * Z)).
Variable state_pins_by_prefix : gmap string (gset string).
Variables cell_width grid_height grid_section_width : Z.

Local Abbreviation item_step :=
  (chart_item GRID_PREFIXES map_coords state_pins_by_prefix cell_width).

Lemma dict_set_guarded_keeps (d : list (string * string)) (item color x c : string) :
  dict_get d x = Some c →
  dict_get (if dict_has d item then d else dict_set d item color) x = Some c.
Proof.
  intros Hx. destruct (dict_has d item) eqn:Hhas; [done|].
  rewrite dict_get_set. destruct (decide (x = item)) as [->|]; [|done].
  assert (dict_has d item = true); [|congruence].
  apply dict_has_spec. by rewrite Hx.
Qed.

Lemma chart_item_keeps (color : string) (sti sti' : items_state) (item x c : string) :
  item_step color sti item = inr sti' →
  (dict_get (pin_color_map_part2 (charts sti)) x = Some c →
   dict_get (pin_color_map_part2 (charts sti')) x = Some c)
  ∧ (dict_get (external_color_map_part2 (charts sti)) x = Some c →
     dict_get (external_color_map_part2 (charts sti')) x = Some c).
Proof.
  unfold chart_item. destruct (is_pin GRID_PREFIXES item).
  - destruct (map_coords !! Re.head item) as [current_map|]; [|done].
    destruct (current_map !! item) as [[r c_end]|]; [|by intros [= <-]].
    destruct (color_ops_by_prefix sti !! Re.head item); [|done].
    intros [= <-]. cbn [charts]. split.
    + intros Hx. pose proof (dict_set_guarded_keeps _ item color x c Hx) as H.
      by destruct (dict_has (pin_color_map_part2 (charts sti)) item).
    + by destruct (dict_has (pin_color_map_part2 (charts sti)) item).
  - destruct (negb (is_grid_definition item) && negb (is_e2e_pin_definition item));
      intros [= <-]; [|done].
    cbn [charts pin_color_map_part2 external_color_map_part2]. split; [done|].
    apply dict_set_guarded_keeps.
Qed.

Lemma chart_items_keep (color : string) (g : list string) (sti sti' : items_state)
    (x c : string) :
  fold_sum (item_step color) g sti = inr sti' →
  (dict_get (pin_color_map_part2 (charts sti)) x = Some c →
   dict_get (pin_color_map_part2 (charts sti')) x = Some c)
  ∧ (dict_get (external_color_map_part2 (charts sti)) x = Some c →
     dict_get (external_color_map_part2 (charts sti')) x = Some c).
Proof.
  revert sti. induction g as [|item g IH]; intros sti; [by intros [= <-]|].
  cbn [fold_sum]. destruct (item_step color sti item) as [e|sti1] eqn:Hstep; [done|].
  intros Hrest. destruct (chart_item_keeps color sti sti1 item x c Hstep) as [H1 H2].
  destruct (IH sti1 Hrest) as [H3 H4]. split; auto.
Qed.

(** X27.  Part 1 never repaints.  A pin or an external item that has a
    colour when the chart of a group is drawn has the same colour
    afterwards: both maps of part 1 are filled set-if-absent, the
    external map too, which in [calculate_global_colors] is assigned
    without a test. *)
Theorem chart_group_keeps_colors (st st' : chart_state) (line_data out : list string)
    (h h' : gmap loc (list string)) (x c : string) :
  chart_group GRID_PREFIXES grid_lines map_coords state_pins_by_prefix
    cell_width grid_height grid_section_width st line_data h
  = (inr (st', out), h') →
  (dict_get (pin_color_map_part2 st) x = Some c →
   dict_get (pin_color_map_part2 st') x = Some c)
  ∧ (dict_get (external_color_map_part2 st) x = Some c →
     dict_get (external_color_map_part2 st') x = Some c).
Proof.
  intros Hrun%chart_group_state. unfold chart_state_after in Hrun.
  destruct (forallb is_grid_definition line_data && (0 <? length line_data)%nat).
  { by injection Hrun as <-. }
  destruct (fold_sum _ line_data _) as [e|items] eqn:Hitems; [done|].
  injection Hrun as <-.
  apply (chart_items_keep _ _ _ _ x c) in Hitems. exact Hitems.
Qed.

End Part1Keeps.

Lemma chart_group_keeps_colors_witness :
  let st := {| color_index := 1; pin_color_map_part2 := [];
               consolidated_pin_ops_part2 := [];
               external_color_map_part2 := [("P1+", palette 0)];
               all_unique_external_items_part2 := {[ "P1+" ]} |} in
  ∃ st' out h',
    chart_group [] ∅ ∅ ∅ 4 0 0 st ["P1+"; "P2-"] ∅ = (inr (st', out), h')
    ∧ (dict_get (pin_color_map_part2 st) "P1+" = Some (palette 0) →
       dict_get (pin_color_map_part2 st') "P1+" = Some (palette 0))
    ∧ (dict_get (external_color_map_part2 st) "P1+" = Some (palette 0) →
       dict_get (external_color_map_part2 st') "P1+" = Some (palette 0)).
Proof.
  cbv zeta. eexists _, _, _. split; [vm_compute; reflexivity|].
  eapply (chart_group_keeps_colors [] ∅ ∅ ∅ 4 0 0 _ _ ["P1+"; "P2-"] _ ∅ _
            "P1+" (palette 0)).
  vm_compute. reflexivity.
Defined.

(** ** The colour maps by priority *)
Section ColorPriority.

Variable GRID_PREFIXES : list string.
Variable E2E_PINS : list string.

Local Abbreviation priority := (group_priority_key GRID_PREFIXES E2E_PINS).
Local Abbreviation init :=
  {| pin_color_map := []; external_color_map := [];
     all_unique_external_items := ∅ |}.












(** The groups of the reducer share no member, so no member that is
    not a pin either. *)
Lemma reduce_non_pins_unshared (initial_groups : list (list string)) :
  non_pins_unshared GRID_PREFIXES
    (reduce_connection_groups GRID_PREFIXES E2E_PINS initial_groups).
Proof.
  intros g g' x [i Hi]%list_elem_of_lookup_1 [j Hj]%list_elem_of_lookup_1 Hx Hx' _.
  destruct (decide (i = j)) as [->|Hne]; [congruence|].
  by destruct (reduce_groups_disjoint GRID_PREFIXES E2E_PINS initial_groups
                 i j g g' Hne Hi Hj x).
Qed.


End ColorPriority.


(** A run on groups that share pins: the group with the declared
    terminal [G] is visited first, then the one with [P1+]; the pins
    [A2] and [A1], each in two groups, have the colour of the first of
    these that lists them, not that of the pure-pin group that comes
    first in the input. *)
Example calculate_global_colors_priority_run :
  let groups := [["A1"; "A2"]; ["P1+"; "A1"]; ["G"; "A2"]] in
  let '(pin_map, ext_map, _, _) :=
    calculate_global_colors ["A"] ["G"; "T"] groups ∅ ∅ 8 in
  sorted (group_priority_key ["A"] ["G"; "T"]) Nat.leb groups
  = [["G"; "A2"]; ["P1+"; "A1"]; ["A1"; "A2"]]
  ∧ pin_map = [("A2", palette 2); ("A1", palette 1)]
  ∧ ext_map = [("G", palette 2); ("P1+", palette 1)].
Proof. vm_compute. done. Qed.

(** ** Two codes on one line *)
Section TwoCodes.

Local Open Scope Z_scope.

(** C5.  Two operations on the same line at distinct columns give the
    same result and the same final text, whichever comes first in the
    list handed to [apply_coloring], also where a row or a column is
    out of range.  The operations of a line are applied from the
    highest column down: on a line [a b c] with the first code at the
    offset where [b] begins and the second at the offset where [c]
    begins, the text is built by inserting the second code and then the
    first, so the first insertion shifts nothing the second relies on,
    and both codes end in front of the characters that had their
    offsets in the line as it was: the final text is [a], the first
    code, [b], the second code, [c], for either order of the list. *)
Theorem apply_coloring_order_independent (lines : loc) (r c1 c2 : Z)
    (code1 code2 : string) (h : gmap loc (list string)) :
  c1 ≠ c2 →
  apply_coloring lines [(r, c1, code1); (r, c2, code2)] h
  = apply_coloring lines [(r, c2, code2); (r, c1, code1)] h
  ∧ ∀ (content : list string) (a b c : string),
      h !! lines = Some content → 0 ≤ r →
      content !! Z.to_nat r = Some (a +:+ b +:+ c) →
      c1 = len a → c2 = len a + len b →
      let text := a +:+ code1 +:+ b +:+ code2 +:+ c in
      let final := <[lines := <[Z.to_nat r := text]> content]> h in
      String.concat ""
        (py_insert (py_insert (chars (a +:+ b +:+ c)) c2 code2) c1 code1)
      = text
      ∧ apply_coloring lines [(r, c1, code1); (r, c2, code2)] h = (inr tt, final)
      ∧ apply_coloring lines [(r, c2, code2); (r, c1, code1)] h = (inr tt, final).
Proof.
  intros Hne.
  assert (Hswap : apply_coloring lines [(r, c1, code1); (r, c2, code2)] h
                  = apply_coloring lines [(r, c2, code2); (r, c1, code1)] h).
  { unfold apply_coloring. rewrite !group_by_line_same_row.
    rewrite !dom_singleton_L, !elements_singleton.
    change (sorted id Z.leb [r]) with [r]. cbn [for_each].
    unfold color_line. rewrite !lookup_singleton_eq. cbn [default]. unfold id.
    by rewrite (sorted_two_desc (c1, code1) (c2, code2)). }
  split; [exact Hswap|].
  intros content a b c Hh Hr Hrow H1 H2 text final.
  pose proof (len_nonneg b) as Hb.
  assert (Hdesc : sorted fst Z_ge [(c1, code1); (c2, code2)]
                  = [(c2, code2); (c1, code1)]).
  { simpl. unfold Z_ge. by destruct (Z.leb_spec c2 c1); [lia|]. }
  assert (Htext : colored_text (a +:+ b +:+ c) [(c1, code1); (c2, code2)] = text).
  { unfold text. rewrite <- (colored_text_cell a b c code1 code2 c2) by lia.
    replace (c2 - len b) with c1 by lia.
    unfold colored_text.
    by rewrite <- (sorted_two_desc (c1, code1) (c2, code2)). }
  assert (Hrun : apply_coloring lines [(r, c1, code1); (r, c2, code2)] h
                 = (inr tt, final)).
  { pose proof (lookup_lt_Some _ _ _ Hrow) as Hlt.
    rewrite (apply_coloring_lines lines _ h _ Hh).
    2:{ constructor; [cbn [fst]; lia|]. constructor; [cbn [fst]; lia|]. constructor. }
    unfold final. f_equal. f_equal. apply list_eq. intros i.
    rewrite list_lookup_imap.
    destruct (decide (i = Z.to_nat r)) as [->|Hi].
    - rewrite list_lookup_insert_eq by done. rewrite Hrow. simpl. f_equal.
      rewrite Z2Nat.id by done. unfold ops_of_line. simpl.
      rewrite !decide_True by done. simpl. exact Htext.
    - rewrite list_lookup_insert_ne by done.
      destruct (_ !! i) as [line|]; simpl; [|done]. f_equal.
      unfold ops_of_line. simpl. rewrite !decide_False by lia. simpl.
      apply colored_text_nil. }
  split; [|split; [exact Hrun|by rewrite <- Hswap]].
  rewrite <- Htext. unfold colored_text. by rewrite Hdesc.
Qed.

End TwoCodes.

Lemma apply_coloring_order_independent_witness :
  let h := {[ 0%nat := ["+--+"; "|ab|"] ]} : gmap loc (list string) in
  let final := <[0%nat := <[1%nat := "|[ab]|"]> ["+--+"; "|ab|"]]> h in
  (1 ≠ 3)%Z
  ∧ apply_coloring 0%nat [(1, 1, "["); (1, 3, "]")]%Z h = (inr tt, final)
  ∧ apply_coloring 0%nat [(1, 3, "]"); (1, 1, "[")]%Z h = (inr tt, final).
Proof.
  cbv zeta. split; [lia|].
  destruct (apply_coloring_order_independent 0%nat 1 1 3 "[" "]"
              {[ 0%nat := ["+--+"; "|ab|"] ]}) as [_ Hland]; [lia|].
  destruct (Hland ["+--+"; "|ab|"] "|" "ab" "|") as (_ & H1 & H2);
    [reflexivity|lia|reflexivity|reflexivity|reflexivity|].
  split; [exact H1|exact H2].
Defined.
